(** * cpfs: metadata directory and write-back storage cache

    A shallow embedding of [pkg/meta] (memory_store.go, types.go and the
    file storage implementation) together with the parts of the Go
    standard library they call ([strings], [path], [path/filepath] on a
    POSIX host), and the properties of the specification proved or
    refuted against it. *)

From Stdlib Require Import ZArith Ascii String Lia Sorted.
From stdpp Require Import gmap strings list fin_maps.

Local Open Scope Z_scope.

(** ** Go strings

    A Go [string] is an immutable sequence of bytes; it is modelled by
    [string], whose constructors are exactly "empty" and "byte followed
    by a string".  Indices into a Go string ([path[r]], [s[i:]]) become
    structural recursion or the two slicing functions below. *)

Module GoString.

Definition slash : ascii := "/"%char.
Definition dot : ascii := "."%char.
Definition backslash : ascii := "\"%char.
Definition nul : ascii := "000"%char.

(** [s[n:]] *)
Fixpoint slice_from (n : nat) (s : string) : string :=
  match n, s with
  | O, _ => s
  | S n', String _ s' => slice_from n' s'
  | S _, EmptyString => EmptyString
  end.

(** [s[:n]] *)
Fixpoint slice_to (n : nat) (s : string) : string :=
  match n, s with
  | O, _ => EmptyString
  | S n', String c s' => String c (slice_to n' s')
  | S _, EmptyString => EmptyString
  end.

(** [strings.HasPrefix(s, prefix)] *)
Fixpoint HasPrefix (s prefix : string) {struct prefix} : bool :=
  match prefix, s with
  | EmptyString, _ => true
  | String c prefix', String d s' => Ascii.eqb c d && HasPrefix s' prefix'
  | String _ _, EmptyString => false
  end.

(** [strings.TrimPrefix(s, prefix)] *)
Definition TrimPrefix (s prefix : string) : string :=
  if HasPrefix s prefix then slice_from (String.length prefix) s else s.

(** [strings.ReplaceAll(s, old, new)] for one-byte [old] and [new], the
    only way the repository calls it. *)
Fixpoint ReplaceAll (s : string) (old new : ascii) : string :=
  match s with
  | EmptyString => EmptyString
  | String c s' =>
      String (if Ascii.eqb c old then new else c) (ReplaceAll s' old new)
  end.

(** [strings.ContainsAny(s, chars)] for a one-byte [chars]: does the
    byte occur in [s]. *)
Fixpoint ContainsByte (s : string) (c : ascii) : bool :=
  match s with
  | EmptyString => false
  | String d s' => Ascii.eqb d c || ContainsByte s' c
  end.

(** [strings.LastIndexByte(s, c)], -1 when [c] does not occur. *)
Fixpoint LastIndexByte (s : string) (c : ascii) : Z :=
  match s with
  | EmptyString => -1
  | String d s' =>
      let i := LastIndexByte s' c in
      if 0 <=? i then i + 1 else if Ascii.eqb d c then 0 else -1
  end.

(** [strings.Join(elems, sep)] *)
Fixpoint Join (elems : list string) (sep : string) : string :=
  match elems with
  | [] => EmptyString
  | [e] => e
  | e :: rest => e +:+ sep +:+ Join rest sep
  end.

End GoString.
Import GoString.

(** ** [path.Clean], [path.Dir], [path.Base]

    The standard library's implementation, byte for byte: [Clean] reads
    the path from index [r] on (here: the remaining suffix) and writes
    into a buffer addressed by the write index [w]. *)

Module GoPath.

(** The [lazybuf] of [path.Clean]: the [w] bytes written so far, most
    recent first, so that [out.w] is the length and [out.w--] drops the
    head. *)
Definition lazybuf := list ascii.

Definition buf_string (out : lazybuf) : string :=
  string_of_list_ascii (rev out).

(** The back-tracking of a [..] element:
    [out.w--; for out.w > dotdot && out.index(out.w) != '/' { out.w-- }].
    After a decrement, [out.index(out.w)] is the byte just dropped. *)
Fixpoint backtrack (out : lazybuf) (dotdot : nat) : lazybuf :=
  match out with
  | [] => []
  | c :: out' =>
      if (dotdot <? length out')%nat && negb (Ascii.eqb c slash)
      then backtrack out' dotdot
      else out'
  end.

(** [for ; r < n && path[r] != '/'; r++ { out.append(path[r]) }] *)
Fixpoint copyElem (path : string) (out : lazybuf) : string * lazybuf :=
  match path with
  | EmptyString => (EmptyString, out)
  | String c rest =>
      if Ascii.eqb c slash then (path, out) else copyElem rest (c :: out)
  end.

(** [r+k == n || path[r+k] == '/'], on the suffix that starts at [r+k]. *)
Definition elemEnd (s : string) : bool :=
  match s with
  | EmptyString => true
  | String c _ => Ascii.eqb c slash
  end.

(** One iteration of the main loop [for r < n { switch { ... } }] at
    [path[r] = c], [path[r+1:] = rest]: the new suffix to read, the new
    buffer and the new [dotdot]. *)
Definition cleanStep (rooted : bool) (c : ascii) (rest : string)
    (out : lazybuf) (dotdot : nat) : string * lazybuf * nat :=
  if Ascii.eqb c slash then
    (* empty path element *)
    (rest, out, dotdot)
  else if Ascii.eqb c dot && elemEnd rest then
    (* . element *)
    (rest, out, dotdot)
  else if Ascii.eqb c dot
          && match rest with
             | String d rest2 => Ascii.eqb d dot && elemEnd rest2
             | EmptyString => false
             end then
    (* .. element: remove to last / *)
    let rest2 := slice_from 1 rest in
    if (dotdot <? length out)%nat then
      (* can backtrack *)
      (rest2, backtrack out dotdot, dotdot)
    else if negb rooted then
      (* cannot backtrack, but not rooted, so append .. element *)
      let out1 := if (0 <? length out)%nat then slash :: out else out in
      let out2 := dot :: dot :: out1 in
      (rest2, out2, length out2)
    else
      (rest2, out, dotdot)
  else
    (* real path element: add slash if needed, copy element *)
    let out1 :=
      if (rooted && negb (length out =? 1)%nat)
         || (negb rooted && negb (length out =? 0)%nat)
      then slash :: out else out in
    let '(rest', out2) := copyElem (String c rest) out1 in
    (rest', out2, dotdot).

(** The loop itself.  Every iteration consumes at least one byte, so
    [fuel] equal to the number of bytes still to read is enough. *)
Fixpoint cleanLoop (fuel : nat) (rooted : bool) (path : string)
    (out : lazybuf) (dotdot : nat) : lazybuf :=
  match fuel with
  | O => out
  | S fuel' =>
      match path with
      | EmptyString => out
      | String c rest =>
          let '(path', out', dotdot') := cleanStep rooted c rest out dotdot in
          cleanLoop fuel' rooted path' out' dotdot'
      end
  end.

Definition Clean (path : string) : string :=
  match path with
  | EmptyString => "."
  | String c rest =>
      let rooted := Ascii.eqb c slash in
      let n := String.length path in
      let out :=
        if rooted then cleanLoop n true rest [slash] 1
        else cleanLoop n false path [] 0 in
      if (length out =? 0)%nat then "." else buf_string out
  end.

(** [path.Split]: [i := LastIndexByte(path, '/'); path[:i+1], path[i+1:]] *)
Definition Split (path : string) : string * string :=
  let i := LastIndexByte path slash in
  (slice_to (Z.to_nat (i + 1)) path, slice_from (Z.to_nat (i + 1)) path).

(** [path.Dir] *)
Definition Dir (path : string) : string := Clean (fst (Split path)).

(** Strip trailing slashes:
    [for len(path) > 0 && path[len(path)-1] == '/' { path = path[:len(path)-1] }] *)
Fixpoint stripTrailingSlashes (path : string) : string :=
  match path with
  | EmptyString => EmptyString
  | String c rest =>
      match stripTrailingSlashes rest with
      | EmptyString => if Ascii.eqb c slash then EmptyString else String c EmptyString
      | rest' => String c rest'
      end
  end.

(** [path.Base] *)
Definition Base (path : string) : string :=
  if String.eqb path "" then "."
  else
    let path1 := stripTrailingSlashes path in
    let i := LastIndexByte path1 slash in
    let path2 := if 0 <=? i then slice_from (Z.to_nat (i + 1)) path1 else path1 in
    if String.eqb path2 "" then "/" else path2.

(** [filepath.Clean] and [filepath.Join] on a host whose separator is
    [/]: there [filepath.Clean] is the algorithm of [path.Clean], and
    [Join] cleans the non-empty elements joined by the separator. *)
Definition filepath_Clean (path : string) : string := Clean path.

Fixpoint filepath_Join (elem : list string) : string :=
  match elem with
  | [] => ""
  | e :: rest =>
      if String.eqb e "" then filepath_Join rest
      else filepath_Clean (Join elem "/")
  end.

(** [filepath.Dir] on the same host (no volume name). *)
Definition filepath_Dir (path : string) : string := Dir path.

End GoPath.
Import GoPath.

(** ** [normalizePath] (memory_store.go) *)

Definition normalizePath (p : string) : string :=
  let p := ReplaceAll p backslash slash in
  let p := TrimPrefix p "./" in
  let p := if negb (HasPrefix p "/") then "/" +:+ p else p in
  let p := Clean p in
  if String.eqb p "." || String.eqb p "" then "/" else p.

(** ** The metadata directory (types.go, memory_store.go) *)

(** [uint64] arithmetic: [x++] wraps around at [2^64]. *)
Definition uint64_max : Z := 2 ^ 64 - 1.
Definition uint64_incr (x : Z) : Z := (x + 1) mod 2 ^ 64.

(** [os.ModeDir], bit 31 of an [os.FileMode]. *)
Definition ModeDir : Z := Z.shiftl 1 31.

Inductive FileType := TypeRegular | TypeDirectory | TypeSymlink.

Global Instance FileType_eq_dec : EqDecision FileType.
Proof. solve_decision. Defined.

Record Block := {
  BlockID : string;
  BlockSize : Z;
  BlockOffset : Z;
  BlockChecksum : string;
  BlockLocations : list string;
}.

(** [time.Time] values are instants on one time line, here integers. *)
Definition Time := Z.

Record Metadata := {
  Inode : Z;
  Name : string;
  Type_ : FileType;
  Size : Z;
  Mode : Z;
  Blocks : list Block;
  Links : Z;
  Owner : string;
  Group : string;
  CreateTime : Time;
  ModifyTime : Time;
  AccessTime : Time;
  Version : Z;
}.

Definition with_AccessTime (m : Metadata) (t : Time) : Metadata :=
  {| Inode := Inode m; Name := Name m; Type_ := Type_ m; Size := Size m;
     Mode := Mode m; Blocks := Blocks m; Links := Links m; Owner := Owner m;
     Group := Group m; CreateTime := CreateTime m; ModifyTime := ModifyTime m;
     AccessTime := t; Version := Version m |}.

Definition with_ModifyTime (m : Metadata) (t : Time) : Metadata :=
  {| Inode := Inode m; Name := Name m; Type_ := Type_ m; Size := Size m;
     Mode := Mode m; Blocks := Blocks m; Links := Links m; Owner := Owner m;
     Group := Group m; CreateTime := CreateTime m; ModifyTime := t;
     AccessTime := AccessTime m; Version := Version m |}.

Definition with_Version (m : Metadata) (v : Z) : Metadata :=
  {| Inode := Inode m; Name := Name m; Type_ := Type_ m; Size := Size m;
     Mode := Mode m; Blocks := Blocks m; Links := Links m; Owner := Owner m;
     Group := Group m; CreateTime := CreateTime m; ModifyTime := ModifyTime m;
     AccessTime := AccessTime m; Version := v |}.

(** The errors of the directory, one constructor per message
    ([fmt.Errorf] format), carrying the path the message prints. *)
Inductive MetaError :=
  | ParentNotFound (parent : string)      (* parent directory not found: %s *)
  | ParentNotDirectory (parent : string)  (* parent path is not a directory: %s *)
  | FileExists (path : string)            (* file already exists: %s *)
  | DirectoryExists (path : string)       (* directory already exists: %s *)
  | FileNotFound (path : string)          (* file not found: %s *)
  | DirectoryNotFound (path : string)     (* directory not found: %s *)
  | NotADirectory (path : string)         (* path is not a directory: %s *)
  | NilDereference.   (* no error value: the run-time panic of a field
                         access through a nil pointer *)

(** The error kinds of the interface; [RuntimePanic] is none of them,
    it stands for a call that panicked instead of returning. *)
Inductive ErrorKind :=
  NotFound | AlreadyExists | InvalidArgument | IOFailure | RuntimePanic.

Definition MetaError_kind (e : MetaError) : ErrorKind :=
  match e with
  | ParentNotFound _ | FileNotFound _ | DirectoryNotFound _ => NotFound
  | FileExists _ | DirectoryExists _ => AlreadyExists
  | ParentNotDirectory _ | NotADirectory _ => InvalidArgument
  | NilDereference => RuntimePanic
  end.

(** A Go result [(value, error)]. *)
Inductive result (E A : Type) := Ok (a : A) | Err (e : E).
Arguments Ok {E A} a.
Arguments Err {E A} e.

(** A [*Metadata]: the address of a record. *)
Definition ptr := positive.

(** The store and the memory its pointers point into.  [data] and
    [inodes] are the fields of the Go struct: the map holds pointers,
    not records.  [heap] holds the records of the program, those a
    pointer of the map points to and those only a caller holds; a
    pointer outside [heap] is nil.  The [root] field of the Go struct is
    written once and never read. *)
Record MemoryStore := {
  data : gmap string ptr;
  inodes : Z;
  heap : gmap ptr Metadata;
}.

(** The record stored under a key: what the pointer of the map points
    to. *)
Definition entry (s : MemoryStore) (k : string) : option Metadata :=
  data s !! k ≫= λ meta, heap s !! meta.

(** [&Metadata{...}]: a record at an address that was not in use. *)
Definition newMetadata (s : MemoryStore) (m : Metadata) : MemoryStore * ptr :=
  let meta := fresh (dom (heap s)) in
  ({| data := data s; inodes := inodes s; heap := <[meta := m]> (heap s) |},
   meta).

(** [s.inodes++; return s.inodes] *)
Definition nextInode (s : MemoryStore) : MemoryStore * Z :=
  let n := uint64_incr (inodes s) in
  ({| data := data s; inodes := n; heap := heap s |}, n).

(** [NewMemoryStore]; [time.Now()] is read three times. *)
Definition NewMemoryStore (t1 t2 t3 : Time) : MemoryStore :=
  let store := {| data := ∅; inodes := 0; heap := ∅ |} in
  let '(store, ino) := nextInode store in
  let '(store, root) :=
    newMetadata store
      {| Inode := ino; Name := "/"; Type_ := TypeDirectory; Size := 0;
         Mode := 0x1ed (* 0755 *); Blocks := []; Links := 0; Owner := "";
         Group := ""; CreateTime := t1; ModifyTime := t2; AccessTime := t3;
         Version := 1 |} in
  {| data := <["/" := root]> (data store); inodes := inodes store;
     heap := heap store |}.

(** [Create]; the pointer to the new record is stored and returned. *)
Definition Create (s : MemoryStore) (p : string) (mode : Z) (now : Time)
    : MemoryStore * result MetaError ptr :=
  let filePath := normalizePath p in
  let parent := Dir filePath in
  match data s !! parent with
  | None => (s, Err (ParentNotFound parent))
  | Some parentMeta =>
      match heap s !! parentMeta with
      | None => (s, Err NilDereference)
      | Some parentRecord =>
          if bool_decide (Type_ parentRecord ≠ TypeDirectory) then
            (s, Err (ParentNotDirectory parent))
          else
            match data s !! filePath with
            | Some _ => (s, Err (FileExists filePath))
            | None =>
                let '(s, ino) := nextInode s in
                let '(s, meta) :=
                  newMetadata s
                    {| Inode := ino; Name := Base filePath;
                       Type_ := TypeRegular; Size := 0; Mode := mode;
                       Blocks := []; Links := 1; Owner := ""; Group := "";
                       CreateTime := now; ModifyTime := now;
                       AccessTime := now; Version := 1 |} in
                ({| data := <[filePath := meta]> (data s);
                    inodes := inodes s; heap := heap s |}, Ok meta)
            end
      end
  end.

(** [Get]: [AccessTime] is written through the pointer of the map, and
    that pointer is returned. *)
Definition Get (s : MemoryStore) (p : string) (now : Time)
    : MemoryStore * result MetaError ptr :=
  let filePath := normalizePath p in
  match data s !! filePath with
  | None => (s, Err (FileNotFound filePath))
  | Some meta =>
      match heap s !! meta with
      | None => (s, Err NilDereference)
      | Some record =>
          ({| data := data s; inodes := inodes s;
              heap := <[meta := with_AccessTime record now]> (heap s) |},
           Ok meta)
      end
  end.

(** [Update]: [ModifyTime] and [Version] are written through the
    pointer passed in, and that pointer is stored in the map. *)
Definition Update (s : MemoryStore) (p : string) (meta : ptr) (now : Time)
    : MemoryStore * result MetaError unit :=
  let filePath := normalizePath p in
  match data s !! filePath with
  | None => (s, Err (FileNotFound filePath))
  | Some _ =>
      match heap s !! meta with
      | None => (s, Err NilDereference)
      | Some record =>
          let record := with_ModifyTime record now in
          let record := with_Version record (uint64_incr (Version record)) in
          ({| data := <[filePath := meta]> (data s); inodes := inodes s;
              heap := <[meta := record]> (heap s) |}, Ok ())
      end
  end.

(** [Delete] *)
Definition Delete (s : MemoryStore) (p : string)
    : MemoryStore * result MetaError unit :=
  let filePath := normalizePath p in
  match data s !! filePath with
  | None => (s, Err (FileNotFound filePath))
  | Some _ =>
      ({| data := delete filePath (data s); inodes := inodes s;
          heap := heap s |}, Ok ())
  end.

(** A Go [for k, v := range m] visits every entry of [m] once, in an
    order the language leaves open: [order] is any such enumeration. *)
Definition ranges {V} (m : gmap string V) (order : list (string * V)) : Prop :=
  order ≡ₚ map_to_list m.

(** The loop of [List] over the entries in the order [order]. *)
Fixpoint listLoop (dirPath : string) (order : list (string * ptr))
    (results : list ptr) : list ptr :=
  match order with
  | [] => results
  | (p, meta) :: order' =>
      if bool_decide (Dir p = dirPath) && bool_decide (p ≠ dirPath)
      then listLoop dirPath order' (results ++ [meta])
      else listLoop dirPath order' results
  end.

(** [List], for the iteration order [order] of [s.data]; the pointers
    of the map are returned. *)
Definition List (s : MemoryStore) (order : list (string * ptr)) (p : string)
    : result MetaError (list ptr) :=
  let dirPath := normalizePath p in
  match data s !! dirPath with
  | None => Err (DirectoryNotFound dirPath)
  | Some dirMeta =>
      match heap s !! dirMeta with
      | None => Err NilDereference
      | Some dirRecord =>
          if bool_decide (Type_ dirRecord ≠ TypeDirectory) then
            Err (NotADirectory dirPath)
          else Ok (listLoop dirPath order [])
      end
  end.

(** [Mkdir] *)
Definition Mkdir (s : MemoryStore) (p : string) (mode : Z) (now : Time)
    : MemoryStore * result MetaError unit :=
  let dirPath := normalizePath p in
  let parent := Dir dirPath in
  match data s !! parent with
  | None => (s, Err (ParentNotFound parent))
  | Some parentMeta =>
      match heap s !! parentMeta with
      | None => (s, Err NilDereference)
      | Some parentRecord =>
          if bool_decide (Type_ parentRecord ≠ TypeDirectory) then
            (s, Err (ParentNotDirectory parent))
          else
            match data s !! dirPath with
            | Some _ => (s, Err (DirectoryExists dirPath))
            | None =>
                let '(s, ino) := nextInode s in
                let '(s, meta) :=
                  newMetadata s
                    {| Inode := ino; Name := Base dirPath;
                       Type_ := TypeDirectory; Size := 0;
                       Mode := Z.lor mode ModeDir;
                       Blocks := []; Links := 1; Owner := ""; Group := "";
                       CreateTime := now; ModifyTime := now;
                       AccessTime := now; Version := 1 |} in
                ({| data := <[dirPath := meta]> (data s);
                    inodes := inodes s; heap := heap s |}, Ok ())
            end
      end
  end.

(** *** Sequences of calls *)

(** The pointer a caller passes to [Update]: the address of a record it
    has just made ([&Metadata{...}]), or a pointer that is around
    already: one a call of the store returned, or one passed before. *)
Inductive Passed :=
  | Fresh (m : Metadata)
  | Held (meta : ptr).

Inductive Call :=
  | CallCreate (p : string) (mode : Z)
  | CallGet (p : string)
  | CallUpdate (p : string) (meta : Passed)
  | CallDelete (p : string)
  | CallList (p : string)
  | CallMkdir (p : string) (mode : Z).

(** The caller evaluates the pointer it is going to pass. *)
Definition pass (s : MemoryStore) (meta : Passed) : MemoryStore * ptr :=
  match meta with
  | Fresh m => newMetadata s m
  | Held meta => (s, meta)
  end.

(** The store after the call [c] made at time [now]; a call that
    panics leaves it as it was. *)
Definition exec (s : MemoryStore) (c : Call) (now : Time) : MemoryStore :=
  match c with
  | CallCreate p mode => (Create s p mode now).1
  | CallGet p => (Get s p now).1
  | CallUpdate p meta =>
      let '(s, meta) := pass s meta in (Update s p meta now).1
  | CallDelete p => (Delete s p).1
  | CallList p => s
  | CallMkdir p mode => (Mkdir s p mode now).1
  end.

Definition run (s : MemoryStore) (trace : list (Call * Time)) : MemoryStore :=
  fold_left (λ s ct, exec s ct.1 ct.2) trace s.

(** ** The write-back storage cache (storage types and file storage) *)

(** A Go [[]byte]. *)
Definition bytes := list Byte.byte.

Record StorageConfig := {
  RootDir : string;
  SyncInterval : Z;
  FileMode : Z;
  EnableCompression : bool;
}.

(** [DefaultStorageConfig]; the interval is in nanoseconds. *)
Definition DefaultStorageConfig : StorageConfig :=
  {| RootDir := "data/meta"; SyncInterval := 5 * 1000000000;
     FileMode := 0x1a4 (* 0644 *); EnableCompression := false |}.

(** What a call of package [os] may report. *)
Inductive OSError :=
  | ErrNotExist                (* the errors [os.IsNotExist] accepts *)
  | ErrOther (code : Z).       (* any other error *)

Definition IsNotExist (e : OSError) : bool :=
  match e with ErrNotExist => true | ErrOther _ => false end.

(** The calls of package [os] the storage makes, on a host state [D]:
    each returns the new host state and its result.  Nothing is assumed
    about them. *)
Class FileSystem (D : Type) := {
  os_MkdirAll : D → string → Z → D * option OSError;
  os_WriteFile : D → string → bytes → Z → D * option OSError;
  os_ReadFile : D → string → D * result OSError (bytes);
  os_Remove : D → string → D * option OSError;
}.

(** The errors of [validatePath]. *)
Inductive PathError :=
  | EmptyPath            (* empty path is not allowed *)
  | InvalidCharacters    (* path contains invalid characters *)
  | EscapesRoot.         (* path escapes root directory *)

(** The errors of the storage, one constructor per message. *)
Inductive StorageError :=
  | EmptyKey                                    (* empty key is not allowed *)
  | RootKey                                     (* root path is not allowed as key *)
  | InvalidKey (e : PathError)                  (* invalid key: %v *)
  | InvalidKeyWhileSyncing (e : PathError)      (* invalid key while syncing: %v *)
  | KeyNotFound (key : string)                  (* key not found: %s *)
  | FailedToCompress (e : OSError)              (* failed to compress data: %v *)
  | FailedToDecompress (e : OSError)            (* failed to decompress data: %v *)
  | FailedToCreateDirectory (dir : string) (e : OSError)
  | FailedToWriteFile (path : string) (e : OSError)
  | HostError (e : OSError).                    (* an [os] error returned as it is *)

Definition StorageError_kind (e : StorageError) : ErrorKind :=
  match e with
  | EmptyKey | RootKey | InvalidKey _ | InvalidKeyWhileSyncing _ => InvalidArgument
  | KeyNotFound _ => NotFound
  | FailedToCompress _ | FailedToDecompress _ | FailedToCreateDirectory _ _
  | FailedToWriteFile _ _ | HostError _ => IOFailure
  end.

(** The in-memory part of a [FileStorage]: configuration, cache and
    dirty set (the lock and the stop channel carry no data). *)
Record FileStorage := {
  config : StorageConfig;
  cache : gmap string (bytes);
  dirty : gmap string bool;
}.

(** [validatePath] *)
Definition validatePath (cfg : StorageConfig) (path : string) : option PathError :=
  if String.eqb path "" then Some EmptyPath
  else if ContainsByte path nul then Some InvalidCharacters
  else
    let fullPath := filepath_Clean (filepath_Join [RootDir cfg; path]) in
    if negb (HasPrefix fullPath (RootDir cfg)) then Some EscapesRoot
    else None.

(** [keyToPath] *)
Definition keyToPath (cfg : StorageConfig) (key : string)
    : result PathError string :=
  let key := TrimPrefix key "/" in
  match validatePath cfg key with
  | Some e => Err e
  | None => Ok (filepath_Join [RootDir cfg; key])
  end.

(** [CompressData] and [DecompressData]: both branches return the data. *)
Definition CompressData (fs : FileStorage) (data : bytes)
    : result OSError (bytes) :=
  if negb (EnableCompression (config fs)) then Ok data else Ok data.

Definition DecompressData (fs : FileStorage) (data : bytes)
    : result OSError (bytes) :=
  if negb (EnableCompression (config fs)) then Ok data else Ok data.

(** [fs.dirty[key]]: a missing key reads as [false]. *)
Definition isDirty (dirty : gmap string bool) (key : string) : bool :=
  default false (dirty !! key).

Section Storage.

Context {D : Type} `{!FileSystem D}.

(** A storage together with the host it runs on. *)
Record State := {
  storage : FileStorage;
  disk : D;
}.

Definition with_storage (st : State) (cache' : gmap string (bytes))
    (dirty' : gmap string bool) : State :=
  {| storage := {| config := config (storage st); cache := cache';
                   dirty := dirty' |};
     disk := disk st |}.

Definition with_disk (st : State) (d : D) : State :=
  {| storage := storage st; disk := d |}.

(** [Save] *)
Definition Save (st : State) (key : string) (data : bytes)
    : State * option StorageError :=
  let fs := storage st in
  if String.eqb key "" then (st, Some EmptyKey)
  else
    let key := normalizePath key in
    if String.eqb key "/" then (st, Some RootKey)
    else
      match keyToPath (config fs) (TrimPrefix key "/") with
      | Err e => (st, Some (InvalidKey e))
      | Ok _ =>
          let compressed :=
            if EnableCompression (config fs) then
              match CompressData fs data with
              | Err e => Err (FailedToCompress e)
              | Ok compressedData => Ok compressedData
              end
            else Ok data in
          match compressed with
          | Err e => (st, Some e)
          | Ok data =>
              (with_storage st (<[key := data]> (cache fs))
                 (<[key := true]> (dirty fs)), None)
          end
      end.

(** [Load] *)
Definition Load (st : State) (key : string)
    : State * result StorageError (bytes) :=
  let fs := storage st in
  let key := normalizePath key in
  match cache fs !! key with
  | Some data => (st, Ok data)
  | None =>
      match keyToPath (config fs) (TrimPrefix key "/") with
      | Err e => (st, Err (InvalidKey e))
      | Ok path =>
          let '(d, r) := os_ReadFile (disk st) path in
          let st := with_disk st d in
          match r with
          | Err e =>
              if IsNotExist e then (st, Err (KeyNotFound key))
              else (st, Err (HostError e))
          | Ok data =>
              let decompressed :=
                if EnableCompression (config fs) then
                  match DecompressData fs data with
                  | Err e => Err (FailedToDecompress e)
                  | Ok data => Ok data
                  end
                else Ok data in
              match decompressed with
              | Err e => (st, Err e)
              | Ok data =>
                  (with_storage st (<[key := data]> (cache fs)) (dirty fs),
                   Ok data)
              end
          end
      end
  end.

(** [Delete]: the cache and the dirty set are written before the key is
    mapped to its location. *)
Definition StorageDelete (st : State) (key : string)
    : State * option StorageError :=
  let fs := storage st in
  let key := normalizePath key in
  let st := with_storage st (delete key (cache fs)) (<[key := true]> (dirty fs)) in
  match keyToPath (config fs) (TrimPrefix key "/") with
  | Err e => (st, Some (InvalidKey e))
  | Ok path =>
      let '(d, r) := os_Remove (disk st) path in
      let st := with_disk st d in
      match r with
      | Some e => if negb (IsNotExist e) then (st, Some (HostError e)) else (st, None)
      | None => (st, None)
      end
  end.

(** The loop of the storage's [List] over the cache keys. *)
Fixpoint keysLoop (prefix : string) (order : list (string * bytes))
    (keys : list string) : list string :=
  match order with
  | [] => keys
  | (key, _) :: order' =>
      if HasPrefix key prefix then keysLoop prefix order' (keys ++ [key])
      else keysLoop prefix order' keys
  end.

(** [List], for the iteration order [order] of the cache. *)
Definition StorageList (st : State) (order : list (string * bytes))
    (prefix : string) : result StorageError (list string) :=
  let prefix := normalizePath prefix in
  Ok (keysLoop prefix order []).

(** The loop of [Sync]: it ranges over the cache, and returns at the
    first error with what was done so far. *)
Fixpoint syncLoop (cfg : StorageConfig) (order : list (string * bytes))
    (dirty : gmap string bool) (d : D)
    : gmap string bool * D * option StorageError :=
  match order with
  | [] => (dirty, d, None)
  | (key, data) :: order' =>
      if isDirty dirty key then
        match keyToPath cfg (TrimPrefix key "/") with
        | Err e => (dirty, d, Some (InvalidKeyWhileSyncing e))
        | Ok path =>
            let dir := filepath_Dir path in
            let '(d, r) := os_MkdirAll d dir 0x1ed (* 0755 *) in
            match r with
            | Some e => (dirty, d, Some (FailedToCreateDirectory dir e))
            | None =>
                let '(d, r) := os_WriteFile d path data (FileMode cfg) in
                match r with
                | Some e => (dirty, d, Some (FailedToWriteFile path e))
                | None => syncLoop cfg order' (delete key dirty) d
                end
            end
        end
      else syncLoop cfg order' dirty d
  end.

(** [Sync], for the iteration order [order] of the cache. *)
Definition Sync (st : State) (order : list (string * bytes))
    : State * option StorageError :=
  let fs := storage st in
  let '(dirty', d, r) := syncLoop (config fs) order (dirty fs) (disk st) in
  ({| storage := {| config := config fs; cache := cache fs; dirty := dirty' |};
      disk := d |}, r).

End Storage.

Arguments State D : clear implicits.

(** The storage [NewFileStorage] returns for a root directory without
    files: nothing is preloaded. *)
Definition emptyStorage (cfg : StorageConfig) : FileStorage :=
  {| config := cfg; cache := ∅; dirty := ∅ |}.

(** ** More of the file storage *)

(** [filepath.Separator] on the host modelled. *)
Definition Separator : ascii := slash.

(** [pathToKey] *)
Definition pathToKey (cfg : StorageConfig) (path : string) : string :=
  let key := TrimPrefix path (RootDir cfg) in
  let key := TrimPrefix key (String Separator "") in
  "/" +:+ ReplaceAll key Separator slash.

Section StorageMore.

Context {D : Type} `{!FileSystem D}.

(** [Close]: the stop channel is closed and [Sync] is run. *)
Definition Close (st : State D) (order : list (string * bytes))
    : State D * option StorageError :=
  Sync st order.

(** The calls of the storage interface, [Sync] with the order in which
    it ranges over the cache. *)
Inductive StorageCall :=
  | CallSave (key : string) (data : bytes)
  | CallLoad (key : string)
  | CallStorageDelete (key : string)
  | CallSync (order : list (string * bytes)).

Definition storageExec (st : State D) (c : StorageCall) : State D :=
  match c with
  | CallSave key data => (Save st key data).1
  | CallLoad key => (Load st key).1
  | CallStorageDelete key => (StorageDelete st key).1
  | CallSync order => (Sync st order).1
  end.

Definition storageRun (st : State D) (calls : list StorageCall) : State D :=
  fold_left storageExec calls st.

End StorageMore.

(** ** A caller of the metadata directory *)

(** [createParentDirs] of the store's tests: the directories of a path
    are made from the root down, those that exist are left alone.  The
    recursion goes from a path to its parent, [fuel] bounds its depth;
    [nowGet p] and [nowMkdir p] are the readings of the clock in the
    [Get] and in the [Mkdir] of the path [p].  A panic of [Get] or
    [Mkdir] ends the call. *)
Fixpoint createParentDirs (fuel : nat) (s : MemoryStore) (pathStr : string)
    (nowGet nowMkdir : string → Time)
    : option (MemoryStore * option MetaError) :=
  match fuel with
  | O => None
  | S fuel =>
      let pathStr := normalizePath pathStr in
      if String.eqb pathStr "/" then Some (s, None)
      else
        let parent := Dir pathStr in
        let parents :=
          if negb (String.eqb parent "/")
          then createParentDirs fuel s parent nowGet nowMkdir
          else Some (s, None) in
        match parents with
        | None => None
        | Some (s, Some err) => Some (s, Some err)
        | Some (s, None) =>
            match Get s pathStr (nowGet pathStr) with
            | (s, Ok _) => Some (s, None)
            | (s, Err NilDereference) => Some (s, Some NilDereference)
            | (s, Err _) =>
                match Mkdir s pathStr 0x1ed (* 0755 *) (nowMkdir pathStr) with
                | (s, Ok _) => Some (s, None)
                | (s, Err err) => Some (s, Some err)
                end
            end
        end
  end.

(** * Definitions used to state and prove the properties *)

(** ** Path elements *)

Definition noSlash (x : string) : Prop := ContainsByte x slash = false.

(** A proper path element: non-empty, neither [.] nor [..], no slash. *)
Definition proper (x : string) : Prop :=
  x ≠ "" ∧ x ≠ "." ∧ x ≠ ".." ∧ noSlash x.

(** The lexical reading of a rooted path, stated on its elements: the
    elements kept so far form a stack (innermost first); an empty
    element or [.] leaves it alone, [..] drops the innermost element
    and does nothing at the root, any other element is pushed. *)
Definition stepSeg (stack : list string) (x : string) : list string :=
  if String.eqb x "" || String.eqb x "." then stack
  else if String.eqb x ".." then tail stack
  else x :: stack.

Definition resolve (stack segs : list string) : list string :=
  fold_left stepSeg segs stack.

(** The rooted path whose elements are [stack], outermost last. *)
Definition renderS (stack : list string) : string :=
  "/" +:+ Join (rev stack) "/".

(** The elements of a string: what lies between its slashes. *)
Fixpoint segments (s : string) : list string :=
  match s with
  | EmptyString => [EmptyString]
  | String c r =>
      if Ascii.eqb c slash then EmptyString :: segments r
      else match segments r with
           | x :: l => String c x :: l
           | [] => [String c EmptyString]
           end
  end.

Definition tailPath (segs : list string) : string :=
  match segs with [] => "" | _ => "/" +:+ Join segs "/" end.

(** The loop with the fuel [Clean] gives it. *)
Definition cleanRun (rooted : bool) (path : string) (out : lazybuf)
    (dotdot : nat) : lazybuf :=
  cleanLoop (String.length path) rooted path out dotdot.

(** The buffer that holds ["/" + e1 + "/" + ... + "/" + en], for the
    stack [en; ...; e1]. *)
Fixpoint outR (stack : list string) : lazybuf :=
  match stack with
  | [] => [slash]
  | x :: st =>
      rev (list_ascii_of_string x)
      ++ match st with [] => [slash] | _ => slash :: outR st end
  end.

(** The byte [c] does not occur in [x]. *)
Definition lacks (c : ascii) (x : string) : Prop := ContainsByte x c = false.

(** The string [normalizePath] hands to [path.Clean]. *)
Definition rootedInput (p : string) : string :=
  let p := ReplaceAll p backslash slash in
  let p := TrimPrefix p "./" in
  if negb (HasPrefix p "/") then "/" +:+ p else p.

(** An element of a normalized path: proper, and free of backslashes. *)
Definition element (x : string) : Prop := proper x ∧ lacks backslash x.

(** The path up to its last element. *)
Definition parentPrefix (st : list string) : string :=
  match st with [] => "" | _ => renderS st end.

(** ** The metadata directory *)

(** No pointer of the map is nil. *)
Definition valid (s : MemoryStore) : Prop :=
  ∀ k meta, data s !! k = Some meta → is_Some (heap s !! meta).

(** The record behind the pointer a caller passes, at the time of the
    call; there is none behind a nil pointer. *)
Definition passed (s : MemoryStore) (meta : Passed) : option Metadata :=
  match meta with
  | Fresh m => Some m
  | Held meta => heap s !! meta
  end.

(** The store after a write of [record] through the pointer [meta]. *)
Definition written (s : MemoryStore) (meta : ptr) (record : Metadata)
    : MemoryStore :=
  {| data := data s; inodes := inodes s; heap := <[meta := record]> (heap s) |}.

(** The store after [record] was written through [meta] and [meta] was
    put under the key [k]. *)
Definition stored (s : MemoryStore) (k : string) (meta : ptr)
    (record : Metadata) : MemoryStore :=
  {| data := <[k := meta]> (data s); inodes := inodes s;
     heap := <[meta := record]> (heap s) |}.

(** The store after a new record got the next inode and was put under
    the key [k]. *)
Definition created (s : MemoryStore) (k : string) (record : Metadata)
    : MemoryStore :=
  {| data := <[k := fresh (dom (heap s))]> (data s);
     inodes := uint64_incr (inodes s);
     heap := <[fresh (dom (heap s)) := record]> (heap s) |}.

(** The store after the key [k] was taken out of the map. *)
Definition removed (s : MemoryStore) (k : string) : MemoryStore :=
  {| data := delete k (data s); inodes := inodes s; heap := heap s |}.

(** The root entry is present and is a directory. *)
Definition root_ok (s : MemoryStore) : Prop :=
  ∃ m, entry s "/" = Some m ∧ Type_ m = TypeDirectory.

(** Calls that cannot take the root away: every call except a [Delete]
    of the root and an [Update] of the root with a record that is not a
    directory. *)
Definition keeps_root (s : MemoryStore) (c : Call) : Prop :=
  match c with
  | CallDelete p => normalizePath p ≠ "/"
  | CallUpdate p meta =>
      normalizePath p = "/" →
      ∀ m, passed s meta = Some m → Type_ m = TypeDirectory
  | _ => True
  end.

Fixpoint root_preserving (s : MemoryStore) (trace : list (Call * Time)) : Prop :=
  match trace with
  | [] => True
  | (c, now) :: trace' =>
      keeps_root s c ∧ root_preserving (exec s c now) trace'
  end.

(** No two entries carry the same inode. *)
Definition unique_inodes (s : MemoryStore) : Prop :=
  ∀ p1 p2 m1 m2,
    entry s p1 = Some m1 → entry s p2 = Some m2 →
    Inode m1 = Inode m2 → p1 = p2.

(** Every stored inode was handed out by the counter. *)
Definition inodes_bounded (s : MemoryStore) : Prop :=
  ∀ p m, entry s p = Some m → 1 ≤ Inode m ≤ inodes s.

(** An [Update] that leaves the inode of the entry as it is. *)
Definition keeps_inode (s : MemoryStore) (c : Call) : Prop :=
  match c with
  | CallUpdate p meta =>
      ∀ old m, entry s (normalizePath p) = Some old → passed s meta = Some m →
               Inode m = Inode old
  | _ => True
  end.

Fixpoint inode_preserving (s : MemoryStore) (trace : list (Call * Time)) : Prop :=
  match trace with
  | [] => True
  | (c, now) :: trace' =>
      keeps_inode s c ∧ inode_preserving (exec s c now) trace'
  end.

(** The inode a call allocates, if it allocates one: the inode of the
    entry a successful [Create] returns, or a successful [Mkdir] stores. *)
Definition alloc_of (s : MemoryStore) (c : Call) (now : Time) : option Z :=
  match c with
  | CallCreate p mode =>
      match Create s p mode now with
      | (s', Ok meta) => Inode <$> heap s' !! meta
      | (_, Err _) => None
      end
  | CallMkdir p mode =>
      match Mkdir s p mode now with
      | (s', Ok _) => Inode <$> entry s' (normalizePath p)
      | (_, Err _) => None
      end
  | _ => None
  end.

(** The inodes allocated along a sequence of calls, in order. *)
Fixpoint allocated (s : MemoryStore) (trace : list (Call * Time)) : list Z :=
  match trace with
  | [] => []
  | (c, now) :: trace' =>
      match alloc_of s c now with
      | Some i => i :: allocated (exec s c now) trace'
      | None => allocated (exec s c now) trace'
      end
  end.

(** Successive readings of a clock that showed [t] before them. *)
Fixpoint ticks (t : Time) (readings : list Time) : Prop :=
  match readings with
  | [] => True
  | t' :: readings' => t ≤ t' ∧ ticks t' readings'
  end.

(** No entry was modified after [t]. *)
Definition stamps_le (s : MemoryStore) (t : Time) : Prop :=
  ∀ p m, entry s p = Some m → ModifyTime m ≤ t.

(** The entries [List] is to return for [dirPath]. *)
Definition child_of {V} (dirPath : string) (kv : string * V) : Prop :=
  Dir kv.1 = dirPath ∧ kv.1 ≠ dirPath.

Global Instance child_of_dec {V} dirPath (kv : string * V) :
  Decision (child_of dirPath kv).
Proof. unfold child_of. apply _. Defined.

(** ** The storage cache *)

(** The prefix check of [validatePath] fails for the location of [key]. *)
Definition escapesRoot (cfg : StorageConfig) (key : string) : bool :=
  negb (HasPrefix
          (filepath_Clean
             (filepath_Join [RootDir cfg; TrimPrefix (normalizePath key) "/"]))
          (RootDir cfg)).


(** ** Further invariants of the metadata directory *)

(** Every key of the map is a normalized path. *)
Definition keys_normalized (s : MemoryStore) : Prop :=
  ∀ k meta, data s !! k = Some meta → normalizePath k = k.

(** Every entry but the root has its parent in the map, as a directory. *)
Definition parents_ok (s : MemoryStore) : Prop :=
  ∀ k meta, data s !! k = Some meta → k ≠ "/" →
    ∃ pm, entry s (Dir k) = Some pm ∧ Type_ pm = TypeDirectory.

(** No other entry has [k] as its parent. *)
Definition childless (s : MemoryStore) (k : string) : Prop :=
  ∀ q meta, data s !! q = Some meta → q ≠ k → Dir q ≠ k.

(** Calls that cannot orphan an entry: a [Delete] of an entry without
    children, and an [Update] that stores a directory, keeps the type of
    the entry, or addresses an entry without children. *)
Definition keeps_tree (s : MemoryStore) (c : Call) : Prop :=
  match c with
  | CallDelete p => childless s (normalizePath p)
  | CallUpdate p meta =>
      ∀ m, passed s meta = Some m →
        Type_ m = TypeDirectory
        ∨ (∃ old, entry s (normalizePath p) = Some old ∧ Type_ m = Type_ old)
        ∨ childless s (normalizePath p)
  | _ => True
  end.

Fixpoint tree_preserving (s : MemoryStore) (trace : list (Call * Time)) : Prop :=
  match trace with
  | [] => True
  | (c, now) :: trace' =>
      keeps_tree s c ∧ tree_preserving (exec s c now) trace'
  end.

(** The entry [Mkdir] makes for the path element [name]. *)
Definition createdDir (ino : Z) (name : string) (mode : Z) (now : Time)
    : Metadata :=
  {| Inode := ino; Name := name; Type_ := TypeDirectory; Size := 0;
     Mode := Z.lor mode ModeDir; Blocks := []; Links := 1; Owner := "";
     Group := ""; CreateTime := now; ModifyTime := now; AccessTime := now;
     Version := 1 |}.

(** [childless], computed over the entries of the map. *)
Definition childlessb (s : MemoryStore) (k : string) : bool :=
  forallb (λ kv : string * ptr,
             bool_decide (kv.1 = k) || negb (bool_decide (Dir kv.1 = k)))
          (map_to_list (data s)).

(** Two records that differ at most in their access time. *)
Definition same_but_atime (m m' : Metadata) : Prop :=
  ∃ t, m' = with_AccessTime m t.

(** ** Relative paths *)

(** The buffer that holds [e1 + "/" + ... + "/" + en], for the stack
    [en; ...; e1]. *)
Fixpoint outU (stack : list string) : lazybuf :=
  match stack with
  | [] => []
  | x :: st =>
      rev (list_ascii_of_string x)
      ++ match st with [] => [] | _ => slash :: outU st end
  end.

(** The elements [path.Clean] keeps of a relative path without [..]. *)
Definition keptU (x : string) : bool :=
  negb (String.eqb x "" || String.eqb x ".").

Definition stepSegU (stack : list string) (x : string) : list string :=
  if keptU x then x :: stack else stack.

(** ** Root directories *)

(** A root directory given as a cleaned absolute path. *)
Definition absoluteRoot (root : string) : Prop :=
  ∃ stack, Forall proper stack ∧ root = renderS stack.

(** A root directory given as a cleaned relative path that does not
    climb, such as [data/meta]. *)
Definition relativeRoot (root : string) : Prop :=
  ∃ segs, segs ≠ [] ∧ Forall proper segs ∧ root = Join segs "/".

Definition cleanedRoot (cfg : StorageConfig) : Prop :=
  absoluteRoot (RootDir cfg) ∨ relativeRoot (RootDir cfg).

(** A root directory written with a leading [./], such as [./data]. *)
Definition dottedRoot (cfg : StorageConfig) : Prop :=
  ∃ segs, segs ≠ [] ∧ Forall proper segs
          ∧ RootDir cfg = "./" +:+ Join segs "/".

(** The location of a normalized key under the root. *)
Definition location (cfg : StorageConfig) (key : string) : string :=
  if String.eqb (RootDir cfg) "/" then key else RootDir cfg +:+ key.

(** ** Hosts *)

(** What the host shows at a location. *)
Definition content {D : Type} `{!FileSystem D} (d : D) (path : string)
    : result OSError bytes :=
  (os_ReadFile d path).2.

(** A host on which locations are independent files: a file reads back
    as it was last written, writing a file leaves the other files
    alone, making directories leaves the contents of the files as they
    are, a removed or missing file is reported as missing, removing a
    file leaves the other files alone, and reading changes nothing. *)
Class LawfulFileSystem (D : Type) `{!FileSystem D} : Prop := {
  read_after_write (d : D) path data mode d' :
    os_WriteFile d path data mode = (d', None) → content d' path = Ok data;
  read_other_write (d : D) path data mode d' r path' :
    os_WriteFile d path data mode = (d', r) → path' ≠ path →
    content d' path' = content d path';
  read_after_mkdir (d : D) dir mode d' r path data :
    os_MkdirAll d dir mode = (d', r) →
    content d path = Ok data → content d' path = Ok data;
  read_after_remove (d : D) path d' r :
    os_Remove d path = (d', r) →
    (r = None ∨ ∃ e, r = Some e ∧ IsNotExist e = true) →
    ∃ e, content d' path = Err e ∧ IsNotExist e = true;
  read_other_remove (d : D) path d' r path' :
    os_Remove d path = (d', r) → path' ≠ path →
    content d' path' = content d path';
  read_after_read (d : D) path path' :
    content (os_ReadFile d path).1 path' = content d path';
}.

(** Every cached key has a location. *)
Definition cache_valid (fs : FileStorage) : Prop :=
  ∀ k data, cache fs !! k = Some data →
    ∃ path, keyToPath (config fs) (TrimPrefix k "/") = Ok path.

(** No two cached keys share a location. *)
Definition locations_distinct (fs : FileStorage) : Prop :=
  ∀ k1 k2 d1 d2 path,
    cache fs !! k1 = Some d1 → cache fs !! k2 = Some d2 →
    keyToPath (config fs) (TrimPrefix k1 "/") = Ok path →
    keyToPath (config fs) (TrimPrefix k2 "/") = Ok path →
    k1 = k2.

(** ** Sessions of the storage *)

Section Sessions.

Context {D : Type} `{!FileSystem D}.

(** A storage opened on a root directory without files, on the host
    state [d]. *)
Definition newState (cfg : StorageConfig) (d : D) : State D :=
  {| storage := emptyStorage cfg; disk := d |}.

(** Every [Sync] of the run is given an order in which its loop may
    range over the cache of that moment. *)
Fixpoint orders_ok (st : State D) (calls : list StorageCall) : Prop :=
  match calls with
  | [] => True
  | c :: calls' =>
      match c with
      | CallSync order => ranges (cache (storage st)) order
      | _ => True
      end
      ∧ orders_ok (storageExec st c) calls'
  end.

(** The cached keys are normalized keys other than the root, each with
    its location under the root. *)
Definition keys_located (fs : FileStorage) : Prop :=
  ∀ k data, cache fs !! k = Some data →
    normalizePath k = k ∧ k ≠ "/"
    ∧ keyToPath (config fs) (TrimPrefix k "/") = Ok (location (config fs) k).

(** The host holds the bytes of every cached key that is not dirty. *)
Definition coherent (st : State D) : Prop :=
  ∀ k data, cache (storage st) !! k = Some data →
    isDirty (dirty (storage st)) k = false →
    content (disk st) (location (config (storage st)) k) = Ok data.

End Sessions.

(** ** Concrete inputs *)

(** A record of type Regular, as a caller may pass it to [Update]. *)
Definition sampleRegular (inode version : Z) : Metadata :=
  {| Inode := inode; Name := "x"; Type_ := TypeRegular; Size := 0;
     Mode := 0x1a4 (* 0644 *); Blocks := []; Links := 1; Owner := ""; Group := "";
     CreateTime := 0; ModifyTime := 0; AccessTime := 0; Version := version |}.

(** The record [Update] stores for [meta] at time [now]. *)
Definition updated (meta : Metadata) (now : Time) : Metadata :=
  {| Inode := Inode meta; Name := Name meta; Type_ := Type_ meta;
     Size := Size meta; Mode := Mode meta; Blocks := Blocks meta;
     Links := Links meta; Owner := Owner meta; Group := Group meta;
     CreateTime := CreateTime meta; ModifyTime := now;
     AccessTime := AccessTime meta;
     Version := uint64_incr (Version meta) |}.

(** The entry [Create] makes for the path element [name]. *)
Definition createdFile (ino : Z) (name : string) (mode : Z) (now : Time)
    : Metadata :=
  {| Inode := ino; Name := name; Type_ := TypeRegular; Size := 0;
     Mode := mode; Blocks := []; Links := 1; Owner := ""; Group := "";
     CreateTime := now; ModifyTime := now; AccessTime := now; Version := 1 |}.

(** A host that keeps files in a map from location to contents, on which
    no call fails except reading or removing a file that is not there. *)
Global Instance MemDisk : FileSystem (gmap string bytes) := {|
  os_MkdirAll d _ _ := (d, None);
  os_WriteFile d path data _ := (<[path := data]> d, None);
  os_ReadFile d path :=
    (d, match d !! path with Some data => Ok data | None => Err ErrNotExist end);
  os_Remove d path :=
    match d !! path with
    | Some _ => (delete path d, None)
    | None => (d, Some ErrNotExist)
    end;
|}.

(** A new storage with the default configuration on an empty host. *)
Definition freshState : State (gmap string bytes) :=
  {| storage := emptyStorage DefaultStorageConfig; disk := ∅ |}.

(** The bytes of ["Hello"]. *)
Definition hello : bytes := [Byte.x48; Byte.x65; Byte.x6c; Byte.x6c; Byte.x6f].

(** The key ["a\x00"]: an [a] followed by a null byte. *)
Definition nulKey : string := String "a"%char (String nul "").

(** A configuration whose root directory is written with a leading
    [./]. *)
Definition dottedConfig : StorageConfig :=
  {| RootDir := "./data"; SyncInterval := 5 * 1000000000;
     FileMode := 0x1a4 (* 0644 *); EnableCompression := false |}.

(** A host without space left: directories can be made, every write
    fails, and there is no file to read or remove. *)
Definition ENOSPC : OSError := ErrOther 28.

Global Instance FullDisk : FileSystem unit := {|
  os_MkdirAll d _ _ := (d, None);
  os_WriteFile d _ _ _ := (d, Some ENOSPC);
  os_ReadFile d _ := (d, Err ErrNotExist);
  os_Remove d _ := (d, Some ErrNotExist);
|}.

(** ** Byte-level facts about strings *)

Section StringFacts.

Lemma app_String c (a b : string) : String c a +:+ b = String c (a +:+ b).
Proof. reflexivity. Qed.

Lemma app_empty_l (a : string) : "" +:+ a = a.
Proof. reflexivity. Qed.

Lemma app_empty_r (a : string) : a +:+ "" = a.
Proof. induction a as [|c a IH]; [done|]. by rewrite app_String, IH. Qed.

Lemma app_assoc_s (a b c : string) : (a +:+ b) +:+ c = a +:+ (b +:+ c).
Proof. induction a as [|x a IH]; [done|]. by rewrite !app_String, IH. Qed.

Lemma length_app_s (a b : string) :
  String.length (a +:+ b) = (String.length a + String.length b)%nat.
Proof. induction a as [|x a IH]; [done|]. rewrite app_String. simpl. by rewrite IH. Qed.

Lemma string_of_list_ascii_app (l1 l2 : list ascii) :
  string_of_list_ascii (l1 ++ l2)
  = string_of_list_ascii l1 +:+ string_of_list_ascii l2.
Proof. induction l1 as [|x l1 IH]; [done|]. simpl. by rewrite IH. Qed.

Lemma ContainsByte_app (a b : string) c :
  ContainsByte (a +:+ b) c = ContainsByte a c || ContainsByte b c.
Proof.
  induction a as [|x a IH]; [done|].
  rewrite app_String. simpl. rewrite IH. by rewrite orb_assoc.
Qed.

Lemma eqb_slash_dot : Ascii.eqb slash dot = false.
Proof. reflexivity. Qed.

End StringFacts.

(** ** [path.Clean] on rooted paths, element by element *)

Section CleanRooted.

Lemma Join_cons x segs : Join (x :: segs) "/" = x +:+ tailPath segs.
Proof. destruct segs; simpl; [by rewrite app_empty_r | done]. Qed.

Lemma Join_snoc segs x :
  segs ≠ [] → Join (segs ++ [x]) "/" = Join segs "/" +:+ "/" +:+ x.
Proof.
  induction segs as [|y segs IH]; [done|]. intros _.
  destruct segs as [|z segs]; [done|].
  change (y +:+ "/" +:+ Join ((z :: segs) ++ [x]) "/"
          = (y +:+ "/" +:+ Join (z :: segs) "/") +:+ "/" +:+ x).
  rewrite IH by done. by rewrite !app_assoc_s.
Qed.

Lemma segments_nonempty s : segments s ≠ [].
Proof. destruct s as [|c r]; simpl; [done|]. destruct (Ascii.eqb c slash); [done|]. by destruct (segments r). Qed.

Lemma tailPath_nonempty segs :
  segs ≠ [] → tailPath segs = String slash (Join segs "/").
Proof. by destruct segs. Qed.

Lemma Join_segments s : Join (segments s) "/" = s.
Proof.
  induction s as [|c r IH]; [done|]. simpl.
  destruct (Ascii.eqb_spec c slash) as [->|Hc].
  - rewrite Join_cons, tailPath_nonempty by apply segments_nonempty.
    by rewrite IH.
  - pose proof (segments_nonempty r) as Hne.
    destruct (segments r) as [|x l]; [done|].
    rewrite Join_cons in *. by rewrite app_String, IH.
Qed.

Lemma segments_noSlash s : Forall noSlash (segments s).
Proof.
  induction s as [|c r IH]; simpl; [by constructor|].
  destruct (Ascii.eqb_spec c slash) as [->|Hc]; [by constructor|].
  destruct (segments r) as [|x l]; [constructor; [|done]|].
  - unfold noSlash. simpl. by rewrite (proj2 (Ascii.eqb_neq _ _) Hc).
  - inversion IH; subst. constructor; [|done].
    unfold noSlash in *. simpl. by rewrite (proj2 (Ascii.eqb_neq _ _) Hc).
Qed.

(** *** The loop never runs out of fuel *)

Lemma slice_from_length n s :
  (String.length (slice_from n s) ≤ String.length s)%nat.
Proof.
  revert s; induction n as [|n IH]; intros [|c s]; simpl; try lia.
  specialize (IH s). lia.
Qed.

Lemma copyElem_length path out :
  (String.length (copyElem path out).1 ≤ String.length path)%nat.
Proof.
  revert out; induction path as [|c rest IH]; intros out; simpl; [lia|].
  destruct (Ascii.eqb c slash); simpl; [lia|]. specialize (IH (c :: out)). lia.
Qed.

Lemma cleanStep_length rooted c rest out dotdot :
  (String.length (cleanStep rooted c rest out dotdot).1.1
   ≤ String.length rest)%nat.
Proof.
  unfold cleanStep.
  destruct (Ascii.eqb c slash) eqn:Hc; [simpl; lia|].
  destruct (Ascii.eqb c dot && elemEnd rest); [simpl; lia|].
  destruct (Ascii.eqb c dot && _).
  - pose proof (slice_from_length 1 rest).
    destruct (_ <? _)%nat; [done|]. by destruct (negb rooted).
  - set (out1 := if _ : bool then slash :: out else out).
    destruct (copyElem (String c rest) out1) as [rest' out2] eqn:E.
    simpl in E. rewrite Hc in E.
    pose proof (copyElem_length rest (c :: out1)) as H'.
    rewrite E in H'. done.
Qed.

Lemma cleanLoop_fuel fuel1 fuel2 rooted path out dotdot :
  (String.length path ≤ fuel1)%nat → (String.length path ≤ fuel2)%nat →
  cleanLoop fuel1 rooted path out dotdot
  = cleanLoop fuel2 rooted path out dotdot.
Proof.
  revert fuel2 path out dotdot.
  induction fuel1 as [|fuel1 IH]; intros fuel2 path out dotdot H1 H2.
  - destruct path; simpl in *; [by destruct fuel2 | lia].
  - destruct path as [|c rest]; [by destruct fuel2|].
    destruct fuel2 as [|fuel2]; [simpl in *; lia|]. simpl cleanLoop.
    pose proof (cleanStep_length rooted c rest out dotdot) as Hlen.
    destruct (cleanStep rooted c rest out dotdot) as [[path' out'] dotdot'].
    simpl in *. apply IH; lia.
Qed.

Lemma cleanRun_empty rooted out dotdot : cleanRun rooted "" out dotdot = out.
Proof. reflexivity. Qed.

Lemma cleanRun_String rooted c rest out dotdot :
  cleanRun rooted (String c rest) out dotdot
  = let '(path', out', dotdot') := cleanStep rooted c rest out dotdot in
    cleanRun rooted path' out' dotdot'.
Proof.
  unfold cleanRun. simpl cleanLoop.
  pose proof (cleanStep_length rooted c rest out dotdot) as Hlen.
  destruct (cleanStep rooted c rest out dotdot) as [[path' out'] dotdot'].
  simpl in Hlen. by apply cleanLoop_fuel.
Qed.

Lemma list_ascii_nonempty x : x ≠ "" → list_ascii_of_string x ≠ [].
Proof. by destruct x. Qed.

Lemma outR_length stack :
  Forall proper stack → (length (outR stack) =? 1)%nat = bool_decide (stack = []).
Proof.
  destruct stack as [|x st]; [done|]. intros H.
  inversion H as [|? ? [Hx _] _]; subst.
  rewrite bool_decide_eq_false_2 by done. apply Nat.eqb_neq.
  simpl. rewrite length_app, length_rev.
  destruct x; [done|]. destruct st; simpl; lia.
Qed.

Lemma outR_length_pos stack : (1 ≤ length (outR stack))%nat.
Proof. destruct stack as [|x [|y st]]; simpl; [lia|..]; rewrite length_app; simpl; lia. Qed.

Lemma noSlash_bytes x :
  noSlash x → Forall (λ c, c ≠ slash) (list_ascii_of_string x).
Proof.
  unfold noSlash. induction x as [|c x IH]; simpl; [by constructor|].
  intros [Hc Hx]%orb_false_elim. constructor; [|by apply IH].
  by apply Ascii.eqb_neq.
Qed.

Lemma backtrack_cons c out dotdot :
  backtrack (c :: out) dotdot
  = if (dotdot <? length out)%nat && negb (Ascii.eqb c slash)
    then backtrack out dotdot else out.
Proof. reflexivity. Qed.

Lemma backtrack_last (l : list ascii) :
  Forall (λ c, c ≠ slash) l → l ≠ [] →
  backtrack (l ++ [slash]) 1 = [slash].
Proof.
  induction l as [|c l IH]; [done|]. intros Hl _.
  inversion Hl as [|? ? Hc Hl']; subst.
  destruct l as [|d l]; [done|].
  rewrite <- app_comm_cons, backtrack_cons.
  rewrite (proj2 (Ascii.eqb_neq _ _) Hc).
  replace (1 <? length ((d :: l) ++ [slash]))%nat with true
    by (symmetry; apply Nat.ltb_lt; rewrite length_app; simpl; lia).
  by apply IH.
Qed.

Lemma backtrack_inner (l B : list ascii) :
  Forall (λ c, c ≠ slash) l → l ≠ [] → (1 ≤ length B)%nat →
  backtrack (l ++ slash :: B) 1 = B.
Proof.
  induction l as [|c l IH]; [done|]. intros Hl _ HB.
  inversion Hl as [|? ? Hc Hl']; subst.
  rewrite <- app_comm_cons, backtrack_cons.
  rewrite (proj2 (Ascii.eqb_neq _ _) Hc).
  replace (1 <? length (l ++ slash :: B))%nat with true
    by (symmetry; apply Nat.ltb_lt; rewrite length_app; simpl; lia).
  destruct l as [|d l]; [|by apply IH].
  simpl app. rewrite backtrack_cons. by rewrite andb_false_r.
Qed.

Lemma backtrack_outR x st :
  proper x → backtrack (outR (x :: st)) 1 = outR st.
Proof.
  intros (Hne & _ & _ & Hns). simpl outR.
  assert (rev (list_ascii_of_string x) ≠ []) as Hne'.
  { intros E%(f_equal (@length _)). rewrite length_rev in E.
    by destruct x. }
  assert (Forall (λ c, c ≠ slash) (rev (list_ascii_of_string x))) as Hns'.
  { apply Forall_rev. by apply noSlash_bytes. }
  destruct st as [|y st]; [by apply backtrack_last|].
  apply backtrack_inner; [done..|]. apply outR_length_pos.
Qed.

(** *** One path element at a time *)

Lemma copyElem_app x r out :
  noSlash x → elemEnd r = true →
  copyElem (x +:+ r) out = (r, rev (list_ascii_of_string x) ++ out).
Proof.
  unfold noSlash. revert out.
  induction x as [|c x IH]; intros out Hx Hr.
  - rewrite app_empty_l. destruct r as [|d r]; [done|].
    simpl in *. by rewrite Hr.
  - simpl in Hx. apply orb_false_elim in Hx as [Hc Hx].
    rewrite app_String. simpl. rewrite Hc, IH by done.
    by rewrite <- app_assoc.
Qed.

Lemma elemEnd_app_noSlash x r :
  noSlash x → x ≠ "" → elemEnd (x +:+ r) = false.
Proof.
  unfold noSlash. destruct x as [|c x]; [done|]. simpl.
  by intros [Hc _]%orb_false_elim _.
Qed.

Lemma stepSeg_proper stack x :
  noSlash x → Forall proper stack → Forall proper (stepSeg stack x).
Proof.
  intros Hx Hst. unfold stepSeg.
  destruct (String.eqb_spec x ""), (String.eqb_spec x "."); simpl; try done.
  destruct (String.eqb_spec x "..").
  - destruct stack; [done|]. by inversion Hst.
  - by constructor.
Qed.

Lemma stepSeg_push stack x :
  x ≠ "" → x ≠ "." → x ≠ ".." → stepSeg stack x = x :: stack.
Proof.
  intros H1 H2 H3. unfold stepSeg.
  by rewrite (proj2 (String.eqb_neq _ _) H1), (proj2 (String.eqb_neq _ _) H2),
    (proj2 (String.eqb_neq _ _) H3).
Qed.

Lemma outR_push x stack :
  rev (list_ascii_of_string x)
  ++ (if negb (bool_decide (stack = [])) || false
      then slash :: outR stack else outR stack)
  = outR (x :: stack).
Proof. by destruct stack. Qed.

Lemma cleanStep_rooted c x r stack :
  noSlash (String c x) → elemEnd r = true → Forall proper stack →
  cleanStep true c (x +:+ r) (outR stack) 1
  = (r, outR (stepSeg stack (String c x)), 1%nat).
Proof.
  intros Hns Hr Hst. pose proof Hns as Hns'.
  unfold noSlash in Hns'. simpl in Hns'.
  apply orb_false_elim in Hns' as [Hc Hx].
  unfold cleanStep. rewrite Hc.
  destruct (Ascii.eqb_spec c dot) as [->|Hdot].
  - (* the element starts with a dot *)
    destruct x as [|d x].
    { (* "." *) rewrite app_empty_l, Hr. done. }
    rewrite app_String. simpl in Hx. apply orb_false_elim in Hx as [Hd Hx].
    simpl elemEnd. rewrite Hd. simpl andb.
    destruct (Ascii.eqb_spec d dot) as [->|Hdot2].
    + destruct x as [|e x].
      { (* ".." *)
        rewrite app_empty_l, Hr. simpl andb. simpl slice_from.
        unfold stepSeg. simpl String.eqb.
        destruct stack as [|y st].
        - done.
        - inversion Hst; subst.
          replace (1 <? length (outR (y :: st)))%nat with true.
          + by rewrite backtrack_outR.
          + symmetry. apply Nat.ltb_lt.
            pose proof (outR_length (y :: st) Hst) as Hl.
            rewrite bool_decide_eq_false_2 in Hl by done.
            apply Nat.eqb_neq in Hl.
            pose proof (outR_length_pos (y :: st)). lia. }
      rewrite app_String. simpl in Hx. apply orb_false_elim in Hx as [He Hx].
      simpl elemEnd. rewrite He. simpl andb.
      rewrite outR_length by done.
      change (String dot (String dot (String e (x +:+ r))))
        with (String dot (String dot (String e x)) +:+ r).
      rewrite copyElem_app, stepSeg_push, outR_push by done. done.
    + simpl andb. cbv iota.
      rewrite outR_length by done.
      change (String dot (String d (x +:+ r)))
        with (String dot (String d x) +:+ r).
      rewrite copyElem_app, stepSeg_push, outR_push; try done.
      intros [= ->]. done.
  - simpl andb. cbv iota.
    rewrite outR_length by done.
    change (String c (x +:+ r)) with (String c x +:+ r).
    rewrite copyElem_app, stepSeg_push, outR_push; try done.
    + intros [= -> _]. done.
    + intros [= -> _]. done.
Qed.

Lemma cleanRun_seg x r stack :
  noSlash x → elemEnd r = true → Forall proper stack →
  cleanRun true (x +:+ r) (outR stack) 1
  = cleanRun true r (outR (stepSeg stack x)) 1.
Proof.
  intros Hx Hr Hst. destruct x as [|c x]; [done|].
  rewrite app_String, cleanRun_String. by rewrite cleanStep_rooted.
Qed.

Lemma elemEnd_tailPath segs : elemEnd (tailPath segs) = true.
Proof. by destruct segs. Qed.

Lemma cleanRun_tailPath segs out :
  cleanRun true (tailPath segs) out 1 = cleanRun true (Join segs "/") out 1.
Proof.
  destruct segs as [|x segs]; [done|].
  rewrite tailPath_nonempty by done. by rewrite cleanRun_String.
Qed.

(** The loop on a rooted path computes [resolve] on its elements. *)
Lemma cleanRun_segs segs :
  Forall noSlash segs → ∀ stack, Forall proper stack →
  cleanRun true (Join segs "/") (outR stack) 1 = outR (resolve stack segs).
Proof.
  induction 1 as [|x segs Hx Hsegs IH]; intros stack Hst; [done|].
  rewrite Join_cons, cleanRun_seg by (done || apply elemEnd_tailPath).
  rewrite cleanRun_tailPath. rewrite IH by by apply stepSeg_proper.
  done.
Qed.

Lemma resolve_proper segs :
  Forall noSlash segs → ∀ stack, Forall proper stack →
  Forall proper (resolve stack segs).
Proof.
  induction 1 as [|x segs Hx Hsegs IH]; intros stack Hst; [done|].
  simpl. apply IH. by apply stepSeg_proper.
Qed.

Lemma buf_string_outR stack : buf_string (outR stack) = renderS stack.
Proof.
  unfold renderS, buf_string.
  induction stack as [|x st IH]; [done|].
  simpl outR. rewrite rev_app_distr, rev_involutive, string_of_list_ascii_app.
  rewrite string_of_list_ascii_of_string.
  destruct st as [|y st]; [done|].
  change (rev (slash :: outR (y :: st))) with (rev (outR (y :: st)) ++ [slash]).
  rewrite string_of_list_ascii_app, IH.
  change (rev (x :: y :: st)) with (rev (y :: st) ++ [x]).
  rewrite Join_snoc. 2:{ simpl. by destruct (rev st). }
  by rewrite !app_assoc_s.
Qed.

Theorem Clean_rooted_segs segs :
  Forall noSlash segs →
  Clean ("/" +:+ Join segs "/") = renderS (resolve [] segs).
Proof.
  intros Hsegs. unfold Clean.
  change ("/" +:+ Join segs "/") with (String slash (Join segs "/")).
  cbv beta iota zeta. rewrite Ascii.eqb_refl.
  rewrite (cleanLoop_fuel _ (String.length (Join segs "/"))) by (simpl; lia).
  fold (cleanRun true (Join segs "/") [slash] 1).
  change [slash] with (outR []). rewrite cleanRun_segs by done.
  pose proof (outR_length_pos (resolve [] segs)).
  destruct (Nat.eqb_spec (length (outR (resolve [] segs))) 0); [lia|].
  apply buf_string_outR.
Qed.

Corollary Clean_rooted s :
  Clean (String slash s) = renderS (resolve [] (segments s)).
Proof.
  rewrite <- (Join_segments s) at 1.
  apply (Clean_rooted_segs (segments s)), segments_noSlash.
Qed.

End CleanRooted.

(** ** [normalizePath] as a function of path elements *)

Section NormalizeFacts.

Local Arguments Ascii.eqb : simpl never.

Lemma rootedInput_rooted p : ∃ s, rootedInput p = String slash s.
Proof.
  unfold rootedInput.
  destruct (HasPrefix (TrimPrefix _ _) "/") eqn:E; simpl; [|by eexists].
  destruct (TrimPrefix _ _) as [|c s]; [done|].
  change (Ascii.eqb slash c && HasPrefix s "" = true) in E.
  apply andb_true_iff in E as [E _]. apply Ascii.eqb_eq in E as <-.
  by eexists.
Qed.

Lemma renderS_rooted stack : ∃ s, renderS stack = String slash s.
Proof. by eexists. Qed.

Lemma normalizePath_Clean p :
  normalizePath p = Clean (rootedInput p).
Proof.
  unfold normalizePath. fold (rootedInput p).
  destruct (rootedInput_rooted p) as [s ->].
  rewrite Clean_rooted. by destruct (renderS_rooted (resolve [] (segments s))) as [t ->].
Qed.

(** *** Bytes are preserved *)

Lemma lacks_slice_from c n s : lacks c s → lacks c (slice_from n s).
Proof.
  unfold lacks. revert s; induction n as [|n IH]; intros [|d s]; simpl; try done.
  intros [_ H]%orb_false_elim. by apply IH.
Qed.

Lemma lacks_TrimPrefix c s pre : lacks c s → lacks c (TrimPrefix s pre).
Proof. unfold TrimPrefix. destruct (HasPrefix s pre); [apply lacks_slice_from|done]. Qed.

Lemma lacks_ReplaceAll_old s old new :
  old ≠ new → lacks old (ReplaceAll s old new).
Proof.
  intros Hne. unfold lacks. induction s as [|c s IH]; [done|]. simpl.
  rewrite IH, orb_false_r.
  destruct (Ascii.eqb_spec c old) as [->|Hc].
  - apply Ascii.eqb_neq. congruence.
  - by apply Ascii.eqb_neq.
Qed.


Lemma ReplaceAll_lacks s old new : lacks old s → ReplaceAll s old new = s.
Proof.
  unfold lacks. induction s as [|c s IH]; [done|]. simpl.
  intros [Hc Hs]%orb_false_elim. by rewrite Hc, IH.
Qed.

Lemma lacks_Join c segs :
  c ≠ slash → (lacks c (Join segs "/") ↔ Forall (lacks c) segs).
Proof.
  intros Hc. induction segs as [|x segs IH]; [done|].
  rewrite Join_cons, Forall_cons. unfold lacks at 1.
  rewrite ContainsByte_app, orb_false_iff. fold (lacks c x).
  destruct segs as [|y segs].
  { split; intros [? _]; split; done. }
  rewrite <- IH. rewrite tailPath_nonempty by done. unfold lacks.
  change (ContainsByte (String slash ?s) c)
    with (Ascii.eqb slash c || ContainsByte s c).
  by rewrite (proj2 (Ascii.eqb_neq _ _) (not_eq_sym Hc)).
Qed.

Lemma stepSeg_Forall (P : string → Prop) stack x :
  P x → Forall P stack → Forall P (stepSeg stack x).
Proof.
  intros Hx Hst. unfold stepSeg.
  destruct (_ || _); [done|]. destruct (String.eqb x "..").
  - destruct stack; [done|]. by inversion Hst.
  - by constructor.
Qed.

Lemma resolve_Forall (P : string → Prop) segs :
  Forall P segs → ∀ stack, Forall P stack → Forall P (resolve stack segs).
Proof.
  induction 1 as [|x segs Hx Hsegs IH]; intros stack Hst; [done|].
  simpl. apply IH. by apply stepSeg_Forall.
Qed.

Lemma eqb_slash_ne c : c ≠ slash → Ascii.eqb "/"%char c = false.
Proof. intros Hc. apply Ascii.eqb_neq. by apply not_eq_sym. Qed.

Lemma lacks_renderS c stack :
  c ≠ slash → Forall (lacks c) stack → lacks c (renderS stack).
Proof.
  intros Hc Hst. unfold renderS, lacks.
  rewrite ContainsByte_app. simpl.
  rewrite eqb_slash_ne by done. simpl.
  apply lacks_Join; [done|]. by apply Forall_rev.
Qed.


Lemma lacks_backslash_rootedInput p : lacks backslash (rootedInput p).
Proof.
  unfold rootedInput.
  assert (lacks backslash (TrimPrefix (ReplaceAll p backslash slash) "./")) as H.
  { by apply lacks_TrimPrefix, lacks_ReplaceAll_old. }
  destruct (negb _); [|done]. unfold lacks. by rewrite ContainsByte_app.
Qed.

Lemma element_proper stack : Forall element stack → Forall proper stack.
Proof. intros H. eapply Forall_impl; [exact H|]. by intros x [? _]. Qed.

Lemma normalizePath_resolve p :
  ∃ s, rootedInput p = String slash s
       ∧ normalizePath p = renderS (resolve [] (segments s)).
Proof.
  destruct (rootedInput_rooted p) as [s Hs]. exists s. split; [done|].
  by rewrite normalizePath_Clean, Hs, Clean_rooted.
Qed.

Lemma normalizePath_elements p :
  ∃ stack, Forall element stack ∧ normalizePath p = renderS stack.
Proof.
  destruct (normalizePath_resolve p) as (s & Hs & ->).
  eexists; split; [|done]. apply Forall_and; split.
  - apply resolve_proper; [apply segments_noSlash | done].
  - apply resolve_Forall; [|done].
    apply lacks_Join; [done|]. rewrite Join_segments.
    pose proof (lacks_backslash_rootedInput p) as H. rewrite Hs in H.
    unfold lacks in *. simpl in H. done.
Qed.


Lemma resolve_proper_segs segs :
  Forall proper segs → ∀ stack, resolve stack segs = rev segs ++ stack.
Proof.
  induction 1 as [|x segs (H1 & H2 & H3 & _) Hsegs IH]; intros stack; [done|].
  simpl. rewrite stepSeg_push, IH by done. by rewrite <- app_assoc.
Qed.

Lemma Clean_renderS stack :
  Forall proper stack → Clean (renderS stack) = renderS stack.
Proof.
  intros Hst. unfold renderS at 1. rewrite Clean_rooted_segs.
  - rewrite resolve_proper_segs by by apply Forall_rev.
    by rewrite rev_involutive, app_nil_r.
  - apply Forall_rev. eapply Forall_impl; [exact Hst|].
    by intros x (_ & _ & _ & ?).
Qed.

Lemma normalizePath_renderS stack :
  Forall element stack → normalizePath (renderS stack) = renderS stack.
Proof.
  intros Hst. rewrite normalizePath_Clean. unfold rootedInput.
  rewrite ReplaceAll_lacks.
  - change (TrimPrefix (renderS stack) "./") with (renderS stack).
    change (negb (HasPrefix (renderS stack) "/")) with false.
    cbv iota. by apply Clean_renderS, element_proper.
  - apply lacks_renderS; [done|]. eapply Forall_impl; [exact Hst|].
    by intros x [_ ?].
Qed.

Lemma normalizePath_idem p : normalizePath (normalizePath p) = normalizePath p.
Proof.
  destruct (normalizePath_elements p) as (stack & Hst & ->).
  by apply normalizePath_renderS.
Qed.

End NormalizeFacts.

(** ** [path.Dir] and [path.Base] of a normalized path *)

Section DirBase.

Local Arguments Ascii.eqb : simpl never.

Lemma LastIndexByte_noSlash x : noSlash x → LastIndexByte x slash = -1.
Proof.
  unfold noSlash. induction x as [|c x IH]; [done|]. simpl.
  intros [Hc Hx]%orb_false_elim. by rewrite IH, Hc.
Qed.

Lemma LastIndexByte_app_slash a x :
  noSlash x →
  LastIndexByte (a +:+ String slash x) slash = Z.of_nat (String.length a).
Proof.
  intros Hx. induction a as [|d a IH].
  - rewrite app_empty_l. simpl. by rewrite LastIndexByte_noSlash.
  - rewrite app_String. simpl LastIndexByte. rewrite IH.
    destruct (Z.leb_spec 0 (Z.of_nat (String.length a))); simpl String.length; lia.
Qed.

Lemma slice_to_app a b : slice_to (String.length a) (a +:+ b) = a.
Proof. induction a as [|c a IH]; [done|]. rewrite app_String. simpl. by rewrite IH. Qed.

Lemma slice_from_app a b : slice_from (String.length a) (a +:+ b) = b.
Proof. induction a as [|c a IH]; [done|]. rewrite app_String. simpl. by rewrite IH. Qed.

Lemma Split_app_slash a x :
  noSlash x → Split (a +:+ String slash x) = (a +:+ "/", x).
Proof.
  intros Hx. unfold Split. rewrite LastIndexByte_app_slash by done.
  replace (Z.to_nat (Z.of_nat (String.length a) + 1))
    with (String.length (a +:+ "/")) by (rewrite length_app_s; simpl; lia).
  change (a +:+ String slash x) with (a +:+ "/" +:+ x).
  rewrite <- app_assoc_s. by rewrite slice_to_app, slice_from_app.
Qed.

Lemma renderS_cons x st :
  renderS (x :: st) = parentPrefix st +:+ String slash x.
Proof.
  destruct st as [|y st]; [done|]. unfold parentPrefix, renderS.
  change (rev (x :: y :: st)) with (rev (y :: st) ++ [x]).
  rewrite Join_snoc. 2:{ simpl. by destruct (rev st). }
  by rewrite !app_assoc_s.
Qed.

Lemma Dir_renderS x st :
  Forall proper (x :: st) → Dir (renderS (x :: st)) = renderS st.
Proof.
  intros Hst. inversion Hst as [|? ? (_ & _ & _ & Hx) Hst']; subst.
  unfold Dir. rewrite renderS_cons, Split_app_slash by done. simpl fst.
  destruct st as [|y st]; [done|]. unfold parentPrefix, renderS.
  rewrite app_assoc_s.
  replace (Join (rev (y :: st)) "/" +:+ "/")
    with (Join (rev (y :: st) ++ [""]) "/").
  2:{ rewrite Join_snoc; [done|]. simpl. by destruct (rev st). }
  rewrite Clean_rooted_segs.
  - unfold resolve. rewrite fold_left_app.
    change (fold_left stepSeg [""] ?s) with s.
    fold (resolve [] (rev (y :: st))).
    rewrite resolve_proper_segs by by apply Forall_rev.
    by rewrite rev_involutive, app_nil_r.
  - apply Forall_app; split; [|by repeat constructor].
    apply Forall_rev. eapply Forall_impl; [exact Hst'|].
    by intros z (_ & _ & _ & ?).
Qed.

Lemma stripTrailingSlashes_elem x :
  noSlash x → x ≠ "" → stripTrailingSlashes x = x.
Proof.
  unfold noSlash. induction x as [|c x IH]; [done|]. simpl.
  intros [Hc Hx]%orb_false_elim _.
  destruct x as [|d x]; [by rewrite Hc|].
  rewrite IH by done. done.
Qed.

Lemma stripTrailingSlashes_app a x :
  noSlash x → x ≠ "" → stripTrailingSlashes (a +:+ x) = a +:+ x.
Proof.
  intros Hx Hne. induction a as [|c a IH].
  - by apply stripTrailingSlashes_elem.
  - rewrite app_String. simpl. rewrite IH.
    destruct (a +:+ x) eqn:E; [|done].
    destruct a; [by rewrite app_empty_l in E | done].
Qed.

Lemma Base_renderS x st :
  Forall proper (x :: st) → Base (renderS (x :: st)) = x.
Proof.
  intros Hst. inversion Hst as [|? ? (Hne & _ & _ & Hx) Hst']; subst.
  rewrite renderS_cons. unfold Base.
  replace (String.eqb (parentPrefix st +:+ String slash x) "") with false.
  2:{ symmetry. apply String.eqb_neq. by destruct (parentPrefix st). }
  change (parentPrefix st +:+ String slash x)
    with (parentPrefix st +:+ "/" +:+ x).
  rewrite <- app_assoc_s, stripTrailingSlashes_app by done.
  rewrite app_assoc_s.
  change (parentPrefix st +:+ "/" +:+ x)
    with (parentPrefix st +:+ String slash x).
  rewrite LastIndexByte_app_slash by done.
  destruct (Z.leb_spec 0 (Z.of_nat (String.length (parentPrefix st)))); [|lia].
  replace (Z.to_nat (Z.of_nat (String.length (parentPrefix st)) + 1))
    with (String.length (parentPrefix st +:+ "/"))
    by (rewrite length_app_s; simpl; lia).
  change (parentPrefix st +:+ String slash x)
    with (parentPrefix st +:+ "/" +:+ x).
  rewrite <- app_assoc_s, slice_from_app.
  by rewrite (proj2 (String.eqb_neq _ _) Hne).
Qed.

End DirBase.

(** ** The metadata directory *)

Section MetaFacts.

Lemma normalizePath_root_or_elem p :
  normalizePath p = "/"
  ∨ ∃ x stack, Forall element (x :: stack) ∧ normalizePath p = renderS (x :: stack).
Proof.
  destruct (normalizePath_elements p) as ([|x stack] & Hst & ->); [by left|].
  right. by exists x, stack.
Qed.

Lemma uint64_incr_small x : 0 ≤ x < uint64_max → uint64_incr x = x + 1.
Proof.
  unfold uint64_incr, uint64_max. intros H. apply Z.mod_small. lia.
Qed.

Lemma listLoop_filter dirPath order results :
  listLoop dirPath order results
  = results ++ (filter (child_of dirPath) order).*2.
Proof.
  revert results. induction order as [|[q m] order IH]; intros results; simpl.
  - by rewrite app_nil_r.
  - rewrite filter_cons.
    destruct (decide (child_of dirPath (q, m))) as [[H1 H2]|Hn]; simpl in *.
    + rewrite !bool_decide_eq_true_2 by done. simpl.
      by rewrite IH, <- app_assoc.
    + replace (bool_decide (Dir q = dirPath) && bool_decide (q ≠ dirPath))
        with false; [by rewrite IH|].
      symmetry. apply andb_false_iff. unfold child_of in Hn. simpl in Hn.
      destruct (decide (Dir q = dirPath)); [right|left];
        apply bool_decide_eq_false_2; naive_solver.
Qed.

(** *** Pointers and records *)

Lemma fresh_heap s : heap s !! fresh (dom (heap s)) = None.
Proof. apply not_elem_of_dom, is_fresh. Qed.

Lemma entry_Some s k m :
  entry s k = Some m ↔ ∃ meta, data s !! k = Some meta ∧ heap s !! meta = Some m.
Proof.
  unfold entry. destruct (data s !! k) as [meta|]; simpl.
  - split; [by exists meta|]. by intros (? & [= <-] & ?).
  - split; [done|]. by intros (? & ? & ?).
Qed.

Lemma entry_valid s k meta :
  valid s → data s !! k = Some meta → ∃ m, entry s k = Some m.
Proof.
  intros Hv Hk. destruct (Hv k meta Hk) as [m Hm]. exists m.
  apply entry_Some. by exists meta.
Qed.

Lemma entry_None s k : valid s → entry s k = None → data s !! k = None.
Proof.
  intros Hv He. destruct (data s !! k) as [meta|] eqn:E; [|done].
  destruct (entry_valid s k meta Hv E) as [m Hm]. congruence.
Qed.

(** A write through a pointer shows under every key that holds it. *)
Lemma entry_written s meta record q :
  entry (written s meta record) q
  = match data s !! q with
    | Some meta' => if decide (meta' = meta) then Some record else heap s !! meta'
    | None => None
    end.
Proof.
  unfold entry, written. simpl. destruct (data s !! q) as [meta'|]; [|done].
  simpl. rewrite lookup_insert. by repeat case_decide.
Qed.

Lemma entry_written_other s meta record q :
  data s !! q ≠ Some meta → entry (written s meta record) q = entry s q.
Proof.
  intros Hq. rewrite entry_written. unfold entry.
  destruct (data s !! q) as [meta'|]; [|done]. simpl.
  case_decide; [by subst|done].
Qed.

(** A record at a new address is under no key. *)
Lemma entry_written_fresh s meta record q :
  valid s → heap s !! meta = None →
  entry (written s meta record) q = entry s q.
Proof.
  intros Hv Hnew. apply entry_written_other. intros Hq.
  destruct (Hv q meta Hq) as [m Hm]. congruence.
Qed.

Lemma entry_stored s k meta record q :
  entry (stored s k meta record) q
  = if decide (q = k) then Some record else entry (written s meta record) q.
Proof.
  unfold entry, stored, written. simpl. rewrite lookup_insert.
  case_decide as H; [|by rewrite decide_False by done].
  subst. rewrite decide_True by done. simpl. by rewrite lookup_insert_eq.
Qed.

Lemma entry_created s k record q :
  valid s →
  entry (created s k record) q
  = if decide (q = k) then Some record else entry s q.
Proof.
  intros Hv. unfold entry, created. simpl. rewrite lookup_insert.
  case_decide as H.
  - subst. rewrite decide_True by done. simpl. by rewrite lookup_insert_eq.
  - rewrite decide_False by done.
    destruct (data s !! q) as [meta|] eqn:E; [|done]. simpl.
    rewrite lookup_insert_ne; [done|].
    intros <-. destruct (Hv q _ E) as [m Hm]. by rewrite fresh_heap in Hm.
Qed.

Lemma entry_removed s k q :
  entry (removed s k) q = if decide (q = k) then None else entry s q.
Proof.
  unfold entry, removed. simpl. rewrite lookup_delete.
  case_decide as H; [by rewrite decide_True by done|].
  by rewrite decide_False by done.
Qed.

(** *** The calls, case by case *)

Lemma Create_cases s p mode now :
  let filePath := normalizePath p in
  (∃ e, Create s p mode now = (s, Err e))
  ∨ (∃ parentMeta pm,
       data s !! Dir filePath = Some parentMeta
       ∧ heap s !! parentMeta = Some pm ∧ Type_ pm = TypeDirectory
       ∧ data s !! filePath = None
       ∧ Create s p mode now
         = (created s filePath
              (createdFile (uint64_incr (inodes s)) (Base filePath) mode now),
            Ok (fresh (dom (heap s))))).
Proof.
  intros filePath. unfold Create. fold filePath.
  destruct (data s !! Dir filePath) as [parentMeta|] eqn:Ep; [|by left; eexists].
  destruct (heap s !! parentMeta) as [pm|] eqn:Epm; [|by left; eexists].
  destruct (decide (Type_ pm = TypeDirectory)) as [Hty|Hty].
  2:{ rewrite bool_decide_eq_true_2 by done. by left; eexists. }
  rewrite bool_decide_eq_false_2 by (by intros Hn).
  destruct (data s !! filePath) eqn:E; [by left; eexists|].
  right. by exists parentMeta, pm.
Qed.

Lemma Mkdir_cases s p mode now :
  let dirPath := normalizePath p in
  (∃ e, Mkdir s p mode now = (s, Err e))
  ∨ (∃ parentMeta pm,
       data s !! Dir dirPath = Some parentMeta
       ∧ heap s !! parentMeta = Some pm ∧ Type_ pm = TypeDirectory
       ∧ data s !! dirPath = None
       ∧ Mkdir s p mode now
         = (created s dirPath
              (createdDir (uint64_incr (inodes s)) (Base dirPath) mode now),
            Ok ())).
Proof.
  intros dirPath. unfold Mkdir. fold dirPath.
  destruct (data s !! Dir dirPath) as [parentMeta|] eqn:Ep; [|by left; eexists].
  destruct (heap s !! parentMeta) as [pm|] eqn:Epm; [|by left; eexists].
  destruct (decide (Type_ pm = TypeDirectory)) as [Hty|Hty].
  2:{ rewrite bool_decide_eq_true_2 by done. by left; eexists. }
  rewrite bool_decide_eq_false_2 by (by intros Hn).
  destruct (data s !! dirPath) eqn:E; [by left; eexists|].
  right. by exists parentMeta, pm.
Qed.

Lemma Get_cases s p now :
  (∃ e, Get s p now = (s, Err e))
  ∨ (∃ meta record,
       data s !! normalizePath p = Some meta ∧ heap s !! meta = Some record
       ∧ Get s p now = (written s meta (with_AccessTime record now), Ok meta)).
Proof.
  unfold Get.
  destruct (data s !! normalizePath p) as [meta|] eqn:E; [|by left; eexists].
  destruct (heap s !! meta) as [record|] eqn:Er; [|by left; eexists].
  right. by exists meta, record.
Qed.

Lemma Update_cases s p meta now :
  (∃ e, Update s p meta now = (s, Err e))
  ∨ (∃ old record,
       data s !! normalizePath p = Some old ∧ heap s !! meta = Some record
       ∧ Update s p meta now
         = (stored s (normalizePath p) meta (updated record now), Ok ())).
Proof.
  unfold Update.
  destruct (data s !! normalizePath p) as [old|] eqn:E; [|by left; eexists].
  destruct (heap s !! meta) as [record|] eqn:Er; [|by left; eexists].
  right. by exists old, record.
Qed.

Lemma Delete_cases s p :
  (∃ e, Delete s p = (s, Err e))
  ∨ (∃ old, data s !! normalizePath p = Some old
            ∧ Delete s p = (removed s (normalizePath p), Ok ())).
Proof.
  unfold Delete.
  destruct (data s !! normalizePath p) as [old|] eqn:E; [|by left; eexists].
  right. by exists old.
Qed.

(** What the caller's evaluation of the pointer leaves: a new record is
    under no key. *)
Lemma pass_spec s meta :
  valid s →
  let s1 := (pass s meta).1 in
  valid s1 ∧ data s1 = data s ∧ inodes s1 = inodes s
  ∧ (∀ q, entry s1 q = entry s q)
  ∧ heap s1 !! (pass s meta).2 = passed s meta.
Proof.
  intros Hv. destruct meta as [m|meta]; simpl; [|done].
  split; [|split; [done|split; [done|split]]].
  - intros k meta Hk. simpl in *. destruct (Hv k meta Hk) as [r Hr].
    rewrite lookup_insert. case_decide; by eauto.
  - intros q. apply (entry_written_fresh s); [done|apply fresh_heap].
  - by rewrite lookup_insert_eq.
Qed.

(** *** No nil pointer in the map *)

Lemma valid_written s meta record :
  valid s → valid (written s meta record).
Proof.
  intros Hv k meta' Hk. simpl in *. destruct (Hv k meta' Hk) as [r Hr].
  rewrite lookup_insert. case_decide; by eauto.
Qed.

Lemma valid_stored s k meta record :
  valid s → valid (stored s k meta record).
Proof.
  intros Hv q meta'. simpl. rewrite lookup_insert. case_decide.
  - intros [= <-]. rewrite lookup_insert_eq. by eauto.
  - intros Hq. destruct (Hv q meta' Hq) as [r Hr].
    rewrite lookup_insert. case_decide; by eauto.
Qed.

Lemma valid_created s k record : valid s → valid (created s k record).
Proof.
  intros Hv q meta'. simpl. rewrite lookup_insert. case_decide.
  - intros [= <-]. rewrite lookup_insert_eq. by eauto.
  - intros Hq. destruct (Hv q meta' Hq) as [r Hr].
    rewrite lookup_insert. case_decide; by eauto.
Qed.

Lemma valid_removed s k : valid s → valid (removed s k).
Proof.
  intros Hv q meta' Hq. simpl in Hq.
  apply lookup_delete_Some in Hq as [_ Hq]. by apply (Hv q).
Qed.

Lemma valid_new t1 t2 t3 : valid (NewMemoryStore t1 t2 t3).
Proof.
  intros k meta. unfold NewMemoryStore. simpl. rewrite lookup_insert.
  case_decide; [|done]. intros [= <-]. rewrite lookup_insert_eq. by eauto.
Qed.

Lemma exec_valid s c now : valid s → valid (exec s c now).
Proof.
  intros Hv. destruct c as [p mode|p|p meta|p|p|p mode]; simpl.
  - destruct (Create_cases s p mode now) as [[e ->]|(? & ? & _ & _ & _ & _ & ->)];
      [done|]. by apply valid_created.
  - destruct (Get_cases s p now) as [[e ->]|(? & ? & _ & _ & ->)]; [done|].
    by apply valid_written.
  - destruct (pass_spec s meta Hv) as (Hv1 & _).
    destruct (pass s meta) as [s1 meta1]. simpl in *.
    destruct (Update_cases s1 p meta1 now) as [[e ->]|(? & ? & _ & _ & ->)];
      [done|]. by apply valid_stored.
  - destruct (Delete_cases s p) as [[e ->]|(? & _ & ->)]; [done|].
    by apply valid_removed.
  - done.
  - destruct (Mkdir_cases s p mode now) as [[e ->]|(? & ? & _ & _ & _ & _ & ->)];
      [done|]. by apply valid_created.
Qed.

Lemma run_valid trace : ∀ s, valid s → valid (run s trace).
Proof.
  induction trace as [|[c now] trace IH]; intros s Hv; [done|].
  simpl. apply IH. by apply exec_valid.
Qed.

(** A write that keeps a field keeps it under every key. *)
Lemma entry_written_field {A} (f : Metadata → A) s meta record record' q :
  heap s !! meta = Some record → f record' = f record →
  f <$> entry (written s meta record') q = f <$> entry s q.
Proof.
  intros Hr Hf. rewrite entry_written. unfold entry.
  destruct (data s !! q) as [meta'|]; [|done]. simpl.
  case_decide; [|done]. subst. rewrite Hr. simpl. by rewrite Hf.
Qed.

Lemma entry_stored_field {A} (f : Metadata → A) s k meta record record' q :
  heap s !! meta = Some record → f record' = f record →
  f <$> entry (stored s k meta record') q
  = if decide (q = k) then Some (f record') else f <$> entry s q.
Proof.
  intros Hr Hf. rewrite entry_stored. case_decide; [done|].
  by apply (entry_written_field f s meta record).
Qed.

Lemma fmap_entry_Some {A} (f : Metadata → A) s s' q m :
  f <$> entry s' q = f <$> entry s q → entry s' q = Some m →
  ∃ m0, entry s q = Some m0 ∧ f m0 = f m.
Proof.
  intros Heq Hm. rewrite Hm in Heq. simpl in Heq.
  destruct (entry s q) as [m0|]; [|done]. exists m0. split; [done|].
  simpl in Heq. congruence.
Qed.

Lemma entry_created_self s k record :
  entry (created s k record) k = Some record.
Proof.
  unfold entry, created. simpl. rewrite lookup_insert_eq. simpl.
  by rewrite lookup_insert_eq.
Qed.

(** *** The root entry *)

Lemma root_ok_same s s' :
  Type_ <$> entry s' "/" = Type_ <$> entry s "/" → root_ok s → root_ok s'.
Proof.
  intros Heq (root & Hroot & Hdir). rewrite Hroot in Heq. simpl in Heq.
  destruct (entry s' "/") as [m|] eqn:E; [|done]. exists m. split; [done|].
  simpl in Heq. congruence.
Qed.

Lemma root_ok_data s : root_ok s → is_Some (data s !! "/").
Proof. intros (root & (meta & Hm & _)%entry_Some & _). by eauto. Qed.

Lemma exec_root_ok s c now :
  valid s → root_ok s → keeps_root s c → root_ok (exec s c now).
Proof.
  intros Hv Hroot Hc. pose proof (root_ok_data s Hroot) as [rootMeta Hdata].
  destruct c as [p mode|p|p meta|p|p|p mode]; simpl.
  - destruct (Create_cases s p mode now)
      as [[e ->]|(? & ? & _ & _ & _ & Hnone & ->)]; [done|]. simpl.
    apply (root_ok_same s); [|done]. rewrite entry_created by done.
    case_decide; [congruence|done].
  - destruct (Get_cases s p now) as [[e ->]|(meta & r & _ & Hr & ->)]; [done|].
    simpl. apply (root_ok_same s); [|done].
    by apply (entry_written_field Type_ s meta r).
  - destruct (pass_spec s meta Hv) as (Hv1 & Hd1 & _ & He1 & Hp1).
    destruct (pass s meta) as [s1 meta1]. simpl in *.
    assert (root_ok s1) as Hroot1.
    { apply (root_ok_same s); [by rewrite He1|done]. }
    destruct (Update_cases s1 p meta1 now) as [[e ->]|(old & r & _ & Hr & ->)];
      [done|]. simpl.
    destruct (decide (normalizePath p = "/")) as [Heq|Hne].
    + exists (updated r now). rewrite Heq, entry_stored.
      rewrite decide_True by done. split; [done|]. simpl.
      apply Hc; [done|]. by rewrite <- Hp1.
    + apply (root_ok_same s1); [|done].
      rewrite (entry_stored_field Type_ s1 _ _ r) by done.
      by rewrite decide_False by done.
  - destruct (Delete_cases s p) as [[e ->]|(old & _ & ->)]; [done|]. simpl.
    apply (root_ok_same s); [|done]. rewrite entry_removed.
    simpl in Hc. by rewrite decide_False by done.
  - done.
  - destruct (Mkdir_cases s p mode now)
      as [[e ->]|(? & ? & _ & _ & _ & Hnone & ->)]; [done|]. simpl.
    apply (root_ok_same s); [|done]. rewrite entry_created by done.
    case_decide; [congruence|done].
Qed.

Lemma run_root_ok trace :
  ∀ s, valid s → root_ok s → root_preserving s trace → root_ok (run s trace).
Proof.
  induction trace as [|[c now] trace IH]; intros s Hv Hs Htr; [done|].
  destruct Htr as [Hc Htr]. simpl. apply IH; [by apply exec_valid| |done].
  by apply exec_root_ok.
Qed.

(** *** Inodes *)

Lemma inode_inv_same s s' :
  (∀ q m, entry s' q = Some m → ∃ m0, entry s q = Some m0 ∧ Inode m0 = Inode m) →
  inodes s' = inodes s →
  inodes_bounded s → unique_inodes s →
  inodes_bounded s' ∧ unique_inodes s'.
Proof.
  intros Hsame Hn Hb Hu. split.
  - intros q m (m0 & Hm0 & Heq)%Hsame. rewrite Hn, <- Heq. by eapply Hb.
  - intros p1 p2 m1 m2 (n1 & Hn1 & Heq1)%Hsame (n2 & Hn2 & Heq2)%Hsame Heq.
    eapply Hu; [exact Hn1|exact Hn2|]. congruence.
Qed.

Lemma inode_inv_created s k record :
  valid s → 0 ≤ inodes s < uint64_max →
  Inode record = uint64_incr (inodes s) →
  inodes_bounded s → unique_inodes s →
  inodes_bounded (created s k record) ∧ unique_inodes (created s k record).
Proof.
  intros Hv Hn Hino Hb Hu. rewrite uint64_incr_small in Hino by done. split.
  - intros q m. rewrite entry_created by done. simpl.
    rewrite uint64_incr_small by done. case_decide.
    + intros [= <-]. lia.
    + intros Hm%Hb. lia.
  - intros p1 p2 m1 m2. rewrite !entry_created by done.
    repeat case_decide; subst; try done.
    + intros [= <-] H2%Hb. lia.
    + intros H1%Hb [= <-]. lia.
    + apply Hu.
Qed.

Lemma alloc_of_created s c now :
  (∃ p mode record,
     (c = CallCreate p mode
      ∧ Create s p mode now
        = (created s (normalizePath p) record, Ok (fresh (dom (heap s)))))
     ∨ (c = CallMkdir p mode
        ∧ Mkdir s p mode now = (created s (normalizePath p) record, Ok ()))) →
  is_Some (alloc_of s c now).
Proof.
  intros (p & mode & record & [[-> Heq]|[-> Heq]]); simpl; rewrite Heq.
  - simpl. rewrite lookup_insert_eq. by eexists.
  - rewrite entry_created_self. by eexists.
Qed.

Lemma exec_inode_inv s c now :
  valid s → 0 ≤ inodes s →
  (is_Some (alloc_of s c now) → inodes s < uint64_max) →
  inodes_bounded s → unique_inodes s → keeps_inode s c →
  inodes_bounded (exec s c now) ∧ unique_inodes (exec s c now).
Proof.
  intros Hv H0 Halloc Hb Hu Hc.
  destruct c as [p mode|p|p meta|p|p|p mode]; simpl.
  - destruct (Create_cases s p mode now)
      as [[e ->]|(? & ? & _ & _ & _ & _ & Heq)]; [done|].
    rewrite Heq. simpl. apply inode_inv_created; try done.
    split; [done|]. apply Halloc, alloc_of_created. eexists p, mode, _.
    left. by split.
  - destruct (Get_cases s p now) as [[e ->]|(meta & r & _ & Hr & ->)]; [done|].
    simpl. apply (inode_inv_same s); try done.
    intros q m. apply fmap_entry_Some.
    by apply (entry_written_field Inode s meta r).
  - destruct (pass_spec s meta Hv) as (Hv1 & Hd1 & Hn1 & He1 & Hp1).
    destruct (pass s meta) as [s1 meta1]. simpl in *.
    destruct (Update_cases s1 p meta1 now)
      as [[e ->]|(old & r & Hold & Hr & ->)]; simpl.
    + apply (inode_inv_same s); try done. intros q m. rewrite He1. by eauto.
    + destruct (entry_valid s1 _ _ Hv1 Hold) as [oldRecord Hrec].
      apply (inode_inv_same s); try done.
      intros q m. rewrite <- He1. apply fmap_entry_Some.
      rewrite (entry_stored_field Inode s1 _ _ r) by done.
      case_decide; [|done]. subst q. rewrite Hrec. simpl. f_equal.
      apply Hc; [by rewrite <- He1|by rewrite <- Hp1].
  - destruct (Delete_cases s p) as [[e ->]|(old & _ & ->)]; [done|]. simpl.
    apply (inode_inv_same s); try done.
    intros q m. rewrite entry_removed. case_decide; [done|]. by eauto.
  - done.
  - destruct (Mkdir_cases s p mode now)
      as [[e ->]|(? & ? & _ & _ & _ & _ & Heq)]; [done|].
    rewrite Heq. simpl. apply inode_inv_created; try done.
    split; [done|]. apply Halloc, alloc_of_created. eexists p, mode, _.
    right. by split.
Qed.

Lemma exec_inodes s c now :
  0 ≤ inodes s < uint64_max →
  inodes s ≤ inodes (exec s c now) ≤ inodes s + 1.
Proof.
  intros Hn. destruct c as [p mode|p|p meta|p|p|p mode]; simpl.
  - destruct (Create_cases s p mode now)
      as [[e ->]|(? & ? & _ & _ & _ & _ & ->)]; simpl; [lia|].
    rewrite uint64_incr_small by done. lia.
  - destruct (Get_cases s p now) as [[e ->]|(? & ? & _ & _ & ->)]; simpl; lia.
  - assert (inodes (pass s meta).1 = inodes s) as Hn1 by by destruct meta.
    destruct (pass s meta) as [s1 meta1]. simpl in *.
    destruct (Update_cases s1 p meta1 now) as [[e ->]|(? & ? & _ & _ & ->)];
      simpl; lia.
  - destruct (Delete_cases s p) as [[e ->]|(? & _ & ->)]; simpl; lia.
  - lia.
  - destruct (Mkdir_cases s p mode now)
      as [[e ->]|(? & ? & _ & _ & _ & _ & ->)]; simpl; [lia|].
    rewrite uint64_incr_small by done. lia.
Qed.

Lemma alloc_of_Some s c now i :
  0 ≤ inodes s < uint64_max → alloc_of s c now = Some i →
  i = inodes s + 1 ∧ inodes (exec s c now) = inodes s + 1.
Proof.
  intros Hn. destruct c as [p mode|p|p meta|p|p|p mode]; simpl; try done.
  - destruct (Create_cases s p mode now)
      as [[e ->]|(? & ? & _ & _ & _ & _ & ->)]; [done|]. simpl.
    rewrite lookup_insert_eq. simpl.
    rewrite uint64_incr_small by done. by intros [= <-].
  - destruct (Mkdir_cases s p mode now)
      as [[e ->]|(? & ? & _ & _ & _ & _ & ->)]; [done|]. simpl.
    unfold entry, created. simpl. rewrite lookup_insert_eq. simpl.
    rewrite lookup_insert_eq. simpl.
    rewrite uint64_incr_small by done. by intros [= <-].
Qed.

(** A call that allocates no inode leaves the counter as it is. *)
Lemma alloc_of_None s c now :
  alloc_of s c now = None → inodes (exec s c now) = inodes s.
Proof.
  destruct c as [p mode|p|p meta|p|p|p mode]; simpl.
  - destruct (Create_cases s p mode now)
      as [[e ->]|(? & ? & _ & _ & _ & _ & ->)]; [done|]. simpl.
    by rewrite lookup_insert_eq.
  - by destruct (Get_cases s p now) as [[e ->]|(? & ? & _ & _ & ->)].
  - assert (inodes (pass s meta).1 = inodes s) as Hn1 by by destruct meta.
    destruct (pass s meta) as [s1 meta1]. simpl in *.
    by destruct (Update_cases s1 p meta1 now) as [[e ->]|(? & ? & _ & _ & ->)].
  - by destruct (Delete_cases s p) as [[e ->]|(? & _ & ->)].
  - done.
  - destruct (Mkdir_cases s p mode now)
      as [[e ->]|(? & ? & _ & _ & _ & _ & ->)]; [done|].
    by rewrite entry_created_self.
Qed.

(** While the counter has not wrapped around it counts the
    allocations, and these are increasing. *)
Lemma allocated_increasing trace :
  ∀ s, 0 ≤ inodes s →
  inodes s + Z.of_nat (length (allocated s trace)) ≤ uint64_max →
  inodes (run s trace) = inodes s + Z.of_nat (length (allocated s trace))
  ∧ Forall (λ i, inodes s < i) (allocated s trace)
  ∧ StronglySorted Z.lt (allocated s trace).
Proof.
  induction trace as [|[c now] trace IH]; intros s H0 Hlen.
  { simpl. split; [lia|]. split; constructor. }
  simpl in *. destruct (alloc_of s c now) as [i|] eqn:E.
  - simpl in Hlen. assert (0 ≤ inodes s < uint64_max) as Hn by lia.
    apply alloc_of_Some in E as [-> Hs']; [|done].
    destruct (IH (exec s c now)) as (Hrun & Hgt & Hsorted); [lia..|].
    split; [simpl; lia|]. split.
    + constructor; [lia|]. eapply Forall_impl; [exact Hgt|]. simpl. lia.
    + constructor; [done|]. eapply Forall_impl; [exact Hgt|]. simpl. lia.
  - apply alloc_of_None in E.
    destruct (IH (exec s c now)) as (Hrun & Hgt & Hsorted); [lia..|].
    split; [lia|]. split; [|done].
    eapply Forall_impl; [exact Hgt|]. simpl. lia.
Qed.

Lemma run_inode_inv trace :
  ∀ s, valid s →
  0 ≤ inodes s →
  inodes s + Z.of_nat (length (allocated s trace)) ≤ uint64_max →
  inodes_bounded s → unique_inodes s → inode_preserving s trace →
  inodes_bounded (run s trace) ∧ unique_inodes (run s trace).
Proof.
  induction trace as [|[c now] trace IH]; intros s Hv H0 Hlen Hb Hu Hp; [done|].
  simpl in Hlen, Hp. destruct Hp as [Hc Hp].
  assert (is_Some (alloc_of s c now) → inodes s < uint64_max) as Halloc.
  { intros [i Hi]. rewrite Hi in Hlen. simpl in Hlen. lia. }
  destruct (exec_inode_inv s c now Hv H0 Halloc Hb Hu Hc) as [Hb' Hu'].
  assert (0 ≤ inodes (exec s c now)
          ∧ inodes (exec s c now)
            + Z.of_nat (length (allocated (exec s c now) trace)) ≤ uint64_max)
    as [H0' Hlen'].
  { destruct (alloc_of s c now) as [i|] eqn:E.
    - simpl in Hlen. apply alloc_of_Some in E as [_ ->]; lia.
    - apply alloc_of_None in E. rewrite E. lia. }
  simpl. apply IH; try done. by apply exec_valid.
Qed.

(** *** Timestamps *)

Lemma stamps_le_mono s t t' : stamps_le s t → t ≤ t' → stamps_le s t'.
Proof. intros H Ht p m Hm. specialize (H p m Hm). lia. Qed.

Lemma exec_stamps s c now t :
  valid s → stamps_le s t → t ≤ now → stamps_le (exec s c now) now.
Proof.
  intros Hv Hs Ht. pose proof (stamps_le_mono s t now Hs Ht) as Hs'.
  destruct c as [p mode|p|p meta|p|p|p mode]; simpl.
  - destruct (Create_cases s p mode now)
      as [[e ->]|(? & ? & _ & _ & _ & _ & ->)]; [done|]. simpl.
    intros q m. rewrite entry_created by done. case_decide; [|by apply Hs'].
    intros [= <-]. simpl. lia.
  - destruct (Get_cases s p now) as [[e ->]|(meta & r & _ & Hr & ->)]; [done|].
    simpl. intros q m Hm.
    destruct (fmap_entry_Some ModifyTime s
                (written s meta (with_AccessTime r now)) q m)
      as (m0 & Hm0 & <-);
      [by apply (entry_written_field ModifyTime s meta r)|done|].
    by eapply Hs'.
  - destruct (pass_spec s meta Hv) as (Hv1 & Hd1 & Hn1 & He1 & Hp1).
    destruct (pass s meta) as [s1 meta1]. simpl in *.
    assert (stamps_le s1 now) as Hs1.
    { intros q m. rewrite He1. by apply Hs'. }
    destruct (Update_cases s1 p meta1 now)
      as [[e ->]|(old & r & Hold & Hr & ->)]; [done|]. simpl.
    intros q m. rewrite entry_stored, entry_written.
    case_decide; [intros [= <-]; simpl; lia|].
    destruct (data s1 !! q) as [meta'|] eqn:Eq; [|done].
    case_decide; [intros [= <-]; simpl; lia|].
    intros Hm. apply (Hs1 q). apply entry_Some. by exists meta'.
  - destruct (Delete_cases s p) as [[e ->]|(old & _ & ->)]; [done|]. simpl.
    intros q m. rewrite entry_removed. case_decide; [done|]. by apply Hs'.
  - done.
  - destruct (Mkdir_cases s p mode now)
      as [[e ->]|(? & ? & _ & _ & _ & _ & ->)]; [done|]. simpl.
    intros q m. rewrite entry_created by done. case_decide; [|by apply Hs'].
    intros [= <-]. simpl. lia.
Qed.

Lemma run_stamps trace :
  ∀ s t now, valid s → stamps_le s t → ticks t (trace.*2 ++ [now]) →
  stamps_le (run s trace) now.
Proof.
  induction trace as [|[c t'] trace IH]; intros s t now Hv Hs Ht; simpl in *.
  - apply (stamps_le_mono s t); [done|lia].
  - destruct Ht as [Ht Ht']. eapply IH; [by apply exec_valid| |exact Ht'].
    by eapply exec_stamps.
Qed.

Lemma allocated_length trace :
  ∀ s, (length (allocated s trace) ≤ length trace)%nat.
Proof.
  induction trace as [|[c now] trace IH]; intros s; [done|].
  simpl. specialize (IH (exec s c now)).
  destruct (alloc_of s c now); simpl; lia.
Qed.

End MetaFacts.

(** ** The storage cache *)

Section StorageFacts.

Context {D : Type} `{!FileSystem D}.

Local Arguments Ascii.eqb : simpl never.

(** The key without its leading slash starts with a byte of its first
    element. *)
Lemma relative_key x stack :
  Forall proper (x :: stack) →
  ∃ c r, c ≠ slash ∧ TrimPrefix (renderS (x :: stack)) "/" = String c r.
Proof.
  intros Hst. unfold renderS.
  change (TrimPrefix ("/" +:+ ?s) "/") with s.
  apply Forall_rev in Hst.
  destruct (rev (x :: stack)) as [|y l] eqn:E.
  { apply (f_equal (@length _)) in E. rewrite length_rev in E. done. }
  inversion Hst as [|? ? (Hne & _ & _ & Hns) _]; subst.
  rewrite Join_cons. destruct y as [|c y]; [done|].
  exists c, (y +:+ tailPath l). split; [|done].
  unfold noSlash in Hns. simpl in Hns.
  apply orb_false_elim in Hns as [Hc _]. by apply Ascii.eqb_neq.
Qed.

Lemma TrimPrefix_not_slash c r :
  c ≠ slash → TrimPrefix (String c r) "/" = String c r.
Proof.
  intros Hc. unfold TrimPrefix.
  change (HasPrefix (String c r) "/") with (Ascii.eqb slash c && HasPrefix r "").
  by rewrite (proj2 (Ascii.eqb_neq _ _) (not_eq_sym Hc)).
Qed.

Lemma ContainsByte_relative c x stack :
  c ≠ slash →
  ContainsByte (TrimPrefix (renderS (x :: stack)) "/") c
  = ContainsByte (renderS (x :: stack)) c.
Proof.
  intros Hc. unfold renderS.
  change (TrimPrefix ("/" +:+ ?s) "/") with s.
  change ("/" +:+ ?s) with (String slash s). simpl.
  by rewrite (proj2 (Ascii.eqb_neq _ _) (not_eq_sym Hc)).
Qed.

(** [keyToPath] on the normalized key that [Save], [Load], [Delete] and
    [Sync] pass to it. *)
Lemma keyToPath_normalized cfg key :
  normalizePath key ≠ "/" →
  keyToPath cfg (TrimPrefix (normalizePath key) "/")
  = if ContainsByte (normalizePath key) nul then Err InvalidCharacters
    else if escapesRoot cfg key then Err EscapesRoot
    else Ok (filepath_Join [RootDir cfg; TrimPrefix (normalizePath key) "/"]).
Proof.
  intros Hroot. unfold escapesRoot.
  destruct (normalizePath_root_or_elem key) as [?|(x & stack & Hst & Hx)]; [done|].
  rewrite Hx. apply element_proper in Hst.
  destruct (relative_key x stack Hst) as (c & r & Hc & Hrel).
  unfold keyToPath, validatePath.
  rewrite <- (ContainsByte_relative nul x stack) by done.
  rewrite Hrel, (TrimPrefix_not_slash c r Hc).
  change (String.eqb (String c r) "") with false. cbv iota.
  destruct (ContainsByte (String c r) nul); [done|].
  by destruct (negb _).
Qed.

(** [keyToPath] fails on the key that normalizes to the root. *)
Lemma keyToPath_root cfg : keyToPath cfg (TrimPrefix "/" "/") = Err EmptyPath.
Proof. reflexivity. Qed.

(** [Save], case by case. *)
Lemma Save_eq (st : State D) key data :
  Save st key data
  = if String.eqb key "" then (st, Some EmptyKey)
    else if String.eqb (normalizePath key) "/" then (st, Some RootKey)
    else if ContainsByte (normalizePath key) nul
         then (st, Some (InvalidKey InvalidCharacters))
    else if escapesRoot (config (storage st)) key
         then (st, Some (InvalidKey EscapesRoot))
    else (with_storage st (<[normalizePath key := data]> (cache (storage st)))
            (<[normalizePath key := true]> (dirty (storage st))), None).
Proof.
  unfold Save. destruct (String.eqb key ""); [done|].
  destruct (String.eqb_spec (normalizePath key) "/") as [Hroot|Hroot]; [done|].
  rewrite keyToPath_normalized by done.
  destruct (ContainsByte (normalizePath key) nul); [done|].
  destruct (escapesRoot (config (storage st)) key); [done|].
  unfold CompressData. by destruct (EnableCompression (config (storage st))).
Qed.

(** *** [Sync] *)

Lemma syncLoop_unvisited cfg order dirty0 (d : D) k :
  k ∉ order.*1 → (syncLoop cfg order dirty0 d).1.1 !! k = dirty0 !! k.
Proof.
  revert dirty0 d. induction order as [|[key data] order IH]; intros dirty0 d Hk.
  { done. }
  simpl in Hk. apply not_elem_of_cons in Hk as [Hne Hk]. simpl.
  destruct (isDirty dirty0 key); [|by apply IH].
  destruct (keyToPath cfg (TrimPrefix key "/")) as [path|e]; [|done].
  destruct (os_MkdirAll d (filepath_Dir path) 493) as [d1 [e|]]; [done|].
  destruct (os_WriteFile d1 path data (FileMode cfg)) as [d2 [e|]]; [done|].
  rewrite IH by done. by rewrite lookup_delete_ne.
Qed.

Lemma syncLoop_clean cfg order dirty0 (d : D) :
  Forall (λ kv, isDirty dirty0 kv.1 = false) order →
  syncLoop cfg order dirty0 d = (dirty0, d, None).
Proof.
  induction 1 as [|[key data] order Hkey Horder IH]; [done|].
  simpl in *. by rewrite Hkey.
Qed.

Lemma isDirty_delete dirty0 k k' :
  isDirty (delete k dirty0) k' = true → isDirty dirty0 k' = true.
Proof.
  unfold isDirty. rewrite lookup_delete. by case_decide.
Qed.

Lemma syncLoop_success cfg order dirty0 (d : D) dirty1 d1 :
  syncLoop cfg order dirty0 d = (dirty1, d1, None) →
  (∀ k, isDirty dirty1 k = true → isDirty dirty0 k = true)
  ∧ Forall (λ kv, isDirty dirty1 kv.1 = false) order.
Proof.
  revert dirty0 d. induction order as [|[key data] order IH]; intros dirty0 d.
  { intros [= <- <-]. by split. }
  simpl. destruct (isDirty dirty0 key) eqn:Hkey.
  - destruct (keyToPath cfg (TrimPrefix key "/")) as [path|e]; [|done].
    destruct (os_MkdirAll d (filepath_Dir path) 493) as [d' [e|]]; [done|].
    destruct (os_WriteFile d' path data (FileMode cfg)) as [d'' [e|]]; [done|].
    intros [Hsub Hclean]%IH. split.
    + intros k Hk. by eapply isDirty_delete, Hsub.
    + constructor; [|done]. simpl.
      destruct (isDirty dirty1 key) eqn:E; [|done].
      apply Hsub in E. unfold isDirty in E. by rewrite lookup_delete_eq in E.
  - intros [Hsub Hclean]%IH. split; [done|]. constructor; [|done]. simpl.
    destruct (isDirty dirty1 key) eqn:E; [|done]. apply Hsub in E. congruence.
Qed.

End StorageFacts.

(** ** More on the metadata directory *)

Section MetaMoreFacts.

(** The parent of a normalized path is a normalized path, and differs
    from the path unless the path is the root. *)
Lemma Dir_normalized p :
  normalizePath (Dir (normalizePath p)) = Dir (normalizePath p)
  ∧ (normalizePath p ≠ "/" → Dir (normalizePath p) ≠ normalizePath p).
Proof.
  destruct (normalizePath_elements p) as ([|x stack] & Hst & ->).
  { split; [by vm_compute|done]. }
  pose proof (element_proper _ Hst) as Hp.
  rewrite Dir_renderS by done. inversion Hst; subst. split.
  - by apply normalizePath_renderS.
  - intros _ Heq. apply (f_equal String.length) in Heq.
    rewrite renderS_cons, length_app_s in Heq.
    change (String.length (String slash x)) with (S (String.length x)) in Heq.
    destruct stack as [|y st]; [|unfold parentPrefix in Heq; lia].
    change (String.length (renderS [])) with 1%nat in Heq.
    change (String.length (parentPrefix [])) with 0%nat in Heq.
    destruct H1 as [(Hne & _) _]. destruct x; [done|]. simpl in Heq. lia.
Qed.

Lemma pass_data s meta : data (pass s meta).1 = data s.
Proof. by destruct meta. Qed.

Lemma exec_keys_normalized s c now :
  keys_normalized s → keys_normalized (exec s c now).
Proof.
  unfold keys_normalized. intros Hs.
  destruct c as [p mode|p|p meta|p|p|p mode]; simpl.
  - destruct (Create_cases s p mode now)
      as [[e ->]|(? & ? & _ & _ & _ & _ & ->)]; [done|]. simpl.
    intros k e. rewrite lookup_insert. case_decide; [|by apply Hs].
    subst k. intros _. apply normalizePath_idem.
  - by destruct (Get_cases s p now) as [[e ->]|(? & ? & _ & _ & ->)].
  - pose proof (pass_data s meta) as Hd.
    destruct (pass s meta) as [s1 meta1]. simpl in *.
    destruct (Update_cases s1 p meta1 now) as [[e ->]|(? & ? & _ & _ & ->)];
      simpl; rewrite Hd; [done|].
    intros k e. rewrite lookup_insert. case_decide; [|by apply Hs].
    subst k. intros _. apply normalizePath_idem.
  - destruct (Delete_cases s p) as [[e ->]|(? & _ & ->)]; [done|]. simpl.
    intros k e [_ H]%lookup_delete_Some. by eapply Hs.
  - done.
  - destruct (Mkdir_cases s p mode now)
      as [[e ->]|(? & ? & _ & _ & _ & _ & ->)]; [done|]. simpl.
    intros k e. rewrite lookup_insert. case_decide; [|by apply Hs].
    subst k. intros _. apply normalizePath_idem.
Qed.

Lemma run_keys_normalized trace :
  ∀ s, keys_normalized s → keys_normalized (run s trace).
Proof.
  induction trace as [|[c now] trace IH]; intros s Hs; [done|].
  simpl. apply IH. by apply exec_keys_normalized.
Qed.

(** The tree depends on the keys and on the types of the entries. *)
Lemma parents_ok_same s s' :
  data s' = data s → (∀ q, Type_ <$> entry s' q = Type_ <$> entry s q) →
  parents_ok s → parents_ok s'.
Proof.
  intros Hd Hty Hs k meta Hk Hroot. rewrite Hd in Hk.
  destruct (Hs k meta Hk Hroot) as (pm & Hpm & Hdir).
  specialize (Hty (Dir k)). rewrite Hpm in Hty. simpl in Hty.
  destruct (entry s' (Dir k)) as [pm'|] eqn:E; [|done].
  exists pm'. split; [done|]. simpl in Hty. congruence.
Qed.

(** A new entry under an existing directory keeps the tree. *)
Lemma parents_ok_created s fp parentMeta pm record :
  valid s → parents_ok s →
  data s !! fp = None → data s !! Dir fp = Some parentMeta →
  heap s !! parentMeta = Some pm → Type_ pm = TypeDirectory →
  parents_ok (created s fp record).
Proof.
  intros Hv Hs Hnone Hparent Hpm Hty k meta. simpl.
  rewrite lookup_insert. case_decide as Hk.
  - subst k. intros _ Hroot. exists pm.
    rewrite entry_created by done.
    rewrite decide_False by congruence. split; [|done].
    apply entry_Some. by exists parentMeta.
  - intros He Hroot. destruct (Hs k meta He Hroot) as (pm' & Hpm' & Hty').
    exists pm'. rewrite entry_created by done. split; [|done].
    rewrite decide_False; [done|]. intros Heq.
    apply entry_Some in Hpm' as (? & Hd & _). congruence.
Qed.

(** Putting another pointer under a key keeps the tree when the record
    is a directory, has the type of the old one, or the entry has no
    children. *)
Lemma parents_ok_stored s k meta record record' :
  valid s → parents_ok s → is_Some (data s !! k) → normalizePath k = k →
  heap s !! meta = Some record → Type_ record' = Type_ record →
  (Type_ record = TypeDirectory
   ∨ (∃ old, entry s k = Some old ∧ Type_ record = Type_ old)
   ∨ childless s k) →
  parents_ok (stored s k meta record').
Proof.
  intros Hv Hs [oldMeta Hold] Hnorm Hr Hty' Hm q meta' Hq Hroot.
  simpl in Hq.
  assert (∃ e', data s !! q = Some e') as [e' He'].
  { revert Hq. rewrite lookup_insert. case_decide; [subst|]; eauto. }
  destruct (Hs q e' He' Hroot) as (pm & Hpm & Hty).
  pose proof (entry_stored_field Type_ s k meta record record' (Dir q) Hr Hty')
    as Hfield.
  destruct (decide (Dir q = k)) as [Hd|Hd].
  - exists record'. rewrite entry_stored, decide_True by done.
    split; [done|]. rewrite Hty'.
    destruct Hm as [Hm|[(old & Hold' & Hm)|Hm]]; [done| |].
    { rewrite Hd in Hpm. congruence. }
    destruct (decide (q = k)) as [->|Hqk].
    + (* a normalized path is its own parent only at the root *)
      exfalso. destruct (Dir_normalized k) as [_ Hne].
      rewrite Hnorm in Hne. by apply Hne.
    + exfalso. by apply (Hm q e' He' Hqk).
  - rewrite Hpm in Hfield.
    simpl in Hfield.
    destruct (entry (stored s k meta record') (Dir q)) as [pm'|] eqn:E;
      [|done].
    exists pm'. split; [done|]. simpl in Hfield. congruence.
Qed.

Lemma exec_parents_ok s c now :
  valid s → parents_ok s → keeps_tree s c → parents_ok (exec s c now).
Proof.
  intros Hv Hs Hc.
  destruct c as [p mode|p|p meta|p|p|p mode]; simpl.
  - destruct (Create_cases s p mode now)
      as [[e ->]|(parentMeta & pm & ? & ? & ? & ? & ->)]; [done|]. simpl.
    by eapply parents_ok_created.
  - destruct (Get_cases s p now) as [[e ->]|(meta & r & _ & Hr & ->)]; [done|].
    simpl. apply (parents_ok_same s); [done| |done].
    intros q. by apply (entry_written_field Type_ s meta r).
  - destruct (pass_spec s meta Hv) as (Hv1 & Hd1 & _ & He1 & Hp1).
    destruct (pass s meta) as [s1 meta1]. simpl in *.
    assert (parents_ok s1) as Hs1.
    { apply (parents_ok_same s); [done| |done]. intros q. by rewrite He1. }
    destruct (Update_cases s1 p meta1 now)
      as [[e ->]|(old & r & Hold & Hr & ->)]; [done|]. simpl.
    apply (parents_ok_stored s1 _ _ r); try done.
    + apply normalizePath_idem.
    + destruct (Hc r) as [?|[(old' & Hold' & ?)|Hch]]; [by rewrite <- Hp1|by left| |].
      * right; left. exists old'. by rewrite He1.
      * right; right. intros q meta'. rewrite Hd1. apply Hch.
  - destruct (Delete_cases s p) as [[e ->]|(old & _ & ->)]; [done|]. simpl.
    simpl in Hc. intros q meta Hq Hroot. simpl in Hq.
    apply lookup_delete_Some in Hq as [Hne Hq].
    destruct (Hs q meta Hq Hroot) as (pm & Hpm & Hty). exists pm.
    rewrite entry_removed. rewrite decide_False; [done|]. intros Heq.
    by apply (Hc q meta Hq).
  - done.
  - destruct (Mkdir_cases s p mode now)
      as [[e ->]|(parentMeta & pm & ? & ? & ? & ? & ->)]; [done|]. simpl.
    by eapply parents_ok_created.
Qed.

Lemma run_parents_ok trace :
  ∀ s, valid s → parents_ok s → tree_preserving s trace →
  parents_ok (run s trace).
Proof.
  induction trace as [|[c now] trace IH]; intros s Hv Hs Htr; [done|].
  destruct Htr as [Hc Htr]. simpl.
  apply IH; [by apply exec_valid| |done]. by apply exec_parents_ok.
Qed.

(** What a successful [Create] or [Mkdir] found and did. *)
Lemma Create_Ok_inv s p mode now s' meta :
  Create s p mode now = (s', Ok meta) →
  ∃ parentMeta pm,
    data s !! Dir (normalizePath p) = Some parentMeta
    ∧ heap s !! parentMeta = Some pm ∧ Type_ pm = TypeDirectory
    ∧ data s !! normalizePath p = None
    ∧ meta = fresh (dom (heap s))
    ∧ s' = created s (normalizePath p)
             (createdFile (uint64_incr (inodes s)) (Base (normalizePath p))
                mode now).
Proof.
  destruct (Create_cases s p mode now)
    as [[e ->]|(parentMeta & pm & ? & ? & ? & ? & ->)]; [done|].
  intros [= <- <-]. by exists parentMeta, pm.
Qed.

Lemma Mkdir_Ok_inv s p mode now s' :
  Mkdir s p mode now = (s', Ok ()) →
  ∃ parentMeta pm,
    data s !! Dir (normalizePath p) = Some parentMeta
    ∧ heap s !! parentMeta = Some pm ∧ Type_ pm = TypeDirectory
    ∧ data s !! normalizePath p = None
    ∧ s' = created s (normalizePath p)
             (createdDir (uint64_incr (inodes s)) (Base (normalizePath p))
                mode now).
Proof.
  destruct (Mkdir_cases s p mode now)
    as [[e ->]|(parentMeta & pm & ? & ? & ? & ? & ->)]; [done|].
  intros [= <-]. by exists parentMeta, pm.
Qed.

(** A normalized path followed by one more element. *)
Lemma normalizePath_child p x :
  element x → normalizePath p ≠ "/" →
  normalizePath (normalizePath p +:+ "/" +:+ x) = normalizePath p +:+ "/" +:+ x
  ∧ Dir (normalizePath p +:+ "/" +:+ x) = normalizePath p.
Proof.
  intros Hx Hroot.
  destruct (normalizePath_root_or_elem p) as [?|(y & stack & Hst & ->)]; [done|].
  assert (renderS (y :: stack) +:+ "/" +:+ x = renderS (x :: y :: stack)) as ->.
  { by rewrite (renderS_cons x (y :: stack)). }
  split.
  - apply normalizePath_renderS. by constructor.
  - apply Dir_renderS. apply element_proper. by constructor.
Qed.

(** The bits of a mode with the directory bit set. *)
Lemma ModeDir_bits mode :
  Z.testbit (Z.lor mode ModeDir) 31 = true
  ∧ (∀ i, i ≠ 31 → Z.testbit (Z.lor mode ModeDir) i = Z.testbit mode i).
Proof.
  change ModeDir with (2 ^ 31). split.
  - rewrite Z.lor_spec, Z.pow2_bits_true by lia. apply orb_true_r.
  - intros i Hi. rewrite Z.lor_spec, Z.pow2_bits_false by lia.
    apply orb_false_r.
Qed.

Lemma childlessb_spec s k : childlessb s k = true → childless s k.
Proof.
  unfold childlessb, childless. rewrite forallb_forall.
  intros H q m Hq Hne Hd.
  specialize (H (q, m)). simpl in H.
  rewrite (bool_decide_eq_false_2 (q = k)) in H by done.
  rewrite (bool_decide_eq_true_2 (Dir q = k)) in H by done.
  simpl in H. assert (false = true) by (apply H, list_elem_of_In;
    by apply elem_of_map_to_list). done.
Qed.

(** The pointers [List] returns for an existing directory. *)
Lemma List_elements s order p m :
  ranges (data s) order →
  entry s (normalizePath p) = Some m → Type_ m = TypeDirectory →
  ∃ results,
    List s order p = Ok results
    ∧ ∀ e, e ∈ results ↔
           ∃ q, data s !! q = Some e ∧ Dir q = normalizePath p
                ∧ q ≠ normalizePath p.
Proof.
  intros Horder (dirMeta & Hd & Hm)%entry_Some Hty. unfold List.
  rewrite Hd, Hm. rewrite bool_decide_eq_false_2 by naive_solver.
  eexists. split; [done|]. intros e.
  rewrite listLoop_filter. simpl. unfold ranges in Horder. rewrite Horder.
  rewrite list_elem_of_fmap. split.
  - intros ([q e'] & -> & [Hchild Hin]%list_elem_of_filter).
    apply elem_of_map_to_list in Hin. destruct Hchild. by exists q.
  - intros (q & Hq & Hdir & Hne). exists (q, e). split; [done|].
    apply list_elem_of_filter. split; [done|]. by apply elem_of_map_to_list.
Qed.

(** A path that has a parent entry but no entry of its own is not the
    root. *)
Lemma absent_with_parent s p parentMeta :
  data s !! Dir (normalizePath p) = Some parentMeta →
  data s !! normalizePath p = None →
  normalizePath p ≠ "/" ∧ Dir (normalizePath p) ≠ normalizePath p.
Proof.
  intros Hpm Hnone. split; [|congruence].
  intros Hroot. rewrite Hroot in *. change (Dir "/") with "/" in Hpm.
  congruence.
Qed.

(** The entries that were there are there after a creation. *)
Lemma entry_created_old s k record q meta m :
  data s !! q = Some meta → heap s !! meta = Some m → q ≠ k →
  entry (created s k record) q = Some m.
Proof.
  intros Hq Hm Hne. unfold entry, created. simpl.
  rewrite lookup_insert_ne by done. rewrite Hq. simpl.
  rewrite lookup_insert_ne; [done|]. intros <-. by rewrite fresh_heap in Hm.
Qed.

End MetaMoreFacts.

(** ** Making the directories of a path *)

Section ParentsFacts.

Lemma renderS_cons_length x st :
  (String.length (renderS st) + String.length x
   ≤ String.length (renderS (x :: st)))%nat.
Proof.
  rewrite renderS_cons, length_app_s. simpl.
  destruct st as [|y st]; simpl; lia.
Qed.

Lemma suffix_cons_cases {A} (sfx : list A) x st :
  sfx `suffix_of` x :: st → sfx = x :: st ∨ sfx `suffix_of` st.
Proof.
  intros [[|y k] Hk]; [by left|]. right. exists k.
  simpl in Hk. by injection Hk.
Qed.

Lemma renderS_suffix_length sfx st :
  sfx `suffix_of` st →
  (String.length (renderS sfx) ≤ String.length (renderS st))%nat.
Proof.
  induction st as [|x st IH]; intros Hs.
  - by apply suffix_nil_inv in Hs as ->.
  - apply suffix_cons_cases in Hs as [->|Hs]; [done|].
    pose proof (renderS_cons_length x st). specialize (IH Hs). lia.
Qed.

(** A path differs from the paths above it. *)
Lemma renderS_ne_ancestor x st sfx :
  x ≠ "" → sfx `suffix_of` st → renderS sfx ≠ renderS (x :: st).
Proof.
  intros Hx Hs Heq. apply (f_equal String.length) in Heq.
  pose proof (renderS_suffix_length sfx st Hs).
  pose proof (renderS_cons_length x st).
  destruct x; [done|]. simpl in *. lia.
Qed.

Lemma renderS_cons_not_root x st : x ≠ "" → renderS (x :: st) ≠ "/".
Proof.
  intros Hx Heq. apply (renderS_ne_ancestor x st [] Hx); [apply suffix_nil|].
  by rewrite Heq.
Qed.

Lemma createParentDirs_S fuel s pathStr nowGet nowMkdir :
  createParentDirs (S fuel) s pathStr nowGet nowMkdir
  = let pathStr := normalizePath pathStr in
    if String.eqb pathStr "/" then Some (s, None)
    else
      let parent := Dir pathStr in
      let parents :=
        if negb (String.eqb parent "/")
        then createParentDirs fuel s parent nowGet nowMkdir
        else Some (s, None) in
      match parents with
      | None => None
      | Some (s, Some err) => Some (s, Some err)
      | Some (s, None) =>
          match Get s pathStr (nowGet pathStr) with
          | (s, Ok _) => Some (s, None)
          | (s, Err NilDereference) => Some (s, Some NilDereference)
          | (s, Err _) =>
              match Mkdir s pathStr 0x1ed (nowMkdir pathStr) with
              | (s, Ok _) => Some (s, None)
              | (s, Err err) => Some (s, Some err)
              end
          end
      end.
Proof. reflexivity. Qed.

(** More fuel does not change a result. *)
Lemma createParentDirs_fuel fuel :
  ∀ s p nowGet nowMkdir r,
  createParentDirs fuel s p nowGet nowMkdir = Some r →
  createParentDirs (S fuel) s p nowGet nowMkdir = Some r.
Proof.
  induction fuel as [|fuel IH]; intros s p nowGet nowMkdir r; [done|].
  rewrite (createParentDirs_S (S fuel)), (createParentDirs_S fuel). cbv zeta.
  destruct (String.eqb (normalizePath p) "/"); [done|].
  destruct (negb (String.eqb (Dir (normalizePath p)) "/")); [|done].
  destruct (createParentDirs fuel s (Dir (normalizePath p)) nowGet nowMkdir)
    as [r'|] eqn:E; [|done].
  by rewrite (IH _ _ _ _ _ E).
Qed.

Lemma same_but_atime_refl m : same_but_atime m m.
Proof. exists (AccessTime m). by destruct m. Qed.

Lemma same_but_atime_step m m' t :
  same_but_atime m m' → same_but_atime m (with_AccessTime m' t).
Proof. intros [t' ->]. by exists t. Qed.

Lemma same_but_atime_Type m m' : same_but_atime m m' → Type_ m' = Type_ m.
Proof. by intros [t ->]. Qed.

(** What [createParentDirs] does when no file is in its way. *)
Lemma createParentDirs_ok stack :
  ∀ s p fuel nowGet nowMkdir,
  normalizePath p = renderS stack → Forall element stack →
  (length stack < fuel)%nat →
  valid s → root_ok s →
  (∀ sfx m, sfx `suffix_of` stack → sfx ≠ stack →
     entry s (renderS sfx) = Some m → Type_ m = TypeDirectory) →
  ∃ s', createParentDirs fuel s p nowGet nowMkdir = Some (s', None)
    ∧ valid s'
    ∧ (∀ sfx, sfx `suffix_of` stack →
         ∃ m, entry s' (renderS sfx) = Some m
              ∧ (Type_ m = TypeDirectory
                 ∨ sfx = stack ∧ is_Some (data s !! renderS stack)))
    ∧ (∀ q meta, data s !! q = Some meta → data s' !! q = Some meta)
    ∧ (∀ meta r, heap s !! meta = Some r →
         ∃ r', heap s' !! meta = Some r' ∧ same_but_atime r r')
    ∧ (∀ q, (∀ sfx, sfx `suffix_of` stack → q ≠ renderS sfx) →
         data s' !! q = data s !! q)
    ∧ (∀ meta r, heap s !! meta = Some r →
         (∀ sfx, sfx `suffix_of` stack → data s !! renderS sfx ≠ Some meta) →
         heap s' !! meta = Some r).
Proof.
  induction stack as [|x stack IH];
    intros s p fuel nowGet nowMkdir Hp Hst Hfuel Hv Hroot Hdirs.
  { destruct fuel as [|fuel]; [simpl in Hfuel; lia|].
    exists s. simpl. rewrite Hp. split; [done|]. split; [done|].
    split; [|split; [done|split; [|done]]].
    - intros sfx ->%suffix_nil_inv. destruct Hroot as (m & Hm & Hty).
      exists m. split; [done|by left].
    - intros meta r Hr. exists r. split; [done|apply same_but_atime_refl]. }
  destruct fuel as [|fuel]; [simpl in Hfuel; lia|]. simpl in Hfuel.
  pose proof (element_proper _ Hst) as Hpr.
  assert (x ≠ "") as Hx.
  { inversion Hpr as [|? ? (Hne & _) _]. done. }
  inversion Hst as [|? ? _ Hst']; subst.
  assert (∃ s1,
    (if negb (String.eqb (renderS stack) "/")
     then createParentDirs fuel s (renderS stack) nowGet nowMkdir
     else Some (s, None)) = Some (s1, None)
    ∧ valid s1
    ∧ (∀ sfx, sfx `suffix_of` stack →
         ∃ m, entry s1 (renderS sfx) = Some m ∧ Type_ m = TypeDirectory)
    ∧ (∀ q meta, data s !! q = Some meta → data s1 !! q = Some meta)
    ∧ (∀ meta r, heap s !! meta = Some r →
         ∃ r', heap s1 !! meta = Some r' ∧ same_but_atime r r')
    ∧ (∀ q, (∀ sfx, sfx `suffix_of` stack → q ≠ renderS sfx) →
         data s1 !! q = data s !! q)
    ∧ (∀ meta r, heap s !! meta = Some r →
         (∀ sfx, sfx `suffix_of` stack → data s !! renderS sfx ≠ Some meta) →
         heap s1 !! meta = Some r))
    as (s1 & Hrec & Hv1 & HA & HD & HE & HC & HF).
  { destruct (IH s (renderS stack) fuel nowGet nowMkdir)
      as (s1 & Hrec & Hv1 & HA & HD & HE & HC & HF).
    - by apply normalizePath_renderS.
    - done.
    - lia.
    - done.
    - done.
    - intros sfx m Hs Hne. apply Hdirs; [by apply suffix_cons_r|].
      intros ->. apply suffix_length in Hs. simpl in Hs. lia.
    - exists s1. split; [|split; [done|split; [|done]]].
      + destruct (String.eqb_spec (renderS stack) "/") as [Heq|Hne];
          [|exact Hrec].
        destruct fuel as [|fuel']; [lia|]. simpl in Hrec.
        rewrite normalizePath_renderS in Hrec by done.
        rewrite Heq in Hrec. simpl in Hrec. exact Hrec.
      + intros sfx Hs.
        destruct (HA sfx Hs) as (m & Hm & [Hty|[-> [oldMeta Hold]]]).
        * by exists m.
        * exists m. split; [done|].
          destruct (Hv _ _ Hold) as [old Hrecord].
          destruct (HE _ _ Hrecord) as (m' & Hm' & Hsame).
          assert (m' = m) as ->.
          { apply entry_Some in Hm as (meta' & Hd' & Hm).
            rewrite (HD _ _ Hold) in Hd'. congruence. }
          rewrite (same_but_atime_Type _ _ Hsame).
          apply (Hdirs stack old); [by apply suffix_cons_r| |].
          -- intros Heq. apply (f_equal length) in Heq. simpl in Heq. lia.
          -- apply entry_Some. by exists oldMeta. }
  assert (∀ sfx, sfx `suffix_of` stack → renderS sfx ≠ renderS (x :: stack))
    as Hanc.
  { intros sfx Hs. by apply renderS_ne_ancestor. }
  assert (data s1 !! renderS (x :: stack) = data s !! renderS (x :: stack))
    as Hself.
  { apply HC. intros sfx Hs Heq. by apply (Hanc sfx). }
  destruct (HA stack) as (pm & Hpm & Hpty); [done|].
  apply entry_Some in Hpm as (parentMeta & Hpd & Hpm).
  rewrite createParentDirs_S. cbv zeta. rewrite Hp.
  destruct (String.eqb_spec (renderS (x :: stack)) "/") as [Heq|_].
  { by apply renderS_cons_not_root in Heq. }
  rewrite Dir_renderS by done. rewrite Hrec.
  unfold Get. rewrite normalizePath_renderS by done.
  destruct (data s1 !! renderS (x :: stack)) as [meta|] eqn:Em.
  - (* the path has an entry: it is left as it is *)
    destruct (Hv1 _ _ Em) as [record Hrecord]. rewrite Hrecord.
    eexists. split; [reflexivity|].
    change {| data := data s1; inodes := inodes s1;
              heap := <[meta := with_AccessTime record
                                  (nowGet (renderS (x :: stack)))]> (heap s1) |}
      with (written s1 meta (with_AccessTime record
                               (nowGet (renderS (x :: stack))))).
    split; [by apply valid_written|].
    split; [|split; [|split; [|split]]].
    + intros sfx [->|Hs]%suffix_cons_cases.
      * rewrite entry_written, Em, decide_True by done.
        eexists. split; [done|]. right. split; [done|].
        rewrite <- Hself. by eexists.
      * destruct (HA sfx Hs) as (m' & Hm' & Hty').
        destruct (fmap_entry_Some Type_
                    (written s1 meta (with_AccessTime record
                       (nowGet (renderS (x :: stack))))) s1 (renderS sfx) m')
          as (m0 & Hm0 & Hty0).
        { symmetry. by apply (entry_written_field Type_ s1 meta record). }
        { done. }
        exists m0. split; [done|]. left. congruence.
    + intros q meta' Hq. simpl. by apply HD.
    + intros meta' r Hr. destruct (HE _ _ Hr) as (r' & Hr' & Hsame).
      simpl. rewrite lookup_insert. case_decide.
      * subst meta'. eexists. split; [done|].
        assert (r' = record) as -> by congruence.
        by apply same_but_atime_step.
      * by exists r'.
    + intros q Hq. simpl. apply HC. intros sfx Hs. apply Hq.
      by apply suffix_cons_r.
    + intros meta' r Hr Hoff. simpl. rewrite lookup_insert_ne.
      * apply HF; [done|]. intros sfx Hs. apply Hoff. by apply suffix_cons_r.
      * intros <-. apply (Hoff (x :: stack)); [done|]. by rewrite <- Hself.
  - (* the path has no entry: [Mkdir] makes it *)
    unfold Mkdir. rewrite normalizePath_renderS by done.
    rewrite Dir_renderS by done. rewrite Hpd, Hpm.
    rewrite bool_decide_eq_false_2 by (by intros Hn). rewrite Em. simpl.
    eexists. split; [reflexivity|].
    set (record := {| Inode := uint64_incr (inodes s1) |}).
    change {| data := <[renderS (x :: stack) := fresh (dom (heap s1))]> (data s1);
              inodes := uint64_incr (inodes s1);
              heap := <[fresh (dom (heap s1)) := record]> (heap s1) |}
      with (created s1 (renderS (x :: stack)) record).
    split; [by apply valid_created|].
    split; [|split; [|split; [|split]]].
    + intros sfx [->|Hs]%suffix_cons_cases.
      * rewrite entry_created, decide_True by done.
        eexists. split; [done|]. by left.
      * rewrite entry_created by done.
        rewrite decide_False by (intros Heq; by apply (Hanc sfx)).
        destruct (HA sfx Hs) as (m' & Hm' & Hty'). exists m'.
        split; [done|by left].
    + intros q meta' Hq. simpl. rewrite lookup_insert_ne; [by apply HD|].
      intros <-. apply HD in Hq. congruence.
    + intros meta' r Hr. destruct (HE _ _ Hr) as (r' & Hr' & Hsame).
      exists r'. split; [|done]. simpl. rewrite lookup_insert_ne; [done|].
      intros <-. by rewrite fresh_heap in Hr'.
    + intros q Hq. simpl. rewrite lookup_insert_ne.
      * apply HC. intros sfx Hs. apply Hq. by apply suffix_cons_r.
      * intros Heq. by apply (Hq (x :: stack)).
    + intros meta' r Hr Hoff. simpl.
      assert (heap s1 !! meta' = Some r) as Hr1.
      { apply HF; [done|]. intros sfx Hs. apply Hoff. by apply suffix_cons_r. }
      rewrite lookup_insert_ne; [done|].
      intros <-. by rewrite fresh_heap in Hr1.
Qed.

End ParentsFacts.

(** ** [path.Clean] on relative paths without [..] *)

Section CleanRelative.

Lemma outU_length stack :
  Forall proper stack → (length (outU stack) =? 0)%nat = bool_decide (stack = []).
Proof.
  destruct stack as [|x st]; [done|]. intros H.
  inversion H as [|? ? [Hx _] _]; subst.
  rewrite bool_decide_eq_false_2 by done. apply Nat.eqb_neq.
  simpl. rewrite length_app, length_rev. destruct x; [done|]. simpl. lia.
Qed.

Lemma outU_push x stack :
  rev (list_ascii_of_string x)
  ++ (if false || negb (bool_decide (stack = []))
      then slash :: outU stack else outU stack)
  = outU (x :: stack).
Proof. by destruct stack. Qed.

Lemma stepSegU_proper stack x :
  noSlash x → x ≠ ".." → Forall proper stack → Forall proper (stepSegU stack x).
Proof.
  intros Hx Hdd Hst. unfold stepSegU, keptU.
  destruct (String.eqb_spec x ""), (String.eqb_spec x "."); simpl; try done.
  by constructor.
Qed.

Lemma cleanStep_relative c x r stack dotdot :
  noSlash (String c x) → String c x ≠ ".." → elemEnd r = true →
  Forall proper stack →
  cleanStep false c (x +:+ r) (outU stack) dotdot
  = (r, outU (stepSegU stack (String c x)), dotdot).
Proof.
  intros Hns Hdd Hr Hst. pose proof Hns as Hns'.
  unfold noSlash in Hns'. simpl in Hns'.
  apply orb_false_elim in Hns' as [Hc Hx].
  unfold cleanStep. rewrite Hc.
  destruct (Ascii.eqb_spec c dot) as [->|Hdot].
  - destruct x as [|d x].
    { (* "." *) rewrite app_empty_l, Hr. done. }
    rewrite app_String. simpl in Hx. apply orb_false_elim in Hx as [Hd Hx].
    simpl elemEnd. rewrite Hd. simpl andb.
    destruct (Ascii.eqb_spec d dot) as [->|Hdot2].
    + destruct x as [|e x]; [done|].
      rewrite app_String. simpl in Hx. apply orb_false_elim in Hx as [He Hx].
      simpl elemEnd. rewrite He. simpl andb.
      rewrite outU_length by done.
      change (String dot (String dot (String e (x +:+ r))))
        with (String dot (String dot (String e x)) +:+ r).
      rewrite copyElem_app, outU_push by done. done.
    + simpl andb. cbv iota.
      rewrite outU_length by done.
      change (String dot (String d (x +:+ r)))
        with (String dot (String d x) +:+ r).
      rewrite copyElem_app, outU_push by done.
      unfold stepSegU, keptU. simpl. done.
  - simpl andb. cbv iota.
    rewrite outU_length by done.
    change (String c (x +:+ r)) with (String c x +:+ r).
    rewrite copyElem_app, outU_push by done.
    unfold stepSegU, keptU.
    replace (String.eqb (String c x) ".") with false; [done|].
    symmetry. apply String.eqb_neq. intros [= -> _]. done.
Qed.

Lemma cleanRun_seg_relative x r stack dotdot :
  noSlash x → x ≠ ".." → elemEnd r = true → Forall proper stack →
  cleanRun false (x +:+ r) (outU stack) dotdot
  = cleanRun false r (outU (stepSegU stack x)) dotdot.
Proof.
  intros Hx Hdd Hr Hst. destruct x as [|c x]; [done|].
  rewrite app_String, cleanRun_String. by rewrite cleanStep_relative.
Qed.

Lemma cleanRun_tailPath_relative segs out dotdot :
  cleanRun false (tailPath segs) out dotdot
  = cleanRun false (Join segs "/") out dotdot.
Proof.
  destruct segs as [|x segs]; [done|].
  rewrite tailPath_nonempty by done. by rewrite cleanRun_String.
Qed.

Lemma cleanRun_segs_relative segs dotdot :
  Forall (λ x, noSlash x ∧ x ≠ "..") segs → ∀ stack, Forall proper stack →
  cleanRun false (Join segs "/") (outU stack) dotdot
  = outU (fold_left stepSegU segs stack).
Proof.
  induction 1 as [|x segs [Hx Hdd] Hsegs IH]; intros stack Hst; [done|].
  rewrite Join_cons, cleanRun_seg_relative by (done || apply elemEnd_tailPath).
  rewrite cleanRun_tailPath_relative. rewrite IH by by apply stepSegU_proper.
  done.
Qed.

Lemma buf_string_outU stack : buf_string (outU stack) = Join (rev stack) "/".
Proof.
  unfold buf_string.
  induction stack as [|x st IH]; [done|].
  simpl outU. rewrite rev_app_distr, rev_involutive, string_of_list_ascii_app.
  rewrite string_of_list_ascii_of_string.
  destruct st as [|y st]; [done|].
  change (rev (slash :: outU (y :: st))) with (rev (outU (y :: st)) ++ [slash]).
  rewrite string_of_list_ascii_app, IH.
  change (rev (x :: y :: st)) with (rev (y :: st) ++ [x]).
  rewrite Join_snoc. 2:{ simpl. by destruct (rev st). }
  by rewrite !app_assoc_s.
Qed.

Lemma fold_stepSegU segs stack :
  fold_left stepSegU segs stack = rev (filter (λ x, keptU x = true) segs) ++ stack.
Proof.
  revert stack. induction segs as [|x segs IH]; intros stack; [done|].
  simpl. rewrite IH, filter_cons. unfold stepSegU.
  destruct (keptU x) eqn:E.
  - rewrite decide_True by done. simpl. by rewrite <- app_assoc.
  - rewrite decide_False by done. done.
Qed.

(** [path.Clean] of a relative path whose elements are free of [..]:
    the empty and [.] elements go, the others stay. *)
Lemma Clean_relative x segs :
  Forall (λ x, noSlash x ∧ x ≠ "..") (x :: segs) → x ≠ "" →
  Clean (Join (x :: segs) "/")
  = match filter (λ x, keptU x = true) (x :: segs) with
    | [] => "."
    | kept => Join kept "/"
    end.
Proof.
  intros Hsegs Hne. inversion Hsegs as [|? ? [Hx _] _]; subst.
  destruct x as [|c x]; [done|].
  unfold noSlash in Hx. simpl in Hx. apply orb_false_elim in Hx as [Hc _].
  unfold Clean. rewrite Join_cons.
  rewrite app_String. rewrite Hc. cbv beta iota zeta.
  change (String c (x +:+ tailPath segs)) with (String c x +:+ tailPath segs).
  rewrite <- Join_cons.
  fold (cleanRun false (Join (String c x :: segs) "/") [] 0).
  change (@nil ascii) with (outU []).
  rewrite cleanRun_segs_relative by done.
  rewrite fold_stepSegU, app_nil_r.
  set (kept := filter _ _).
  rewrite outU_length.
  2:{ apply Forall_rev. apply Forall_forall. intros y Hy.
      apply list_elem_of_filter in Hy as [Hk Hy].
      rewrite Forall_forall in Hsegs. destruct (Hsegs y Hy) as [? ?].
      unfold keptU in Hk. apply negb_true_iff, orb_false_elim in Hk as [H1 H2].
      apply String.eqb_neq in H1, H2. done. }
  rewrite buf_string_outU, rev_involutive.
  destruct kept as [|k kept'] eqn:E.
  - by rewrite bool_decide_eq_true_2.
  - rewrite bool_decide_eq_false_2; [done|].
    intros H. apply (f_equal (@length _)) in H. rewrite length_rev in H. done.
Qed.

Lemma filter_kept_proper segs :
  Forall proper segs → filter (λ x, keptU x = true) segs = segs.
Proof.
  induction 1 as [|x segs (H1 & H2 & _) _ IH]; [done|].
  rewrite filter_cons, IH, decide_True; [done|].
  unfold keptU. by rewrite (proj2 (String.eqb_neq _ _) H1),
    (proj2 (String.eqb_neq _ _) H2).
Qed.

Lemma proper_noSlash_nodd segs :
  Forall proper segs → Forall (λ x, noSlash x ∧ x ≠ "..") segs.
Proof. intros H. eapply Forall_impl; [exact H|]. by intros x (_ & _ & ? & ?). Qed.

(** A cleaned relative path is left as it is. *)
Lemma Clean_relative_proper segs :
  segs ≠ [] → Forall proper segs → Clean (Join segs "/") = Join segs "/".
Proof.
  intros Hne Hsegs. destruct segs as [|x segs]; [done|].
  inversion Hsegs as [|? ? (Hx & _) _]; subst.
  rewrite Clean_relative by (done || by apply proper_noSlash_nodd).
  by rewrite filter_kept_proper.
Qed.

Lemma Join_app segs1 segs2 :
  segs1 ≠ [] → segs2 ≠ [] →
  Join (segs1 ++ segs2) "/" = Join segs1 "/" +:+ "/" +:+ Join segs2 "/".
Proof.
  intros H1 H2. induction segs1 as [|x segs1 IH]; [done|].
  destruct segs1 as [|y segs1].
  - simpl app. rewrite Join_cons, tailPath_nonempty by done. done.
  - change ((x :: y :: segs1) ++ segs2) with (x :: ((y :: segs1) ++ segs2)).
    rewrite Join_cons, tailPath_nonempty by done.
    rewrite IH by done. rewrite (Join_cons x), tailPath_nonempty by done.
    change (String slash ?s) with ("/" +:+ s).
    by rewrite !app_assoc_s.
Qed.

Lemma HasPrefix_app a b : HasPrefix (a +:+ b) a = true.
Proof.
  induction a as [|c a IH]; [done|]. rewrite app_String. simpl.
  by rewrite Ascii.eqb_refl.
Qed.

End CleanRelative.

(** ** Locations under a cleaned root directory *)

Section LocationFacts.

Local Arguments Ascii.eqb : simpl never.

Lemma TrimPrefix_app a b : TrimPrefix (a +:+ b) a = b.
Proof. unfold TrimPrefix. by rewrite HasPrefix_app, slice_from_app. Qed.

Lemma ReplaceAll_same s c : ReplaceAll s c c = s.
Proof.
  induction s as [|d s IH]; [done|]. simpl. rewrite IH.
  by destruct (Ascii.eqb_spec d c) as [->|].
Qed.

Lemma renderS_not_root x stack : renderS (x :: stack) ≠ "/" ∨ x = "".
Proof.
  destruct x as [|c x]; [by right|]. left.
  rewrite renderS_cons. intros H. apply (f_equal String.length) in H.
  rewrite length_app_s in H. simpl in H. lia.
Qed.

Lemma relative_elements x stack :
  TrimPrefix (renderS (x :: stack)) "/" = Join (rev (x :: stack)) "/".
Proof. done. Qed.

Lemma rev_cons_nonempty {A} (x : A) l : rev (x :: l) ≠ [].
Proof. simpl. by destruct (rev l). Qed.

Lemma Join_proper_head segs :
  segs ≠ [] → Forall proper segs →
  ∃ c r, c ≠ slash ∧ Join segs "/" = String c r.
Proof.
  intros Hne Hsegs. destruct segs as [|y l]; [done|].
  inversion Hsegs as [|? ? (Hy & _ & _ & Hns) _]; subst.
  rewrite Join_cons. destruct y as [|c y]; [done|].
  exists c, (y +:+ tailPath l). split; [|done].
  unfold noSlash in Hns. simpl in Hns.
  apply orb_false_elim in Hns as [Hc _]. by apply Ascii.eqb_neq.
Qed.

(** Joining the root and a key, as [keyToPath] does. *)
Lemma location_Join cfg x stack :
  cleanedRoot cfg → Forall proper (x :: stack) →
  let nk := renderS (x :: stack) in
  filepath_Join [RootDir cfg; TrimPrefix nk "/"] = location cfg nk
  ∧ Clean (location cfg nk) = location cfg nk
  ∧ HasPrefix (location cfg nk) (RootDir cfg) = true.
Proof.
  intros Hroot Hst nk. unfold nk at 1. rewrite relative_elements.
  set (rel := rev (x :: stack)).
  assert (rel ≠ []) as Hrel by apply rev_cons_nonempty.
  assert (Forall proper rel) as Hprel by by apply Forall_rev.
  assert (nk = "/" +:+ Join rel "/") as Hnk by done.
  unfold location.
  destruct Hroot as [(stackR & HstR & HR)|(segsR & Hne & HsegsR & HR)].
  - (* an absolute root *)
    rewrite HR. destruct stackR as [|y stR].
    + (* the root is "/" *)
      change (renderS []) with "/". simpl String.eqb. cbv iota.
      assert (filepath_Join ["/"; Join rel "/"] = nk) as ->.
      { unfold filepath_Join. simpl String.eqb. cbv iota.
        unfold filepath_Clean.
        change (Join ["/"; Join rel "/"] "/") with ("/" +:+ "/" +:+ Join rel "/").
        replace ("/" +:+ Join rel "/") with (Join ("" :: rel) "/").
        2:{ rewrite Join_cons, tailPath_nonempty by done. done. }
        rewrite Clean_rooted_segs.
        2:{ constructor; [done|]. eapply Forall_impl; [exact Hprel|].
            by intros z (_ & _ & _ & ?). }
        unfold resolve. simpl fold_left.
        change (stepSeg [] "") with (@nil string).
        fold (resolve [] rel). rewrite resolve_proper_segs by done.
        unfold rel. by rewrite rev_involutive, app_nil_r. }
      split; [done|]. split; [by apply Clean_renderS|done].
    + (* a root with elements *)
      set (R := renderS (y :: stR)).
      assert (R ≠ "/") as HRne.
      { destruct (renderS_not_root y stR) as [? | ->]; [done|].
        by inversion HstR as [|? ? (? & _) _]. }
      rewrite (proj2 (String.eqb_neq _ _) HRne).
      assert (R +:+ nk = renderS (x :: stack ++ y :: stR)) as Hloc.
      { unfold R, renderS. rewrite Hnk.
        change (rev (x :: stack ++ y :: stR))
          with (rev ((x :: stack) ++ y :: stR)).
        rewrite rev_app_distr. fold rel.
        rewrite Join_app by (done || apply rev_cons_nonempty).
        by rewrite !app_assoc_s. }
      assert (Forall proper (x :: stack ++ y :: stR)) as Hall.
      { change (x :: stack ++ y :: stR) with ((x :: stack) ++ y :: stR).
        by apply Forall_app. }
      assert (filepath_Join [R; Join rel "/"] = R +:+ nk) as ->.
      { unfold filepath_Join.
        replace (String.eqb R "") with false by done.
        unfold filepath_Clean.
        change (Join [R; Join rel "/"] "/") with (R +:+ "/" +:+ Join rel "/").
        change (R +:+ "/" +:+ Join rel "/") with (R +:+ nk).
        rewrite Hloc. by apply Clean_renderS. }
      split; [done|]. split; [|apply HasPrefix_app].
      rewrite Hloc. by apply Clean_renderS.
  - (* a relative root *)
    destruct (Join_proper_head segsR Hne HsegsR) as (c & r & Hc & Hhead).
    assert (RootDir cfg ≠ "/") as HRne.
    { rewrite HR, Hhead. intros [= -> _]. done. }
    rewrite (proj2 (String.eqb_neq _ _) HRne).
    assert (RootDir cfg +:+ nk = Join (segsR ++ rel) "/") as Hloc.
    { rewrite HR, Hnk, Join_app by done. done. }
    assert (Clean (RootDir cfg +:+ nk) = RootDir cfg +:+ nk) as Hclean.
    { rewrite Hloc. apply Clean_relative_proper.
      - by destruct segsR.
      - by apply Forall_app. }
    split; [|split; [done|apply HasPrefix_app]].
    unfold filepath_Join.
    replace (String.eqb (RootDir cfg) "") with false.
    2:{ symmetry. apply String.eqb_neq. by rewrite HR, Hhead. }
    unfold filepath_Clean.
    change (Join [RootDir cfg; Join rel "/"] "/")
      with (RootDir cfg +:+ "/" +:+ Join rel "/").
    change (RootDir cfg +:+ "/" +:+ Join rel "/") with (RootDir cfg +:+ nk).
    done.
Qed.

(** [keyToPath] under a cleaned root: no key escapes, and the location
    is the root followed by the key. *)
Lemma keyToPath_cleaned cfg key :
  cleanedRoot cfg → normalizePath key ≠ "/" →
  escapesRoot cfg key = false
  ∧ keyToPath cfg (TrimPrefix (normalizePath key) "/")
    = if ContainsByte (normalizePath key) nul then Err InvalidCharacters
      else Ok (location cfg (normalizePath key)).
Proof.
  intros Hroot Hne.
  destruct (normalizePath_root_or_elem key) as [?|(x & stack & Hst & Hx)]; [done|].
  apply element_proper in Hst.
  destruct (location_Join cfg x stack Hroot Hst) as (Hjoin & Hclean & Hpre).
  assert (escapesRoot cfg key = false) as Hesc.
  { unfold escapesRoot. rewrite Hx, Hjoin. unfold filepath_Clean.
    by rewrite Hclean, Hpre. }
  split; [done|]. rewrite keyToPath_normalized, Hesc by done.
  by rewrite Hx, Hjoin.
Qed.

(** [pathToKey] undoes the mapping of a key to its location. *)
Lemma pathToKey_location cfg key :
  cleanedRoot cfg → normalizePath key ≠ "/" →
  pathToKey cfg (location cfg (normalizePath key)) = normalizePath key.
Proof.
  intros Hroot Hne.
  destruct (normalizePath_root_or_elem key) as [?|(x & stack & Hst & Hx)]; [done|].
  apply element_proper in Hst. rewrite Hx.
  destruct (relative_key x stack Hst) as (c & r & Hc & Hrel).
  assert (renderS (x :: stack) = "/" +:+ String c r) as Hnk.
  { rewrite <- Hrel. done. }
  unfold pathToKey, location, Separator.
  destruct (String.eqb_spec (RootDir cfg) "/") as [HR|HR].
  - rewrite HR. change (TrimPrefix (renderS (x :: stack)) "/")
      with (Join (rev (x :: stack)) "/").
    change (Join (rev (x :: stack)) "/")
      with (TrimPrefix (renderS (x :: stack)) "/").
    rewrite Hrel, TrimPrefix_not_slash, ReplaceAll_same by done.
    by rewrite Hnk.
  - rewrite TrimPrefix_app.
    change (TrimPrefix (renderS (x :: stack)) (String slash ""))
      with (TrimPrefix (renderS (x :: stack)) "/").
    rewrite Hrel, ReplaceAll_same. by rewrite Hnk.
Qed.

(** A cleaned relative path does not start with [./]. *)
Lemma Join_proper_not_dotted segs r :
  segs ≠ [] → Forall proper segs → HasPrefix (Join segs "/") ("./" +:+ r) = false.
Proof.
  intros Hne Hsegs. destruct segs as [|y l]; [done|].
  inversion Hsegs as [|? ? (Hy & Hdot & _ & Hns) _]; subst.
  rewrite Join_cons. destruct y as [|c y]; [done|].
  unfold noSlash in Hns. simpl in Hns. apply orb_false_elim in Hns as [Hc Hns].
  rewrite app_String.
  change (HasPrefix (String c ?s) ("./" +:+ r))
    with (Ascii.eqb dot c && HasPrefix s ("/" +:+ r)).
  destruct (Ascii.eqb_spec dot c) as [<-|]; [|done]. simpl andb.
  destruct y as [|d y]; [done|].
  simpl in Hns. apply orb_false_elim in Hns as [Hd _].
  rewrite app_String.
  change (HasPrefix (String d ?s) ("/" +:+ r))
    with (Ascii.eqb slash d && HasPrefix s r).
  replace (Ascii.eqb "/"%char d) with false
    by (symmetry; rewrite Ascii.eqb_sym; exact Hd).
  done.
Qed.

(** Under a root written with a leading [./], the prefix check of
    [validatePath] fails for every key. *)
Lemma dotted_escapes cfg key :
  dottedRoot cfg → normalizePath key ≠ "/" → escapesRoot cfg key = true.
Proof.
  intros (segsR & Hne & HsegsR & HR) Hroot.
  destruct (normalizePath_root_or_elem key) as [?|(x & stack & Hst & Hx)]; [done|].
  apply element_proper in Hst.
  unfold escapesRoot. rewrite Hx, relative_elements.
  set (rel := rev (x :: stack)).
  assert (rel ≠ []) as Hrel by apply rev_cons_nonempty.
  assert (Forall proper rel) as Hprel by by apply Forall_rev.
  assert (RootDir cfg = Join ("." :: segsR) "/") as HR'.
  { rewrite HR, Join_cons, tailPath_nonempty by done. done. }
  assert (filepath_Join [RootDir cfg; Join rel "/"] = Join (segsR ++ rel) "/")
    as ->.
  { unfold filepath_Join.
    replace (String.eqb (RootDir cfg) "") with false by by rewrite HR.
    unfold filepath_Clean.
    change (Join [RootDir cfg; Join rel "/"] "/")
      with (RootDir cfg +:+ "/" +:+ Join rel "/").
    rewrite HR', <- Join_app by done.
    change (("." :: segsR) ++ rel) with ("." :: (segsR ++ rel)).
    rewrite Clean_relative; [|constructor; [done|]|done].
    2:{ apply proper_noSlash_nodd. by apply Forall_app. }
    rewrite filter_cons. rewrite decide_False by done.
    rewrite filter_kept_proper by by apply Forall_app.
    destruct (segsR ++ rel) eqn:E; [by destruct segsR|done]. }
  unfold filepath_Clean.
  rewrite Clean_relative_proper; [| by destruct segsR | by apply Forall_app].
  rewrite HR, Join_proper_not_dotted; [done| by destruct segsR | by apply Forall_app].
Qed.

End LocationFacts.

(** ** More on the storage cache *)

Global Instance MemDisk_lawful : LawfulFileSystem (gmap string bytes).
Proof.
  split; unfold content; simpl.
  - intros d path data mode d' [= <-]. by rewrite lookup_insert_eq.
  - intros d path data mode d' r path' [= <- <-] Hne.
    by rewrite lookup_insert_ne.
  - by intros d dir mode d' r path data [= <- <-].
  - intros d path d' r Hrem _. exists ErrNotExist. split; [|done].
    destruct (d !! path) eqn:E.
    + injection Hrem as <- <-. by rewrite lookup_delete_eq.
    + injection Hrem as <- <-. by rewrite E.
  - intros d path d' r path' Hrem Hne.
    destruct (d !! path); injection Hrem as <- <-; [|done].
    by rewrite lookup_delete_ne.
  - done.
Qed.

Section StorageMoreFacts.

Context {D : Type} `{!FileSystem D}.

(** What a successful [Save] did. *)
Lemma Save_Ok_inv (st : State D) key data st' :
  Save st key data = (st', None) →
  st' = with_storage st (<[normalizePath key := data]> (cache (storage st)))
          (<[normalizePath key := true]> (dirty (storage st)))
  ∧ key ≠ "" ∧ normalizePath key ≠ "/"
  ∧ ∃ path, keyToPath (config (storage st))
              (TrimPrefix (normalizePath key) "/") = Ok path.
Proof.
  unfold Save. destruct (String.eqb_spec key ""); [done|].
  destruct (String.eqb_spec (normalizePath key) "/"); [done|].
  destruct (keyToPath _ _) as [path|e] eqn:E; [|done].
  unfold CompressData.
  destruct (EnableCompression (config (storage st))); simpl;
    intros [= <-]; eauto.
Qed.

Lemma syncLoop_frame `{!LawfulFileSystem D} cfg order dirty0 (d : D) path data0 :
  (∀ k data, (k, data) ∈ order → keyToPath cfg (TrimPrefix k "/") ≠ Ok path) →
  content d path = Ok data0 →
  content (syncLoop cfg order dirty0 d).1.2 path = Ok data0.
Proof.
  revert dirty0 d. induction order as [|[key data] order IH];
    intros dirty0 d Hp Hd.
  { done. }
  assert (∀ k data', (k, data') ∈ order →
            keyToPath cfg (TrimPrefix k "/") ≠ Ok path) as Hp'.
  { intros k data' Hin. apply (Hp k data'). by right. }
  simpl. destruct (isDirty dirty0 key); [|by apply IH].
  destruct (keyToPath cfg (TrimPrefix key "/")) as [p|e] eqn:Ek; [|done].
  assert (path ≠ p) as Hne.
  { intros ->. by apply (Hp key data); [left|]. }
  destruct (os_MkdirAll d (filepath_Dir p) 493) as [d1 r1] eqn:E1.
  pose proof (read_after_mkdir _ _ _ _ _ path data0 E1 Hd) as H1.
  destruct r1 as [e|]; [done|].
  destruct (os_WriteFile d1 p data (FileMode cfg)) as [d2 r2] eqn:E2.
  pose proof (read_other_write _ _ _ _ _ _ path E2 Hne) as H2.
  destruct r2 as [e|]; simpl; [congruence|].
  apply IH; [done|congruence].
Qed.

(** A key whose flag [Sync] cleared was written to its location, and
    nothing written later went to the same location. *)
Lemma syncLoop_durable `{!LawfulFileSystem D} cfg order dirty0 (d : D) :
  NoDup order.*1 →
  (∀ k1 k2 d1 d2 p, (k1, d1) ∈ order → (k2, d2) ∈ order →
     keyToPath cfg (TrimPrefix k1 "/") = Ok p →
     keyToPath cfg (TrimPrefix k2 "/") = Ok p → k1 = k2) →
  ∀ k data p, (k, data) ∈ order →
    isDirty dirty0 k = true →
    isDirty (syncLoop cfg order dirty0 d).1.1 k = false →
    keyToPath cfg (TrimPrefix k "/") = Ok p →
    content (syncLoop cfg order dirty0 d).1.2 p = Ok data.
Proof.
  revert dirty0 d. induction order as [|[key data0] order IH];
    intros dirty0 d Hnd Hinj k data p Hin Hk Hclean Hp.
  { by apply elem_of_nil in Hin. }
  simpl in Hnd. apply NoDup_cons in Hnd as [Hfresh Hnd].
  assert (∀ k1 k2 d1 d2 p, (k1, d1) ∈ order → (k2, d2) ∈ order →
     keyToPath cfg (TrimPrefix k1 "/") = Ok p →
     keyToPath cfg (TrimPrefix k2 "/") = Ok p → k1 = k2) as Hinj'.
  { intros k1 k2 d1 d2 q H1 H2. apply (Hinj k1 k2 d1 d2 q); by right. }
  simpl in *. apply elem_of_cons in Hin as [[= -> ->]|Hin].
  - (* the key at the head of the iteration *)
    rewrite Hk in *. rewrite Hp in *.
    destruct (os_MkdirAll d (filepath_Dir p) 493) as [d1 [e|]] eqn:E1;
      [simpl in Hclean; congruence|].
    destruct (os_WriteFile d1 p data0 (FileMode cfg)) as [d2 [e|]] eqn:E2;
      [simpl in Hclean; congruence|].
    apply syncLoop_frame.
    2:{ by eapply read_after_write. }
    + intros k' data' Hin' Hk'. apply Hfresh.
      assert (k' = key) as <-.
      { apply (Hinj k' key data' data0 p); [by right|by left|done..]. }
      apply list_elem_of_fmap. by exists (k', data').
  - (* a later key *)
    assert (k ≠ key) as Hne.
    { intros ->. apply Hfresh. apply list_elem_of_fmap. by exists (key, data). }
    destruct (isDirty dirty0 key) eqn:Ekey; [|by eapply IH].
    destruct (keyToPath cfg (TrimPrefix key "/")) as [p0|e] eqn:Ek;
      [|simpl in Hclean; congruence].
    destruct (os_MkdirAll d (filepath_Dir p0) 493) as [d1 [e|]] eqn:E1;
      [simpl in Hclean; congruence|].
    destruct (os_WriteFile d1 p0 data0 (FileMode cfg)) as [d2 [e|]] eqn:E2;
      [simpl in Hclean; congruence|].
    eapply IH; try done.
    unfold isDirty. rewrite lookup_delete_ne by done. exact Hk.
Qed.

(** [Sync] writes to the locations of dirty keys only. *)
Lemma syncLoop_frame_dirty `{!LawfulFileSystem D} cfg order dirty0 (d : D)
    path data0 :
  (∀ k data, (k, data) ∈ order → isDirty dirty0 k = true →
     keyToPath cfg (TrimPrefix k "/") ≠ Ok path) →
  content d path = Ok data0 →
  content (syncLoop cfg order dirty0 d).1.2 path = Ok data0.
Proof.
  revert dirty0 d. induction order as [|[key data] order IH];
    intros dirty0 d Hp Hd.
  { done. }
  simpl. destruct (isDirty dirty0 key) eqn:Hkey.
  - destruct (keyToPath cfg (TrimPrefix key "/")) as [p|e] eqn:Ek; [|done].
    assert (path ≠ p) as Hne.
    { intros ->. by apply (Hp key data); [left|..]. }
    destruct (os_MkdirAll d (filepath_Dir p) 493) as [d1 r1] eqn:E1.
    pose proof (read_after_mkdir _ _ _ _ _ path data0 E1 Hd) as H1.
    destruct r1 as [e|]; [done|].
    destruct (os_WriteFile d1 p data (FileMode cfg)) as [d2 r2] eqn:E2.
    pose proof (read_other_write _ _ _ _ _ _ path E2 Hne) as H2.
    destruct r2 as [e|]; simpl; [congruence|].
    apply IH; [|congruence].
    intros k data' Hin Hk. apply (Hp k data'); [by right|].
    by eapply isDirty_delete.
  - apply IH; [|done].
    intros k data' Hin Hk. apply (Hp k data'); [by right|done].
Qed.

(** The only errors of the loop of [Sync] on keys that have a location
    are those of the host. *)
Lemma syncLoop_errors cfg order dirty0 (d : D) e :
  (∀ k data, (k, data) ∈ order →
     ∃ path, keyToPath cfg (TrimPrefix k "/") = Ok path) →
  (syncLoop cfg order dirty0 d).2 = Some e →
  (∃ dir e', e = FailedToCreateDirectory dir e')
  ∨ (∃ path e', e = FailedToWriteFile path e').
Proof.
  revert dirty0 d. induction order as [|[key data] order IH]; intros dirty0 d Hp.
  { done. }
  assert (∀ k data', (k, data') ∈ order →
            ∃ path, keyToPath cfg (TrimPrefix k "/") = Ok path) as Hp'.
  { intros k data' Hin. apply (Hp k data'). by right. }
  simpl. destruct (isDirty dirty0 key); [|by apply IH].
  destruct (Hp key data) as [p ->]; [by left|].
  destruct (os_MkdirAll d (filepath_Dir p) 493) as [d1 [e1|]];
    [intros [= <-]; left; by eexists _, _|].
  destruct (os_WriteFile d1 p data (FileMode cfg)) as [d2 [e2|]];
    [intros [= <-]; right; by eexists _, _|].
  by apply IH.
Qed.

(** No call changes the configuration. *)
Lemma storageExec_config (st : State D) c :
  config (storage (storageExec st c)) = config (storage st).
Proof.
  destruct c as [key data|key|key|order]; simpl.
  - rewrite Save_eq. by repeat case_match.
  - unfold Load. by repeat case_match.
  - unfold StorageDelete. by repeat case_match.
  - unfold Sync. by repeat case_match.
Qed.

Lemma storageRun_config (st : State D) calls :
  config (storage (storageRun st calls)) = config (storage st).
Proof.
  revert st. induction calls as [|c calls IH]; intros st; [done|].
  change (storageRun st (c :: calls)) with (storageRun (storageExec st c) calls).
  by rewrite IH, storageExec_config.
Qed.

(** Every call keeps the cached keys valid. *)
Lemma storageExec_cache_valid (st : State D) c :
  cache_valid (storage st) → cache_valid (storage (storageExec st c)).
Proof.
  intros Hv. destruct c as [key data|key|key|order]; simpl.
  - destruct (Save st key data) as [st' [e|]] eqn:E.
    + rewrite Save_eq in E. simpl.
      repeat case_match; by simplify_eq.
    + apply Save_Ok_inv in E as (-> & _ & _ & path & Hpath).
      intros k data' Hk. simpl in *.
      destruct (decide (k = normalizePath key)) as [->|Hne]; [by exists path|].
      rewrite lookup_insert_ne in Hk by done. by eapply Hv.
  - unfold Load.
    destruct (cache (storage st) !! normalizePath key) eqn:Ec; [done|].
    destruct (keyToPath _ _) as [path|e] eqn:Ek; [|done].
    destruct (os_ReadFile (disk st) path) as [d [data|e]]; simpl;
      [|by destruct (IsNotExist e)].
    + unfold DecompressData.
      assert (cache_valid (storage (with_storage (with_disk st d)
                (<[normalizePath key := data]> (cache (storage st)))
                (dirty (storage st))))) as Hv'.
      { intros k data' Hk. simpl in *.
        destruct (decide (k = normalizePath key)) as [->|Hne]; [by exists path|].
        rewrite lookup_insert_ne in Hk by done. by eapply Hv. }
      by destruct (EnableCompression (config (storage st))).
  - assert (cache_valid (storage (with_storage st
              (delete (normalizePath key) (cache (storage st)))
              (<[normalizePath key := true]> (dirty (storage st)))))) as Hv'.
    { intros k data' Hk. simpl in *.
      apply lookup_delete_Some in Hk as [_ Hk]. by eapply Hv. }
    unfold StorageDelete. destruct (keyToPath _ _) as [path|e]; [|done].
    simpl. destruct (os_Remove (disk st) path) as [d [e|]]; [|done].
    by destruct (IsNotExist e).
  - unfold Sync. by destruct (syncLoop _ _ _ _) as [[? ?] ?].
Qed.

Lemma storageRun_cache_valid (st : State D) calls :
  cache_valid (storage st) → cache_valid (storage (storageRun st calls)).
Proof.
  revert st. induction calls as [|c calls IH]; intros st Hv; [done|].
  change (storageRun st (c :: calls)) with (storageRun (storageExec st c) calls).
  apply IH. by apply storageExec_cache_valid.
Qed.

End StorageMoreFacts.

Section CoherenceFacts.

Context {D : Type} `{!FileSystem D} `{!LawfulFileSystem D}.

Lemma located_Ok cfg key path :
  cleanedRoot cfg →
  keyToPath cfg (TrimPrefix (normalizePath key) "/") = Ok path →
  normalizePath key ≠ "/" ∧ path = location cfg (normalizePath key).
Proof.
  intros Hroot Hpath.
  destruct (decide (normalizePath key = "/")) as [Heq|Hne].
  { rewrite Heq in Hpath. by rewrite keyToPath_root in Hpath. }
  split; [done|].
  destruct (keyToPath_cleaned cfg key Hroot Hne) as [_ Hk].
  rewrite Hk in Hpath. destruct (ContainsByte _ _); congruence.
Qed.

Lemma location_inj cfg k1 k2 :
  cleanedRoot cfg →
  normalizePath k1 = k1 → k1 ≠ "/" → normalizePath k2 = k2 → k2 ≠ "/" →
  location cfg k1 = location cfg k2 → k1 = k2.
Proof.
  intros Hroot H1 Hne1 H2 Hne2 Hloc.
  rewrite <- H1, <- H2.
  rewrite <- (pathToKey_location cfg k1 Hroot) by by rewrite H1.
  rewrite <- (pathToKey_location cfg k2 Hroot) by by rewrite H2.
  by rewrite H1, H2, Hloc.
Qed.

Lemma Save_Err_inv (st : State D) key data st' e :
  Save st key data = (st', Some e) → st' = st.
Proof. rewrite Save_eq. intros E. repeat case_match; by simplify_eq. Qed.

Lemma isDirty_insert_ne dirty0 k k' b :
  k ≠ k' → isDirty (<[k' := b]> dirty0) k = isDirty dirty0 k.
Proof. intros Hne. unfold isDirty. by rewrite lookup_insert_ne. Qed.

Lemma Save_coherent (st : State D) key data :
  cleanedRoot (config (storage st)) →
  keys_located (storage st) → coherent st →
  keys_located (storage (Save st key data).1) ∧ coherent (Save st key data).1.
Proof.
  intros Hroot Hloc Hco.
  destruct (Save st key data) as [st' [e|]] eqn:E.
  { apply Save_Err_inv in E as ->. by split. }
  apply Save_Ok_inv in E as (-> & _ & Hne & path & Hpath).
  destruct (located_Ok _ _ _ Hroot Hpath) as [_ ->].
  split.
  - intros k data' Hk. simpl in *.
    destruct (decide (k = normalizePath key)) as [->|Hk'].
    + split; [apply normalizePath_idem|]. by split.
    + rewrite lookup_insert_ne in Hk by done. by eapply Hloc.
  - intros k data' Hk Hclean. simpl in *.
    destruct (decide (k = normalizePath key)) as [->|Hk'].
    + unfold isDirty in Hclean. by rewrite lookup_insert_eq in Hclean.
    + rewrite lookup_insert_ne in Hk by done.
      rewrite isDirty_insert_ne in Hclean by done. by eapply Hco.
Qed.

Lemma Load_coherent (st : State D) key :
  cleanedRoot (config (storage st)) →
  keys_located (storage st) → coherent st →
  keys_located (storage (Load st key).1) ∧ coherent (Load st key).1.
Proof.
  intros Hroot Hloc Hco. unfold Load.
  destruct (cache (storage st) !! normalizePath key) eqn:Ec; [by split|].
  destruct (keyToPath _ _) as [path|e] eqn:Ek; [|by split].
  destruct (located_Ok _ _ _ Hroot Ek) as [Hne ->].
  destruct (os_ReadFile (disk st) _) as [d r] eqn:Er.
  assert (∀ path', content d path' = content (disk st) path') as Hread.
  { intros path'.
    rewrite <- (read_after_read (disk st)
                  (location (config (storage st)) (normalizePath key)) path').
    by rewrite Er. }
  assert (coherent (with_disk st d)) as Hco'.
  { intros k data' Hk Hclean. simpl in *. rewrite Hread. by eapply Hco. }
  destruct r as [data|e]; simpl; [|by destruct (IsNotExist e)].
  unfold DecompressData.
  assert (keys_located (storage (with_storage (with_disk st d)
            (<[normalizePath key := data]> (cache (storage st)))
            (dirty (storage st))))
          ∧ coherent (with_storage (with_disk st d)
            (<[normalizePath key := data]> (cache (storage st)))
            (dirty (storage st)))) as Hres.
  { split.
    - intros k data' Hk. simpl in *.
      destruct (decide (k = normalizePath key)) as [->|Hk'].
      + split; [apply normalizePath_idem|]. by split.
      + rewrite lookup_insert_ne in Hk by done. by eapply Hloc.
    - intros k data' Hk Hclean. simpl in *.
      destruct (decide (k = normalizePath key)) as [->|Hk'].
      + rewrite lookup_insert_eq in Hk. injection Hk as <-.
        rewrite Hread. unfold content. by rewrite Er.
      + rewrite lookup_insert_ne in Hk by done.
        rewrite Hread. by eapply Hco. }
  by destruct (EnableCompression (config (storage st))).
Qed.

Lemma StorageDelete_coherent (st : State D) key :
  cleanedRoot (config (storage st)) →
  keys_located (storage st) → coherent st →
  keys_located (storage (StorageDelete st key).1)
  ∧ coherent (StorageDelete st key).1.
Proof.
  intros Hroot Hloc Hco.
  set (st1 := with_storage st (delete (normalizePath key) (cache (storage st)))
                (<[normalizePath key := true]> (dirty (storage st)))).
  assert (keys_located (storage st1)) as Hloc1.
  { intros k data' Hk. simpl in *.
    apply lookup_delete_Some in Hk as [_ Hk]. by eapply Hloc. }
  assert (∀ d, (∀ k data', cache (storage st) !! k = Some data' →
                  k ≠ normalizePath key →
                  content d (location (config (storage st)) k)
                  = content (disk st) (location (config (storage st)) k)) →
               coherent (with_disk st1 d)) as Hco1.
  { intros d Hd k data' Hk Hclean. simpl in *.
    apply lookup_delete_Some in Hk as [Hk' Hk].
    rewrite isDirty_insert_ne in Hclean by done.
    rewrite (Hd k data') by done. by eapply Hco. }
  unfold StorageDelete. fold st1.
  destruct (keyToPath _ _) as [path|e] eqn:Ek.
  - destruct (located_Ok _ _ _ Hroot Ek) as [Hne ->]. simpl.
    destruct (os_Remove (disk st) _) as [d r] eqn:Er.
    assert (coherent (with_disk st1 d)) as Hco'.
    { apply Hco1. intros k data' Hk Hk'.
      destruct (Hloc k data' Hk) as (Hnk & Hnr & _).
      eapply read_other_remove; [exact Er|].
      intros Heq. apply Hk'.
      apply (location_inj (config (storage st))); try done.
      apply normalizePath_idem. }
    destruct r as [e|]; [|by split]. by destruct (IsNotExist e).
  - split; [done|]. by apply (Hco1 (disk st)).
Qed.

Lemma Sync_coherent (st : State D) order :
  cleanedRoot (config (storage st)) →
  ranges (cache (storage st)) order →
  keys_located (storage st) → coherent st →
  keys_located (storage (Sync st order).1) ∧ coherent (Sync st order).1.
Proof.
  intros Hroot Horder Hloc Hco. unfold ranges in Horder.
  assert (∀ k data, (k, data) ∈ order ↔ cache (storage st) !! k = Some data)
    as Hin.
  { intros k data. rewrite Horder. apply elem_of_map_to_list. }
  pose proof (syncLoop_durable (config (storage st)) order
                (dirty (storage st)) (disk st)) as Hdur.
  pose proof (syncLoop_frame_dirty (config (storage st)) order
                (dirty (storage st)) (disk st)) as Hframe.
  unfold Sync. destruct (syncLoop _ _ _ _) as [[dirty1 d1] r]. simpl in *.
  split; [done|].
  intros k data Hk Hclean. simpl in *.
  destruct (Hloc k data Hk) as (Hnk & Hnr & Hpath).
  destruct (isDirty (dirty (storage st)) k) eqn:Hdirty.
  - apply Hdur with (k := k); try done.
    + rewrite Horder. apply NoDup_fst_map_to_list.
    + intros k1 k2 data1 data2 p H1%Hin H2%Hin Hp1 Hp2.
      destruct (Hloc k1 data1 H1) as (Hn1 & Hr1 & Hl1).
      destruct (Hloc k2 data2 H2) as (Hn2 & Hr2 & Hl2).
      apply (location_inj (config (storage st))); try done. congruence.
    + by apply Hin.
  - apply Hframe; [|by eapply Hco].
    intros k' data' Hk'%Hin Hd' Heq.
    destruct (Hloc k' data' Hk') as (Hn' & Hr' & Hl').
    assert (k' = k) as ->; [|congruence].
    apply (location_inj (config (storage st))); try done. congruence.
Qed.

Lemma storageRun_coherent (st : State D) calls :
  cleanedRoot (config (storage st)) → orders_ok st calls →
  keys_located (storage st) → coherent st →
  keys_located (storage (storageRun st calls)) ∧ coherent (storageRun st calls).
Proof.
  revert st. induction calls as [|c calls IH]; intros st Hroot Hord Hloc Hco.
  { by split. }
  change (storageRun st (c :: calls)) with (storageRun (storageExec st c) calls).
  destruct Hord as [Hc Hord].
  assert (keys_located (storage (storageExec st c))
          ∧ coherent (storageExec st c)) as [Hloc' Hco'].
  { destruct c as [key data|key|key|order]; simpl.
    - by apply Save_coherent.
    - by apply Load_coherent.
    - by apply StorageDelete_coherent.
    - by apply Sync_coherent. }
  apply IH; try done. by rewrite storageExec_config.
Qed.

End CoherenceFacts.

(** * Properties *)

(** ** Path normalization *)

Lemma ReplaceAll_idem p old new :
  old ≠ new → ReplaceAll (ReplaceAll p old new) old new = ReplaceAll p old new.
Proof. intros H. by apply ReplaceAll_lacks, lacks_ReplaceAll_old. Qed.

Lemma normalizePath_separator p :
  normalizePath (ReplaceAll p backslash slash) = normalizePath p.
Proof. unfold normalizePath. by rewrite ReplaceAll_idem. Qed.

(** C7.  [normalizePath] is a total function (the loop of [path.Clean]
    never runs out of fuel) that is idempotent and canonical: a
    backslash is read as a slash; the empty string and [.] go to [/];
    [..] is resolved against the preceding element and does nothing at
    the root; and every result is [/] followed by the slash-separated
    elements that [resolve] keeps, none of them empty, [.], [..], or
    containing a slash or backslash, so a result begins with [/] and has
    no repeated separator. *)
Theorem normalizePath_canonical :
  (∀ p, normalizePath (normalizePath p) = normalizePath p)
  ∧ (∀ p, normalizePath (ReplaceAll p backslash slash) = normalizePath p)
  ∧ (normalizePath "a\b" = "/a/b" ∧ normalizePath "a/b" = "/a/b")
  ∧ (normalizePath "" = "/" ∧ normalizePath "." = "/")
  ∧ (normalizePath "a/../b" = "/b" ∧ normalizePath ".." = "/"
     ∧ normalizePath "/../../a" = "/a" ∧ normalizePath "a/../.." = "/")
  ∧ (normalizePath "a//b" = "/a/b" ∧ normalizePath "//a///b//" = "/a/b")
  ∧ (∀ p, ∃ s, rootedInput p = String slash s
            ∧ normalizePath p = renderS (resolve [] (segments s)))
  ∧ (∀ p, ∃ stack, Forall element stack ∧ normalizePath p = renderS stack)
  ∧ (∀ p, HasPrefix (normalizePath p) "/" = true)
  ∧ (∀ fuel rooted path out dotdot,
       (String.length path ≤ fuel)%nat →
       cleanLoop fuel rooted path out dotdot
       = cleanLoop (String.length path) rooted path out dotdot).
Proof.
  split; [exact normalizePath_idem|].
  split; [exact normalizePath_separator|].
  do 4 (split; [by vm_compute|]).
  split; [exact normalizePath_resolve|].
  split; [exact normalizePath_elements|].
  split.
  - intros p. by destruct (normalizePath_elements p) as (stack & _ & ->).
  - intros. by apply cleanLoop_fuel.
Qed.


(** ** The metadata directory *)

(** C1, as stated, fails: [Delete("/")] on a new store succeeds and
    removes the root, and [Update("/", m)] with a pointer to a Regular
    record [m] succeeds and leaves a root that is not a directory. *)
Lemma root_not_protected :
  (Delete (NewMemoryStore 0 0 0) "/").2 = Ok ()
  ∧ data (run (NewMemoryStore 0 0 0) [(CallDelete "/", 1)]) !! "/" = None
  ∧ (let '(s, meta) := pass (NewMemoryStore 0 0 0) (Fresh (sampleRegular 1 1)) in
     (Update s "/" meta 1).2 = Ok ())
  ∧ Type_ <$> entry (run (NewMemoryStore 0 0 0)
                       [(CallUpdate "/" (Fresh (sampleRegular 1 1)), 1)]) "/"
    = Some TypeRegular.
Proof. by vm_compute. Qed.

(** C1, amended.  A new store holds the root [/] as a directory, and it
    stays one through every sequence of [Create], [Get], [Mkdir] and
    [List] calls, [Delete] calls on paths that do not normalize to [/],
    and [Update] calls that either address another path or pass a
    pointer to a directory record.  ([Delete] of the root removes it,
    and [Update] of the root stores whatever pointer it is given.) *)
Theorem root_kept t1 t2 t3 trace :
  root_preserving (NewMemoryStore t1 t2 t3) trace →
  root_ok (NewMemoryStore t1 t2 t3)
  ∧ root_ok (run (NewMemoryStore t1 t2 t3) trace)
  ∧ (∀ s, root_ok s →
       Delete s "/"
       = ({| data := delete "/" (data s); inodes := inodes s; heap := heap s |},
          Ok ())
       ∧ ∀ meta m now, heap s !! meta = Some m →
           (Update s "/" meta now).2 = Ok ()
           ∧ Type_ <$> entry (Update s "/" meta now).1 "/" = Some (Type_ m)).
Proof.
  intros Htr.
  assert (root_ok (NewMemoryStore t1 t2 t3)) as H0.
  { eexists. split; [by vm_compute|done]. }
  split; [done|]. split; [by apply run_root_ok; [apply valid_new|..]|].
  intros s [rootMeta Hroot]%root_ok_data. split.
  - unfold Delete. change (normalizePath "/") with "/". by rewrite Hroot.
  - intros meta m now Hm. unfold Update. change (normalizePath "/") with "/".
    rewrite Hroot, Hm. simpl. unfold entry. simpl.
    rewrite lookup_insert_eq. simpl. by rewrite lookup_insert_eq.
Qed.

Lemma root_kept_witness :
  root_ok (run (NewMemoryStore 0 0 0)
    [(CallMkdir "/d" 0x1ed, 1); (CallCreate "/d/f" 0x1a4, 2);
     (CallUpdate "/d/f" (Fresh (sampleRegular 3 1)), 3);
     (CallUpdate "/d" (Held 1%positive), 4); (CallDelete "/d", 5);
     (CallGet "/", 6); (CallList "/", 7)]).
Proof.
  refine (proj1 (proj2 (root_kept 0 0 0 _ _))).
  cbn [root_preserving keeps_root]. repeat split; by vm_compute.
Defined.

(** C2, as stated, fails: the version [Update] stores is one more than
    the version of the record passed in, not of the record stored
    before.  On a new store the root has version 1; after
    [Update("/", m)] with [m.Version = 10] it has version 11. *)
Lemma update_version_from_argument :
  Version <$> entry (NewMemoryStore 0 0 0) "/" = Some 1
  ∧ (let '(s, meta) := pass (NewMemoryStore 0 0 0) (Fresh (sampleRegular 1 10)) in
     (Update s "/" meta 1).2 = Ok ())
  ∧ Version <$> entry (run (NewMemoryStore 0 0 0)
                         [(CallUpdate "/" (Fresh (sampleRegular 1 10)), 1)]) "/"
    = Some 11.
Proof. by vm_compute. Qed.

(** C2, amended.  [Update(p, meta)] with a pointer [meta] to a record
    [newMeta], at the clock reading [now]: when the normalized path has
    an entry, it succeeds, writes into the caller's record the
    [ModifyTime] [now] and the [Version] of [newMeta] plus one (modulo
    [2^64]), and puts the pointer under the path.  The path then reads
    [newMeta] with these two fields changed, wholesale; so does every
    other key that holds the same pointer; every other entry is as it
    was.  When [newMeta] carries the version of the entry replaced, the
    stored version is that version plus one; and in a store reached
    from a new one by calls whose clock readings never go back, the
    [ModifyTime] stored is not before that of the entry replaced.  When
    the normalized path has no entry, [Update] fails with NotFound and
    leaves the store as it is; with a nil pointer and an existing path
    it panics. *)
Theorem Update_spec s p meta now :
  let filePath := normalizePath p in
  (∀ newMeta, heap s !! meta = Some newMeta → is_Some (data s !! filePath) →
     let s' := {| data := <[filePath := meta]> (data s); inodes := inodes s;
                  heap := <[meta := updated newMeta now]> (heap s) |} in
     Update s p meta now = (s', Ok ())
     ∧ entry s' filePath = Some (updated newMeta now)
     ∧ (∀ q, data s !! q = Some meta → entry s' q = Some (updated newMeta now))
     ∧ (∀ q, q ≠ filePath → data s !! q ≠ Some meta → entry s' q = entry s q)
     ∧ (0 ≤ Version newMeta < uint64_max →
        Version (updated newMeta now) = Version newMeta + 1)
     ∧ (∀ old, entry s filePath = Some old →
        Version newMeta = Version old → 0 ≤ Version old < uint64_max →
        Version (updated newMeta now) = Version old + 1)
     ∧ (∀ t1 t2 t3 trace passing old,
          pass (run (NewMemoryStore t1 t2 t3) trace) passing = (s, meta) →
          ticks t1 ([t2; t3] ++ trace.*2 ++ [now]) →
          entry s filePath = Some old →
          ModifyTime old ≤ ModifyTime (updated newMeta now)))
  ∧ (data s !! filePath = None →
     Update s p meta now = (s, Err (FileNotFound filePath))
     ∧ MetaError_kind (FileNotFound filePath) = NotFound)
  ∧ (heap s !! meta = None → is_Some (data s !! filePath) →
     Update s p meta now = (s, Err NilDereference)).
Proof.
  intros filePath. split; [|split].
  - intros newMeta Hm [oldMeta Hold] s'.
    assert (s' = stored s filePath meta (updated newMeta now)) as Hs' by done.
    split; [|split; [|split; [|split; [|split; [|split]]]]].
    + unfold Update. fold filePath. by rewrite Hold, Hm.
    + by rewrite Hs', entry_stored, decide_True.
    + intros q Hq. rewrite Hs', entry_stored. case_decide; [done|].
      by rewrite entry_written, Hq, decide_True.
    + intros q Hne Hq. rewrite Hs', entry_stored, decide_False by done.
      by apply entry_written_other.
    + intros Hv. simpl. by apply uint64_incr_small.
    + intros old _ Heq Hv. simpl. rewrite Heq. by apply uint64_incr_small.
    + intros t1 t2 t3 trace passing old Hpass Hticks Hentry.
      simpl in Hticks. destruct Hticks as (H12 & H23 & Hticks).
      assert (stamps_le (NewMemoryStore t1 t2 t3) t3) as H0.
      { intros q m. unfold NewMemoryStore, entry. simpl.
        rewrite lookup_insert. case_decide; [|done]. simpl.
        rewrite lookup_insert_eq. intros [= <-]. simpl. lia. }
      pose proof (run_stamps trace _ _ now (valid_new t1 t2 t3) H0 Hticks) as Hs.
      destruct (pass_spec (run (NewMemoryStore t1 t2 t3) trace) passing)
        as (_ & _ & _ & He & _); [apply run_valid, valid_new|].
      rewrite Hpass in He. simpl in He. rewrite He in Hentry.
      simpl. by eapply Hs.
  - intros Hnone. unfold Update. fold filePath. by rewrite Hnone.
  - intros Hnil [oldMeta Hold]. unfold Update. fold filePath.
    by rewrite Hold, Hnil.
Qed.

Lemma Update_spec_witness :
  let s := run (NewMemoryStore 0 0 0)
             [(CallCreate "/a" 0x1a4, 1); (CallCreate "/b" 0x1a4, 2)] in
  (* [/a] holds the pointer 2 and [/b] the pointer 3; the pointer of
     [/a] is put under [/b], and both keys read the record written *)
  (Update s "\b" 2%positive 3).2 = Ok ()
  ∧ entry (Update s "\b" 2%positive 3).1 "/b" = Some (updated (createdFile 2 "a" 0x1a4 1) 3)
  ∧ entry (Update s "\b" 2%positive 3).1 "/a" = Some (updated (createdFile 2 "a" 0x1a4 1) 3)
  ∧ Update s "/c" 2%positive 3 = (s, Err (FileNotFound "/c")).
Proof.
  intros s.
  destruct (proj1 (Update_spec s "\b" 2%positive 3) (createdFile 2 "a" 0x1a4 1))
    as (H1 & H2 & H3 & _);
    [by vm_compute|eexists; vm_compute; reflexivity|].
  destruct (proj1 (proj2 (Update_spec s "/c" 2%positive 3))) as [H4 _]; [by vm_compute|].
  split; [by rewrite H1|]. split; [by rewrite H1|].
  split; [rewrite H1; apply H3; by vm_compute|exact H4].
Defined.

(** C6, as stated, fails: the inode [Create] assigns is the counter's
    next value, which is not always fresh.  After [Create("/a")] and an
    [Update("/a", m)] with [m.Inode = 3], [Create("/b")] returns an
    entry with inode 3, the inode [/a] carries. *)
Lemma create_inode_not_fresh :
  let s := run (NewMemoryStore 0 0 0)
             [(CallCreate "/a" 0x1a4, 1);
              (CallUpdate "/a" (Fresh (sampleRegular 3 1)), 2)] in
  Inode <$> entry s "/a" = Some 3
  ∧ (let '(s', r) := Create s "/b" 0x1a4 3 in
     (∃ meta, r = Ok meta ∧ Inode <$> heap s' !! meta = Some 3)
     ∧ Inode <$> entry s' "/a" = Some 3
     ∧ Inode <$> entry s' "/b" = Some 3).
Proof.
  split; [by vm_compute|]. split; [|by vm_compute].
  eexists. split; [by vm_compute|]. by vm_compute.
Qed.

(** C6, amended.  [Create(p, mode)] works on the normalized path: it
    fails with NotFound when the parent has no entry, with
    InvalidArgument when the parent is not a directory, with
    AlreadyExists when the path has an entry, in this order and without
    changing the store; otherwise the normalized path is the parent
    followed by one more element [x], the inode counter is advanced,
    and a pointer to a new record is stored under the path and
    returned: a Regular file named [x] with the counter's new value as
    inode, the given mode, size 0, one link, version 1 and the three
    timestamps equal to [now]; no other entry changes.  The inode is
    greater than every stored inode, hence fresh, in a store reached
    from a new one by calls in which each [Update] passed a record with
    the inode of the entry replaced, as long as the counter has not
    wrapped around (fewer than [2^64 - 2] inodes were allocated). *)
Theorem Create_spec s p mode now :
  let filePath := normalizePath p in
  let parent := Dir filePath in
  (data s !! parent = None →
     Create s p mode now = (s, Err (ParentNotFound parent))
     ∧ MetaError_kind (ParentNotFound parent) = NotFound)
  ∧ (∀ pm, entry s parent = Some pm → Type_ pm ≠ TypeDirectory →
     Create s p mode now = (s, Err (ParentNotDirectory parent))
     ∧ MetaError_kind (ParentNotDirectory parent) = InvalidArgument)
  ∧ (∀ pm old, entry s parent = Some pm → Type_ pm = TypeDirectory →
     data s !! filePath = Some old →
     Create s p mode now = (s, Err (FileExists filePath))
     ∧ MetaError_kind (FileExists filePath) = AlreadyExists)
  ∧ (∀ pm, entry s parent = Some pm → Type_ pm = TypeDirectory →
     data s !! filePath = None →
     ∃ x stack,
       Forall element (x :: stack)
       ∧ filePath = renderS (x :: stack) ∧ parent = renderS stack
       ∧ let record := createdFile (uint64_incr (inodes s)) x mode now in
         let meta := fresh (dom (heap s)) in
         let s' := {| data := <[filePath := meta]> (data s);
                      inodes := uint64_incr (inodes s);
                      heap := <[meta := record]> (heap s) |} in
         Create s p mode now = (s', Ok meta)
         ∧ heap s !! meta = None
         ∧ entry s' filePath = Some record
         ∧ (valid s → ∀ q, q ≠ filePath → entry s' q = entry s q)
         ∧ (0 ≤ inodes s < uint64_max → Inode record = inodes s + 1)
         ∧ (∀ t1 t2 t3 trace,
              s = run (NewMemoryStore t1 t2 t3) trace →
              inode_preserving (NewMemoryStore t1 t2 t3) trace →
              Z.of_nat (length (allocated (NewMemoryStore t1 t2 t3) trace))
              < uint64_max - 1 →
              ∀ q m, entry s q = Some m → Inode m < Inode record)).
Proof.
  intros filePath parent. unfold Create. fold filePath. fold parent.
  split; [|split; [|split]].
  - by intros ->.
  - intros pm (parentMeta & -> & ->)%entry_Some Hty.
    by rewrite bool_decide_eq_true_2.
  - intros pm old (parentMeta & -> & ->)%entry_Some Hty ->.
    by rewrite bool_decide_eq_false_2 by naive_solver.
  - intros pm (parentMeta & Hpd & Hpm)%entry_Some Hty Hnone.
    rewrite Hpd, Hpm, Hnone.
    rewrite bool_decide_eq_false_2 by naive_solver.
    destruct (normalizePath_root_or_elem p) as [Hroot|(x & stack & Hst & Hx)].
    { (* the root is its own parent, so it would exist *)
      subst parent. fold filePath in Hroot. rewrite Hroot in *.
      change (Dir "/") with "/" in Hpd. congruence. }
    fold filePath in Hx. exists x, stack. split; [done|]. split; [done|].
    assert (Forall proper (x :: stack)) as Hprop by by apply element_proper.
    split; [subst parent; rewrite Hx; by apply Dir_renderS|].
    split; [|split; [|split; [|split; [|split]]]].
    + simpl. unfold createdFile. by rewrite Hx, Base_renderS by done.
    + apply fresh_heap.
    + unfold entry. simpl. rewrite lookup_insert_eq. simpl.
      by rewrite lookup_insert_eq.
    + intros Hv q Hq.
      pose proof (entry_created s filePath
                    (createdFile (uint64_incr (inodes s)) x mode now) q Hv)
        as He.
      unfold created in He. rewrite He. by rewrite decide_False.
    + intros Hn. simpl. by apply uint64_incr_small.
    + intros t1 t2 t3 trace -> Hp Hlen q m Hm.
      assert (inodes (NewMemoryStore t1 t2 t3) = 1) as Hn0 by done.
      assert (inodes_bounded (NewMemoryStore t1 t2 t3)
              ∧ unique_inodes (NewMemoryStore t1 t2 t3)) as [Hb Hu].
      { split.
        - intros q' m'. unfold NewMemoryStore, entry. simpl.
          rewrite lookup_insert. case_decide; [|done]. simpl.
          rewrite lookup_insert_eq. intros [= <-]. by vm_compute.
        - intros p1 p2 m1 m2. unfold NewMemoryStore, entry. simpl.
          rewrite !lookup_insert. repeat case_decide; by subst. }
      destruct (run_inode_inv trace (NewMemoryStore t1 t2 t3)) as [Hb' _];
        [apply valid_new|lia|lia|done..|].
      destruct (allocated_increasing trace (NewMemoryStore t1 t2 t3))
        as (Hrun & _ & _); [lia..|].
      specialize (Hb' q m Hm). simpl.
      rewrite uint64_incr_small by lia. lia.
Qed.

Lemma Create_spec_witness :
  let s := run (NewMemoryStore 0 0 0)
             [(CallMkdir "/d" 0x1ed, 1); (CallGet "/d", 2)] in
  ∃ s' meta,
    Create s "d\f" 0x1a4 3 = (s', Ok meta)
    ∧ ∀ q m, entry s q = Some m →
        ∃ record, heap s' !! meta = Some record ∧ Inode m < Inode record.
Proof.
  intros s.
  destruct (proj2 (proj2 (proj2 (Create_spec s "d\f" 0x1a4 3)))
              (with_AccessTime (createdDir 2 "d" 0x1ed 1) 2))
    as (x & stack & _ & _ & _ & H1 & _ & _ & _ & _ & H3);
    [by vm_compute..|].
  eexists _, _. split; [exact H1|]. intros q m Hm.
  eexists. split; [simpl; apply lookup_insert_eq|].
  apply (H3 0 0 0 [(CallMkdir "/d" 0x1ed, 1); (CallGet "/d", 2)]) with (q := q);
    [done|by repeat split|done|exact Hm].
Defined.

(** C8, as stated, fails: [Update] stores the pointer it is given, with
    the inode its record carries.  After [Create("/a")] the root has
    inode 1 and [/a] inode 2; after [Update("/a", m)] with [m.Inode = 1]
    both entries carry inode 1. *)
Lemma update_duplicates_inode :
  let s := run (NewMemoryStore 0 0 0)
             [(CallCreate "/a" 0x1a4, 1);
              (CallUpdate "/a" (Fresh (sampleRegular 1 1)), 2)] in
  Inode <$> entry s "/" = Some 1 ∧ Inode <$> entry s "/a" = Some 1.
Proof. by vm_compute. Qed.

(** C8, amended.  As long as the 64-bit counter has not wrapped around
    (fewer than [2^64 - 2] inodes were allocated, which holds when fewer
    calls were made), the counter counts the allocations, and the inodes
    allocated by [NewMemoryStore], [Create] and [Mkdir] are strictly
    increasing in the order of allocation, so none is used twice; and
    when every [Update] made so far passed a record with the inode of
    the entry it replaced, no two stored entries carry the same inode
    and every stored inode is one the counter has handed out. *)
Theorem inodes_unique t1 t2 t3 trace :
  let s0 := NewMemoryStore t1 t2 t3 in
  Z.of_nat (length (allocated s0 trace)) < uint64_max - 1 →
  (length (allocated s0 trace) ≤ length trace)%nat
  ∧ inodes (run s0 trace) = 1 + Z.of_nat (length (allocated s0 trace))
  ∧ StronglySorted Z.lt (1 :: allocated s0 trace)
  ∧ Inode <$> entry s0 "/" = Some 1
  ∧ (inode_preserving s0 trace →
     unique_inodes (run s0 trace) ∧ inodes_bounded (run s0 trace)).
Proof.
  intros s0 Hlen.
  assert (inodes s0 = 1) as Hn0 by done.
  assert (inodes_bounded s0 ∧ unique_inodes s0) as [Hb Hu].
  { split.
    - intros q m. unfold s0, NewMemoryStore, entry. simpl.
      rewrite lookup_insert. case_decide; [|done]. simpl.
      rewrite lookup_insert_eq. intros [= <-]. by vm_compute.
    - intros p1 p2 m1 m2. unfold s0, NewMemoryStore, entry. simpl.
      rewrite !lookup_insert. repeat case_decide; by subst. }
  destruct (allocated_increasing trace s0) as (Hrun & Hgt & Hsorted); [lia..|].
  split; [apply allocated_length|]. split; [lia|].
  split; [|split; [done|]].
  - constructor; [done|]. by rewrite Hn0 in Hgt.
  - intros Hp. destruct (run_inode_inv trace s0); try done;
      [apply valid_new|lia..].
Qed.

Lemma inodes_unique_witness :
  let trace := [(CallMkdir "/d" 0x1ed, 1); (CallCreate "/d/f" 0x1a4, 2);
                (CallUpdate "/d/f" (Fresh (sampleRegular 3 7)), 3);
                (CallGet "/d/f", 4); (CallUpdate "/d/f" (Held 4%positive), 5);
                (CallDelete "/d/f", 6); (CallCreate "/d/f" 0x1a4, 7)] in
  StronglySorted Z.lt (1 :: allocated (NewMemoryStore 0 0 0) trace)
  ∧ unique_inodes (run (NewMemoryStore 0 0 0) trace).
Proof.
  intros trace.
  assert (Z.of_nat (length (allocated (NewMemoryStore 0 0 0) trace))
          < uint64_max - 1) as Hlen by by vm_compute.
  destruct (inodes_unique 0 0 0 trace Hlen) as (_ & _ & Hsorted & _ & Hinv).
  split; [exact Hsorted|]. apply Hinv.
  repeat split; intros old m; vm_compute; by intros [= <-] [= <-].
Defined.

(** C9.  [List(p)], whatever the order in which the map is ranged over,
    fails with NotFound when the normalized path has no entry and with
    InvalidArgument when its entry is not a directory; otherwise it
    returns, each once and in the order of the iteration, exactly the
    pointers of the map whose key has the directory as its [path.Dir]
    and is not the directory itself, so that the records returned are
    the entries under these keys.  On a new store, after [Mkdir("/d")]
    and [Create("/d/f")], [List("/d")] is one entry, named [f]. *)
Theorem List_spec s order p :
  ranges (data s) order →
  let dirPath := normalizePath p in
  (data s !! dirPath = None →
     List s order p = Err (DirectoryNotFound dirPath)
     ∧ MetaError_kind (DirectoryNotFound dirPath) = NotFound)
  ∧ (∀ m, entry s dirPath = Some m → Type_ m ≠ TypeDirectory →
     List s order p = Err (NotADirectory dirPath)
     ∧ MetaError_kind (NotADirectory dirPath) = InvalidArgument)
  ∧ (∀ m, entry s dirPath = Some m → Type_ m = TypeDirectory →
     ∃ results,
       List s order p = Ok results
       ∧ results ≡ₚ (filter (child_of dirPath) (map_to_list (data s))).*2
       ∧ (∀ e, e ∈ results ↔
               ∃ q, data s !! q = Some e ∧ Dir q = dirPath ∧ q ≠ dirPath)
       ∧ (∀ record, record ∈ omap (λ e, heap s !! e) results ↔
               ∃ q, entry s q = Some record ∧ Dir q = dirPath ∧ q ≠ dirPath))
  ∧ (∀ t1 t2 t3 mode1 now1 mode2 now2 order',
       let s' := run (NewMemoryStore t1 t2 t3)
                   [(CallMkdir "/d" mode1, now1); (CallCreate "/d/f" mode2, now2)] in
       ranges (data s') order' →
       ∃ e record, List s' order' "/d" = Ok [e]
                   ∧ heap s' !! e = Some record ∧ Name record = "f").
Proof.
  intros Horder dirPath.
  assert (∀ s0 order0 d,
            ranges (data s0) order0 →
            listLoop d order0 []
            ≡ₚ (filter (child_of d) (map_to_list (data s0))).*2) as Hperm.
  { intros s0 order0 d H0. rewrite listLoop_filter. simpl.
    unfold ranges in H0. by rewrite H0. }
  unfold List. fold dirPath. split; [|split; [|split]].
  - by intros ->.
  - intros m (dirMeta & -> & ->)%entry_Some Hty.
    by rewrite bool_decide_eq_true_2.
  - intros m (dirMeta & -> & ->)%entry_Some Hty.
    rewrite bool_decide_eq_false_2 by naive_solver.
    assert (∀ e, e ∈ listLoop dirPath order [] ↔
               ∃ q, data s !! q = Some e ∧ Dir q = dirPath ∧ q ≠ dirPath)
      as Hin.
    { intros e. rewrite (Hperm s order dirPath Horder).
      rewrite list_elem_of_fmap. split.
      + intros ([q e'] & -> & [Hchild Hin]%list_elem_of_filter).
        apply elem_of_map_to_list in Hin. destruct Hchild. by exists q.
      + intros (q & Hq & Hd & Hne). exists (q, e). split; [done|].
        apply list_elem_of_filter. split; [done|].
        by apply elem_of_map_to_list. }
    eexists. split; [done|]. split; [by apply Hperm|]. split; [done|].
    intros record. rewrite list_elem_of_omap. split.
    + intros (e & (q & Hq & Hd & Hne)%Hin & Hrecord). exists q.
      split; [|done]. apply entry_Some. by exists e.
    + intros (q & (e & Hq & Hrecord)%entry_Some & Hd & Hne). exists e.
      split; [|done]. apply Hin. by exists q.
  - intros t1 t2 t3 mode1 now1 mode2 now2 order'.
    set (s' := run _ _). intros Horder'.
    change (normalizePath "/d") with "/d".
    exists 3%positive, (createdFile 3 "f" mode2 now2).
    assert (data s' !! "/d" = @Some ptr 2%positive) as -> by by vm_compute.
    assert (heap s' !! (2%positive : ptr) = Some (createdDir 2 "d" mode1 now1))
      as -> by by vm_compute.
    rewrite bool_decide_eq_false_2 by naive_solver.
    pose proof (Hperm s' order' "/d" Horder') as Hres.
    assert ((filter (child_of "/d") (map_to_list (data s'))).*2
            = [3%positive] :> list ptr) as Heq by by vm_compute.
    rewrite Heq in Hres. apply Permutation_singleton_r in Hres.
    rewrite Hres. split; [done|]. split; [by vm_compute|done].
Qed.

Lemma List_spec_witness :
  let s := run (NewMemoryStore 0 0 0)
             [(CallMkdir "/d" 0x1ed, 1); (CallCreate "/d/f" 0x1a4, 2);
              (CallCreate "/g" 0x1a4, 3)] in
  ∃ results,
    List s (map_to_list (data s)) "/" = Ok results
    ∧ ∀ e, e ∈ results ↔ ∃ q, data s !! q = Some e ∧ Dir q = "/" ∧ q ≠ "/".
Proof.
  intros s.
  assert (ranges (data s) (map_to_list (data s))) as Hr by (by unfold ranges).
  pose proof (proj1 (proj2 (proj2 (List_spec s (map_to_list (data s)) "/" Hr))))
    as H.
  destruct (H {| Inode := 1; Name := "/"; Type_ := TypeDirectory; Size := 0;
                 Mode := 0x1ed; Blocks := []; Links := 0; Owner := "";
                 Group := ""; CreateTime := 0; ModifyTime := 0;
                 AccessTime := 0; Version := 1 |})
    as (results & Hres & _ & Hin & _); [by vm_compute | reflexivity |].
  exists results. split; [exact Hres | exact Hin].
Defined.

(** ** The storage cache *)

Section StorageClaims.

Context {D : Type} `{!FileSystem D}.



(** C10.  When the location mapping rejects the normalized key,
    [Delete] returns an InvalidArgument error, and the state it leaves
    has the key removed from the cache and marked dirty; the host is not
    touched.  The mapping rejects every key that still has a null byte
    after normalization, and every key that normalizes to the root. *)
Theorem Delete_not_atomic (st : State D) key :
  let nk := normalizePath key in
  let fs := storage st in
  (∀ e, keyToPath (config fs) (TrimPrefix nk "/") = Err e →
     StorageDelete st key
     = ({| storage := {| config := config fs;
                         cache := delete nk (cache fs);
                         dirty := <[nk := true]> (dirty fs) |};
           disk := disk st |}, Some (InvalidKey e))
     ∧ StorageError_kind (InvalidKey e) = InvalidArgument
     ∧ cache (storage (StorageDelete st key).1) !! nk = None
     ∧ dirty (storage (StorageDelete st key).1) !! nk = Some true)
  ∧ (ContainsByte nk nul = true →
     keyToPath (config fs) (TrimPrefix nk "/") = Err InvalidCharacters)
  ∧ (nk = "/" → keyToPath (config fs) (TrimPrefix nk "/") = Err EmptyPath).
Proof.
  intros nk fs. split; [|split].
  - intros e He. unfold StorageDelete. fold fs. fold nk. simpl.
    rewrite He. simpl. by rewrite lookup_delete_eq, lookup_insert_eq.
  - intros Hc. unfold nk in *.
    destruct (decide (normalizePath key = "/")) as [Hroot|Hroot].
    + by rewrite Hroot in Hc.
    + by rewrite keyToPath_normalized, Hc.
  - by intros ->.
Qed.

(** C3, the part of it that holds.  Whatever the order of the
    iteration: when no cached key is dirty, in particular when the dirty
    set is empty, [Sync] succeeds and changes nothing; [Sync] never
    changes the cache or the configuration; and after a successful
    [Sync] no cached key is dirty. *)
Theorem Sync_spec (st : State D) order :
  ranges (cache (storage st)) order →
  let fs := storage st in
  ((∀ k, is_Some (cache fs !! k) → isDirty (dirty fs) k = false) →
     Sync st order = (st, None))
  ∧ (dirty fs = ∅ → Sync st order = (st, None))
  ∧ cache (storage (Sync st order).1) = cache fs
  ∧ config (storage (Sync st order).1) = config fs
  ∧ ((Sync st order).2 = None →
     ∀ k, is_Some (cache fs !! k) →
          isDirty (dirty (storage (Sync st order).1)) k = false).
Proof.
  intros Horder fs. subst fs. unfold ranges in Horder.
  assert ((∀ k, is_Some (cache (storage st) !! k) →
                isDirty (dirty (storage st)) k = false) →
          Sync st order = (st, None)) as Hclean.
  { intros Hc. unfold Sync. rewrite syncLoop_clean.
    - by destruct st as [[] ?].
    - apply Forall_forall. intros [k data] Hin. simpl. apply Hc.
      exists data. apply elem_of_map_to_list. by rewrite <- Horder. }
  split; [done|]. split; [|split; [|split]].
  - intros Hd. apply Hclean. intros k _. unfold isDirty. by rewrite Hd.
  - unfold Sync. by destruct (syncLoop _ _ _ _) as [[? ?] ?].
  - unfold Sync. by destruct (syncLoop _ _ _ _) as [[? ?] ?].
  - unfold Sync.
    destruct (syncLoop _ _ _ _) as [[dirty1 d1] r] eqn:E. simpl.
    intros -> k [data Hk]. apply syncLoop_success in E as [_ Hall].
    rewrite Forall_forall in Hall. apply (Hall (k, data)).
    rewrite Horder. by apply elem_of_map_to_list.
Qed.

(** C3, where the code departs from it.  [Sync] ranges over the cache,
    not over the dirty set, so a key that is dirty but not cached keeps
    its flag through every [Sync]; [Delete] leaves such keys. *)
Theorem Sync_keeps_uncached_dirty (st : State D) order k :
  ranges (cache (storage st)) order →
  cache (storage st) !! k = None →
  dirty (storage (Sync st order).1) !! k = dirty (storage st) !! k.
Proof.
  intros Horder Hk. unfold Sync.
  pose proof (syncLoop_unvisited (config (storage st)) order
                (dirty (storage st)) (disk st) k) as H.
  destruct (syncLoop _ _ _ _) as [[dirty1 d1] r]. simpl in *. apply H.
  intros ([k' data] & Heq & Hin)%list_elem_of_fmap. simpl in Heq. subst k'.
  unfold ranges in Horder. rewrite Horder in Hin.
  apply elem_of_map_to_list in Hin. congruence.
Qed.

End StorageClaims.



Lemma Delete_not_atomic_witness :
  let st := (Save freshState "/x" hello).1 in
  dirty (storage freshState) !! ("/" +:+ nulKey) = None
  ∧ (StorageDelete freshState nulKey).2 = Some (InvalidKey InvalidCharacters)
  ∧ dirty (storage (StorageDelete freshState nulKey).1) !! ("/" +:+ nulKey)
    = Some true
  ∧ (StorageDelete st "").2 = Some (InvalidKey EmptyPath)
  ∧ dirty (storage (StorageDelete st "").1) !! "/" = Some true.
Proof.
  intros st.
  destruct (proj1 (Delete_not_atomic freshState nulKey) InvalidCharacters)
    as (H1 & _ & _ & H2); [by vm_compute|].
  destruct (proj1 (Delete_not_atomic st "") EmptyPath)
    as (H3 & _ & _ & H4); [by vm_compute|].
  split; [by vm_compute|].
  split; [by rewrite H1|]. split; [exact H2|].
  split; [by rewrite H3|exact H4].
Defined.

(** C3 at a failing input: on a new storage, [Delete("/x")] succeeds and
    leaves [/x] dirty and not cached; a [Sync] then succeeds, changes
    nothing, and the dirty set still holds [/x]. *)
Theorem Sync_leaves_deleted_key_dirty :
  let st1 := (StorageDelete freshState "/x").1 in
  (StorageDelete freshState "/x").2 = None
  ∧ cache (storage st1) = ∅
  ∧ dirty (storage st1) !! "/x" = Some true
  ∧ ∀ order, ranges (cache (storage st1)) order →
      Sync st1 order = (st1, None)
      ∧ dirty (storage (Sync st1 order).1) !! "/x" = Some true.
Proof.
  intros st1. split; [by vm_compute|]. split; [by vm_compute|].
  split; [by vm_compute|]. intros order Horder.
  assert (order = []) as ->.
  { unfold ranges in Horder. apply Permutation_nil_r.
    by rewrite Horder. }
  split; by vm_compute.
Qed.

Lemma Sync_spec_witness :
  let st := (Save freshState "/x" hello).1 in
  let order := map_to_list (cache (storage st)) in
  (Sync st order).2 = None
  ∧ isDirty (dirty (storage st)) "/x" = true
  ∧ isDirty (dirty (storage (Sync st order).1)) "/x" = false
  ∧ disk (Sync st order).1 !! "data/meta/x" = Some hello.
Proof.
  intros st order.
  assert (ranges (cache (storage st)) order) as Hr by (by unfold ranges).
  pose proof (proj2 (proj2 (proj2 (proj2 (Sync_spec st order Hr))))) as H.
  split; [by vm_compute|]. split; [by vm_compute|].
  split; [|by vm_compute]. apply H; [by vm_compute|]. by exists hello.
Defined.

Lemma Sync_keeps_uncached_dirty_witness :
  let st := (StorageDelete freshState "/x").1 in
  dirty (storage (Sync st []).1) !! "/x" = Some true.
Proof.
  intros st.
  rewrite (Sync_keeps_uncached_dirty st [] "/x"); by vm_compute.
Defined.
(** * Further properties *)

(** ** The metadata directory *)

(** X1.  Two paths with the same normal form are interchangeable in
    every operation of the directory: a path written with backslashes,
    repeated separators or dot elements addresses the same entry. *)
Theorem calls_by_normal_form s p p' :
  normalizePath p = normalizePath p' →
  (∀ mode now, Create s p mode now = Create s p' mode now)
  ∧ (∀ now, Get s p now = Get s p' now)
  ∧ (∀ meta now, Update s p meta now = Update s p' meta now)
  ∧ Delete s p = Delete s p'
  ∧ (∀ order, List s order p = List s order p')
  ∧ (∀ mode now, Mkdir s p mode now = Mkdir s p' mode now)
  ∧ (∀ mode now, Create s (normalizePath p) mode now = Create s p mode now)
  ∧ (∀ now, Get s (ReplaceAll p backslash slash) now = Get s p now).
Proof.
  intros Heq. unfold Create, Get, Update, Delete, List, Mkdir.
  rewrite normalizePath_idem, normalizePath_separator, Heq. done.
Qed.

Lemma calls_by_normal_form_witness :
  let s := run (NewMemoryStore 0 0 0)
             [(CallMkdir "/test1" 0x1ed, 1); (CallMkdir "/test1/path1" 0x1ed, 2)] in
  Get s "test1\path1" 3 = Get s "/test1/./x/..//path1/" 3.
Proof.
  intros s.
  refine (proj1 (proj2 (calls_by_normal_form s "test1\path1"
                          "/test1/./x/..//path1/" _)) 3).
  by vm_compute.
Defined.

(** X2.  [Mkdir(p, mode)] makes the checks of [Create] in the same
    order (NotFound, InvalidArgument, AlreadyExists) without changing the
    store; otherwise it stores, under the normalized path, a pointer to
    a new record: a Directory named after the last path element, with
    the next inode, version 1, and the mode with the directory bit (bit
    31) set and every other bit as given. *)
Theorem Mkdir_spec s p mode now :
  let dirPath := normalizePath p in
  let parent := Dir dirPath in
  (data s !! parent = None →
     Mkdir s p mode now = (s, Err (ParentNotFound parent)))
  ∧ (∀ pm, entry s parent = Some pm → Type_ pm ≠ TypeDirectory →
     Mkdir s p mode now = (s, Err (ParentNotDirectory parent)))
  ∧ (∀ pm old, entry s parent = Some pm → Type_ pm = TypeDirectory →
     data s !! dirPath = Some old →
     Mkdir s p mode now = (s, Err (DirectoryExists dirPath))
     ∧ MetaError_kind (DirectoryExists dirPath) = AlreadyExists)
  ∧ (∀ pm, entry s parent = Some pm → Type_ pm = TypeDirectory →
     data s !! dirPath = None →
     ∃ x stack,
       Forall element (x :: stack)
       ∧ dirPath = renderS (x :: stack) ∧ parent = renderS stack
       ∧ let record := createdDir (uint64_incr (inodes s)) x mode now in
         let meta := fresh (dom (heap s)) in
         Mkdir s p mode now
         = ({| data := <[dirPath := meta]> (data s);
               inodes := uint64_incr (inodes s);
               heap := <[meta := record]> (heap s) |}, Ok ())
         ∧ heap s !! meta = None
         ∧ Z.testbit (Mode record) 31 = true
         ∧ (∀ i, i ≠ 31 → Z.testbit (Mode record) i = Z.testbit mode i)).
Proof.
  intros dirPath parent. unfold Mkdir. fold dirPath. fold parent.
  split; [|split; [|split]].
  - by intros ->.
  - intros pm (parentMeta & -> & ->)%entry_Some Hty.
    by rewrite bool_decide_eq_true_2.
  - intros pm old (parentMeta & -> & ->)%entry_Some Hty ->.
    by rewrite bool_decide_eq_false_2 by naive_solver.
  - intros pm (parentMeta & Hpd & Hpm)%entry_Some Hty Hnone.
    rewrite Hpd, Hpm, Hnone.
    rewrite bool_decide_eq_false_2 by naive_solver.
    destruct (normalizePath_root_or_elem p) as [Hroot|(x & stack & Hst & Hx)].
    { subst parent. fold dirPath in Hroot. rewrite Hroot in *.
      change (Dir "/") with "/" in Hpd. congruence. }
    fold dirPath in Hx. exists x, stack. split; [done|]. split; [done|].
    assert (Forall proper (x :: stack)) as Hprop by by apply element_proper.
    split; [subst parent; rewrite Hx; by apply Dir_renderS|].
    simpl. split; [|split; [apply fresh_heap|apply ModeDir_bits]].
    unfold createdDir. rewrite Hx, Base_renderS by done. done.
Qed.

(** X3.  An entry that [Create] or [Mkdir] has made is found by [Get]
    under every path with the same normal form: [Get] returns the
    pointer to the record made, and changes nothing in the store but the
    access time of that record, which keeps its inode; since the record
    is new, no other entry changes.  [Get] of a path without entry fails
    with NotFound and leaves the store as it is. *)
Theorem Get_after_create s p mode now s' :
  (∀ meta, Create s p mode now = (s', Ok meta) →
     let record := createdFile (uint64_incr (inodes s))
                     (Base (normalizePath p)) mode now in
     heap s' !! meta = Some record
     ∧ ∀ p' now', normalizePath p' = normalizePath p →
         Get s' p' now'
         = ({| data := data s'; inodes := inodes s';
               heap := <[meta := with_AccessTime record now']> (heap s') |},
            Ok meta)
         ∧ Inode (with_AccessTime record now') = Inode record
         ∧ (valid s → ∀ q, q ≠ normalizePath p →
              entry (Get s' p' now').1 q = entry s' q))
  ∧ (Mkdir s p mode now = (s', Ok ()) →
     let record := createdDir (uint64_incr (inodes s))
                     (Base (normalizePath p)) mode now in
     let meta := fresh (dom (heap s)) in
     data s' !! normalizePath p = Some meta
     ∧ heap s' !! meta = Some record
     ∧ ∀ p' now', normalizePath p' = normalizePath p →
         Get s' p' now'
         = ({| data := data s'; inodes := inodes s';
               heap := <[meta := with_AccessTime record now']> (heap s') |},
            Ok meta)
         ∧ Inode (with_AccessTime record now') = Inode record
         ∧ Type_ (with_AccessTime record now') = TypeDirectory
         ∧ Mode (with_AccessTime record now') = Z.lor mode ModeDir
         ∧ (valid s → ∀ q, q ≠ normalizePath p →
              entry (Get s' p' now').1 q = entry s' q))
  ∧ (∀ q now', data s !! normalizePath q = None →
       Get s q now' = (s, Err (FileNotFound (normalizePath q)))
       ∧ MetaError_kind (FileNotFound (normalizePath q)) = NotFound).
Proof.
  assert (∀ k record p' now',
            normalizePath p' = k →
            Get (created s k record) p' now'
            = (written (created s k record) (fresh (dom (heap s)))
                 (with_AccessTime record now'), Ok (fresh (dom (heap s))))
            ∧ (valid s → ∀ q, q ≠ k →
                 entry (Get (created s k record) p' now').1 q
                 = entry (created s k record) q)) as Hget.
  { intros k record p' now' Hp'.
    assert (Get (created s k record) p' now'
            = (written (created s k record) (fresh (dom (heap s)))
                 (with_AccessTime record now'), Ok (fresh (dom (heap s)))))
      as Heq.
    { unfold Get. rewrite Hp'. simpl. rewrite lookup_insert_eq.
      by rewrite lookup_insert_eq. }
    split; [done|]. intros Hv q Hq. rewrite Heq. simpl.
    apply entry_written_other. simpl. rewrite lookup_insert_ne by done.
    intros Hd. destruct (Hv q _ Hd) as [m Hm]. by rewrite fresh_heap in Hm. }
  split; [|split].
  - intros meta (? & ? & _ & _ & _ & _ & -> & ->)%Create_Ok_inv record.
    split; [simpl; by rewrite lookup_insert_eq|].
    intros p' now' Hp'. destruct (Hget (normalizePath p) record p' now' Hp')
      as [Heq Hother].
    split; [exact Heq|]. split; [done|exact Hother].
  - intros (? & ? & _ & _ & _ & _ & ->)%Mkdir_Ok_inv record meta.
    split; [simpl; by rewrite lookup_insert_eq|].
    split; [simpl; by rewrite lookup_insert_eq|].
    intros p' now' Hp'. destruct (Hget (normalizePath p) record p' now' Hp')
      as [Heq Hother].
    split; [exact Heq|]. do 3 (split; [done|]). exact Hother.
  - intros q now' Hq. unfold Get. by rewrite Hq.
Qed.

(** X4.  [Delete(p)] fails with NotFound, changing nothing, when the
    normalized path has no entry; otherwise it removes that key and no
    other, and touches no record: a following [Get] fails with NotFound,
    every other entry is as it was, and the entries below a deleted
    directory stay in the map, without a parent. *)
Theorem Delete_spec s p :
  let filePath := normalizePath p in
  (data s !! filePath = None →
     Delete s p = (s, Err (FileNotFound filePath)))
  ∧ (∀ old, data s !! filePath = Some old →
     let s' := {| data := delete filePath (data s); inodes := inodes s;
                  heap := heap s |} in
     Delete s p = (s', Ok ())
     ∧ (∀ now, Get s' p now = (s', Err (FileNotFound filePath)))
     ∧ (∀ q, q ≠ filePath → data s' !! q = data s !! q)
     ∧ (∀ q, q ≠ filePath → entry s' q = entry s q)
     ∧ (∀ q m, data s !! q = Some m → Dir q = filePath → q ≠ filePath →
          data s' !! q = Some m ∧ data s' !! Dir q = None)).
Proof.
  intros filePath. unfold Delete. fold filePath. split.
  - by intros ->.
  - intros old ->. simpl. split; [done|]. split; [|split; [|split]].
    + intros now. unfold Get. fold filePath. simpl.
      by rewrite lookup_delete_eq.
    + intros q Hq. by rewrite lookup_delete_ne.
    + intros q Hq. unfold entry. simpl. by rewrite lookup_delete_ne.
    + intros q m Hq Hd Hne. rewrite Hd, lookup_delete_eq.
      by rewrite lookup_delete_ne.
Qed.

(** X5.  In every state reached from a new store, by whatever calls,
    every key of the map is a normalized path: [/] followed by proper
    elements separated by single slashes; and no pointer of the map is
    nil. *)
Theorem keys_always_normalized t1 t2 t3 trace :
  let s := run (NewMemoryStore t1 t2 t3) trace in
  ∀ k m, data s !! k = Some m →
    normalizePath k = k
    ∧ (∃ stack, Forall element stack ∧ k = renderS stack)
    ∧ is_Some (heap s !! m).
Proof.
  intros s k m Hk.
  assert (keys_normalized (NewMemoryStore t1 t2 t3)) as H0.
  { intros q e. unfold NewMemoryStore. simpl.
    rewrite lookup_insert. case_decide; [by subst|done]. }
  pose proof (run_keys_normalized trace _ H0 k m Hk) as Hn.
  split; [done|]. split.
  - rewrite <- Hn. apply normalizePath_elements.
  - by apply (run_valid trace _ (valid_new t1 t2 t3) k).
Qed.

Lemma keys_always_normalized_witness :
  normalizePath "/dir1/file1.txt" = "/dir1/file1.txt"
  ∧ ∃ stack, Forall element stack ∧ "/dir1/file1.txt" = renderS stack.
Proof.
  destruct (keys_always_normalized 0 0 0
              [(CallMkdir "dir1" 0x1ed, 1); (CallCreate "dir1\file1.txt" 0x1a4, 2)]
              "/dir1/file1.txt" 3%positive) as (H1 & H2 & _); [by vm_compute|].
  split; [exact H1|exact H2].
Defined.

(** X6.  The namespace stays a tree as long as no call orphans an
    entry: through every sequence of calls in which each [Delete]
    addresses an entry without children and each [Update] passes a
    directory, keeps the type of the entry, or addresses an entry without
    children, every entry but the root has its parent in the map, as a
    directory. *)
Theorem tree_kept t1 t2 t3 trace :
  tree_preserving (NewMemoryStore t1 t2 t3) trace →
  parents_ok (run (NewMemoryStore t1 t2 t3) trace).
Proof.
  apply run_parents_ok; [apply valid_new|].
  intros k m. unfold NewMemoryStore. simpl.
  rewrite lookup_insert. by case_decide.
Qed.

Lemma tree_kept_witness :
  parents_ok (run (NewMemoryStore 0 0 0)
    [(CallMkdir "/d" 0x1ed, 1); (CallCreate "/d/f" 0x1a4, 2);
     (CallUpdate "/d/f" (Fresh (sampleRegular 3 1)), 3); (CallGet "/d", 4);
     (CallUpdate "/d" (Held 2%positive), 5);
     (CallDelete "/d/f", 6); (CallDelete "/d", 7)]).
Proof.
  apply tree_kept. cbn [tree_preserving keeps_tree].
  repeat split;
    first [ apply childlessb_spec; by vm_compute
          | intros m Hm; vm_compute in Hm; injection Hm as <-;
            right; left; eexists; split; [by vm_compute | done] ].
Defined.

(** X7.  The pointer a successful [Create] returns is listed in its
    parent directory, whatever the iteration order; every other pointer
    listed there was under a child of the directory before. *)
Theorem List_after_create s p mode now s' meta order :
  Create s p mode now = (s', Ok meta) →
  ranges (data s') order →
  let parent := Dir (normalizePath p) in
  ∃ results,
    List s' order parent = Ok results
    ∧ meta ∈ results
    ∧ ∀ e, e ∈ results →
        e = meta
        ∨ ∃ q, data s !! q = Some e ∧ Dir q = parent ∧ q ≠ parent.
Proof.
  intros (parentMeta & pm & Hpd & Hpm & Hty & Hnone & -> & ->)%Create_Ok_inv
    Horder parent.
  destruct (absent_with_parent s p parentMeta Hpd Hnone) as [Hroot Hne].
  destruct (Dir_normalized p) as [Hnorm _]. fold parent in Hnorm, Hpd, Hne.
  destruct (List_elements _ order parent pm Horder) as (results & Hres & Hin).
  { rewrite Hnorm. by apply (entry_created_old s _ _ _ parentMeta). }
  { done. }
  rewrite Hnorm in Hin. exists results. split; [done|]. split.
  - apply Hin. exists (normalizePath p). simpl.
    rewrite lookup_insert_eq. split; [done|]. split; [done|congruence].
  - intros e (q & Hq & Hd & Hqne)%Hin. simpl in Hq. revert Hq.
    rewrite lookup_insert. case_decide.
    + intros [= <-]. by left.
    + intros Hq. right. by exists q.
Qed.

Lemma List_after_create_witness :
  let s := run (NewMemoryStore 0 0 0) [(CallMkdir "/dir1" 0x1ed, 1)] in
  let r := Create s "dir1\file1.txt" 0x1a4 2 in
  ∃ meta results,
    r.2 = Ok meta
    ∧ List r.1 (map_to_list (data r.1)) "/dir1" = Ok results
    ∧ meta ∈ results.
Proof.
  intros s r. destruct r as [s' [meta|e]] eqn:E; [|by vm_compute in E].
  assert (ranges (data s') (map_to_list (data s'))) as Hr by (by unfold ranges).
  destruct (List_after_create s "dir1\file1.txt" 0x1a4 2 s' meta _ E Hr)
    as (results & Hres & Hin & _).
  exists meta, results. split; [done|]. split; [exact Hres|exact Hin].
Defined.

(** X8.  After a successful [Create] or [Mkdir], creating the same path
    again, however it is written, fails with AlreadyExists and changes
    nothing. *)
Theorem create_twice s p mode now s' p' mode' now' :
  normalizePath p' = normalizePath p →
  (∃ meta, Create s p mode now = (s', Ok meta))
  ∨ Mkdir s p mode now = (s', Ok ()) →
  Create s' p' mode' now' = (s', Err (FileExists (normalizePath p)))
  ∧ Mkdir s' p' mode' now' = (s', Err (DirectoryExists (normalizePath p)))
  ∧ MetaError_kind (FileExists (normalizePath p)) = AlreadyExists
  ∧ MetaError_kind (DirectoryExists (normalizePath p)) = AlreadyExists.
Proof.
  intros Hp' Hmade.
  assert (∃ parentMeta pm e,
            data s' !! Dir (normalizePath p) = Some parentMeta
            ∧ heap s' !! parentMeta = Some pm
            ∧ Type_ pm = TypeDirectory
            ∧ data s' !! normalizePath p = Some e)
    as (parentMeta & pm & e & Hpd & Hpm & Hty & He).
  { assert (∀ record parentMeta pm,
              data s !! Dir (normalizePath p) = Some parentMeta →
              heap s !! parentMeta = Some pm →
              data s !! normalizePath p = None →
              data (created s (normalizePath p) record) !! Dir (normalizePath p)
              = Some parentMeta
              ∧ heap (created s (normalizePath p) record) !! parentMeta = Some pm
              ∧ data (created s (normalizePath p) record) !! normalizePath p
                = Some (fresh (dom (heap s)))) as Hcreated.
    { intros record parentMeta pm Hpd Hpm Hnone.
      destruct (absent_with_parent s p parentMeta Hpd Hnone) as [_ Hne].
      simpl. rewrite lookup_insert_ne, lookup_insert_eq by done.
      split; [done|]. split; [|done].
      rewrite lookup_insert_ne; [done|]. intros <-.
      by rewrite fresh_heap in Hpm. }
    destruct Hmade as [[meta Hc]|Hm].
    - apply Create_Ok_inv in Hc
        as (parentMeta & pm & Hpd & Hpm & Hty & Hnone & _ & ->).
      destruct (Hcreated (createdFile (uint64_incr (inodes s))
                            (Base (normalizePath p)) mode now)
                  parentMeta pm) as (? & ? & ?); [done..|].
      by eexists parentMeta, pm, _.
    - apply Mkdir_Ok_inv in Hm
        as (parentMeta & pm & Hpd & Hpm & Hty & Hnone & ->).
      destruct (Hcreated (createdDir (uint64_incr (inodes s))
                            (Base (normalizePath p)) mode now)
                  parentMeta pm) as (? & ? & ?); [done..|].
      by eexists parentMeta, pm, _. }
  unfold Create, Mkdir. rewrite Hp', Hpd, Hpm, He.
  by rewrite bool_decide_eq_false_2 by naive_solver.
Qed.

Lemma create_twice_witness :
  let s' := (Create (NewMemoryStore 0 0 0) "a" 0x1a4 1).1 in
  Create s' "/x/../a/" 0x1a4 2 = (s', Err (FileExists "/a")).
Proof.
  intros s'.
  refine (proj1 (create_twice (NewMemoryStore 0 0 0) "a" 0x1a4 1 s'
                   "/x/../a/" 0x1a4 2 _ _)); [by vm_compute|].
  left. eexists. by vm_compute.
Defined.

(** X9.  Nothing can be created below a regular file: after a
    successful [Create] of a path, [Create] and [Mkdir] of that path
    followed by one more element fail with InvalidArgument and change
    nothing. *)
Theorem create_below_file s p mode now s' meta x mode' now' :
  Create s p mode now = (s', Ok meta) → element x →
  let child := normalizePath p +:+ "/" +:+ x in
  Create s' child mode' now' = (s', Err (ParentNotDirectory (normalizePath p)))
  ∧ Mkdir s' child mode' now' = (s', Err (ParentNotDirectory (normalizePath p)))
  ∧ MetaError_kind (ParentNotDirectory (normalizePath p)) = InvalidArgument.
Proof.
  intros (parentMeta & pm & Hpd & Hpm & Hty & Hnone & -> & ->)%Create_Ok_inv
    Hx child.
  destruct (absent_with_parent s p parentMeta Hpd Hnone) as [Hroot _].
  destruct (normalizePath_child p x Hx Hroot) as [Hnorm Hdir].
  fold child in Hnorm, Hdir.
  unfold Create, Mkdir. rewrite Hnorm, Hdir. simpl.
  rewrite lookup_insert_eq. rewrite lookup_insert_eq. simpl. done.
Qed.

Lemma create_below_file_witness :
  let s' := (Create (NewMemoryStore 0 0 0) "/f" 0x1a4 1).1 in
  Create s' "/f/g" 0x1a4 2 = (s', Err (ParentNotDirectory "/f")).
Proof.
  intros s'.
  refine (proj1 (create_below_file (NewMemoryStore 0 0 0) "/f" 0x1a4 1 s'
                   _ "g" 0x1a4 2 _ _)); [by vm_compute|].
  repeat split; by vm_compute.
Defined.

(** ** Making the directories of a path *)

(** X22.  [createParentDirs] makes the directories of a path from the
    root down: when the root is a directory and no entry strictly above
    the path is something else than a directory, it returns no error
    (for every fuel above the number of path elements); afterwards every
    path above has a directory, and the path itself has an entry, a
    directory unless an entry was there before.  Every entry that was in
    the store is still there, changed at most in its access time: the
    keys off the path keep their pointers, and an entry whose record no
    key of the path points to is exactly as it was. *)
Theorem createParentDirs_spec s p stack fuel nowGet nowMkdir :
  normalizePath p = renderS stack → Forall element stack →
  (length stack < fuel)%nat →
  valid s → root_ok s →
  (∀ sfx m, sfx `suffix_of` stack → sfx ≠ stack →
     entry s (renderS sfx) = Some m → Type_ m = TypeDirectory) →
  ∃ s', createParentDirs fuel s p nowGet nowMkdir = Some (s', None)
    ∧ (∀ sfx, sfx `suffix_of` stack →
         ∃ m, entry s' (renderS sfx) = Some m
              ∧ (Type_ m = TypeDirectory
                 ∨ sfx = stack ∧ is_Some (data s !! renderS stack)))
    ∧ (∀ q old, entry s q = Some old →
         ∃ m, entry s' q = Some m ∧ same_but_atime old m)
    ∧ (∀ q, (∀ sfx, sfx `suffix_of` stack → q ≠ renderS sfx) →
         data s' !! q = data s !! q)
    ∧ (∀ q old, entry s q = Some old →
         (∀ sfx, sfx `suffix_of` stack → data s !! renderS sfx ≠ data s !! q) →
         entry s' q = Some old).
Proof.
  intros Hp Hst Hfuel Hv Hroot Hdirs.
  destruct (createParentDirs_ok stack s p fuel nowGet nowMkdir)
    as (s' & Hres & _ & HA & HD & HE & HC & HF); [done..|].
  exists s'. split; [done|]. split; [done|]. split; [|split; [done|]].
  - intros q old (meta & Hq & Hold)%entry_Some.
    destruct (HE _ _ Hold) as (m & Hm & Hsame). exists m. split; [|done].
    apply entry_Some. exists meta. split; [by apply HD|done].
  - intros q old (meta & Hq & Hold)%entry_Some Hoff.
    apply entry_Some. exists meta. split; [by apply HD|].
    apply HF; [done|]. intros sfx Hs. rewrite <- Hq. by apply Hoff.
Qed.

Lemma createParentDirs_spec_witness :
  ∃ s', createParentDirs 3 (NewMemoryStore 0 0 0) "a\b" (λ _, 1) (λ _, 2)
        = Some (s', None)
        ∧ ∃ m, entry s' "/a/b" = Some m ∧ Type_ m = TypeDirectory.
Proof.
  destruct (createParentDirs_spec (NewMemoryStore 0 0 0) "a\b" ["b"; "a"] 3
              (λ _, 1) (λ _, 2)) as (s' & Hres & HA & _).
  - by vm_compute.
  - repeat constructor; by vm_compute.
  - simpl. lia.
  - apply valid_new.
  - eexists. split; [by vm_compute|done].
  - intros sfx m _ _ (meta & Hd & Hm)%entry_Some.
    unfold NewMemoryStore in Hd, Hm. simpl in Hd, Hm.
    apply lookup_insert_Some in Hd as [[_ <-]|[_ Hd]];
      [|by rewrite lookup_empty in Hd].
    rewrite lookup_insert_eq in Hm. by injection Hm as <-.
  - exists s'. split; [exact Hres|].
    destruct (HA ["b"; "a"]) as (m & Hm & [Hty|[_ [old Hold]]]); [done|..].
    + exists m. split; [exact Hm|exact Hty].
    + vm_compute in Hold. discriminate Hold.
Defined.

(** X23.  After [createParentDirs] of the parent of a path, a file can
    be created at the path: when the root is a directory, no entry above
    the path is something else than a directory and the path has no
    entry, [createParentDirs] of the parent returns no error, and
    [Create] of the path then stores and returns a pointer to a new
    regular file named after the last path element. *)
Theorem Create_after_createParentDirs s p x stack fuel nowGet nowMkdir mode now :
  normalizePath p = renderS (x :: stack) → Forall element (x :: stack) →
  (length stack < fuel)%nat →
  valid s → root_ok s →
  (∀ sfx m, sfx `suffix_of` stack →
     entry s (renderS sfx) = Some m → Type_ m = TypeDirectory) →
  data s !! normalizePath p = None →
  ∃ s1 s2 meta record,
    createParentDirs fuel s (Dir (normalizePath p)) nowGet nowMkdir
    = Some (s1, None)
    ∧ Create s1 p mode now = (s2, Ok meta)
    ∧ heap s2 !! meta = Some record
    ∧ Type_ record = TypeRegular ∧ Name record = x
    ∧ data s2 !! normalizePath p = Some meta.
Proof.
  intros Hp Hst Hfuel Hv Hroot Hdirs Hnone.
  pose proof (element_proper _ Hst) as Hpr.
  assert (x ≠ "") as Hx.
  { inversion Hpr as [|? ? (Hne & _) _]. done. }
  inversion Hst as [|? ? _ Hst']; subst.
  rewrite Hp in *. rewrite Dir_renderS by done.
  destruct (createParentDirs_ok stack s (renderS stack) fuel nowGet nowMkdir)
    as (s1 & Hres & Hv1 & HA & HD & HE & HC & HF);
    [by apply normalizePath_renderS|done..| |].
  { intros sfx m Hs _. by apply Hdirs. }
  destruct (HA stack) as (pm & Hpm & Hpty); [done|].
  assert (Type_ pm = TypeDirectory) as Hty.
  { destruct Hpty as [?|[_ [oldMeta Hold]]]; [done|].
    destruct (Hv _ _ Hold) as [old Hrecord].
    destruct (HE _ _ Hrecord) as (m' & Hm' & Hsame).
    assert (m' = pm) as ->.
    { apply entry_Some in Hpm as (meta' & Hd' & Hpm).
      rewrite (HD _ _ Hold) in Hd'. congruence. }
    rewrite (same_but_atime_Type _ _ Hsame).
    apply (Hdirs stack old); [done|]. apply entry_Some. by exists oldMeta. }
  apply entry_Some in Hpm as (parentMeta & Hpd & Hpm).
  assert (data s1 !! renderS (x :: stack) = None) as Hnone1.
  { rewrite HC; [done|]. intros sfx Hs Heq.
    by apply (renderS_ne_ancestor x stack sfx). }
  exists s1. unfold Create. rewrite Hp, Dir_renderS by done. rewrite Hpd, Hpm.
  rewrite bool_decide_eq_false_2 by (by intros Hn). rewrite Hnone1. simpl.
  eexists _, _, _. split; [done|]. split; [reflexivity|]. simpl.
  split; [by rewrite lookup_insert_eq|].
  split; [done|]. split; [by apply Base_renderS|].
  by rewrite lookup_insert_eq.
Qed.

Lemma Create_after_createParentDirs_witness :
  let s := NewMemoryStore 0 0 0 in
  ∃ s1 s2 meta record,
    createParentDirs 3 s "/dir6" (λ _, 1) (λ _, 2) = Some (s1, None)
    ∧ Create s1 "dir6/subdir6/../file6.txt" 0x1a4 3 = (s2, Ok meta)
    ∧ heap s2 !! meta = Some record
    ∧ Name record = "file6.txt"
    ∧ data s2 !! "/dir6/file6.txt" = Some meta.
Proof.
  intros s.
  destruct (Create_after_createParentDirs s "dir6/subdir6/../file6.txt"
              "file6.txt" ["dir6"] 3 (λ _, 1) (λ _, 2) 0x1a4 3)
    as (s1 & s2 & meta & record & H1 & H2 & H3 & _ & H4 & H5).
  - by vm_compute.
  - repeat constructor; by vm_compute.
  - simpl. lia.
  - apply valid_new.
  - eexists. split; [by vm_compute|done].
  - intros sfx m _ (meta & Hd & Hm)%entry_Some.
    unfold s, NewMemoryStore in Hd, Hm. simpl in Hd, Hm.
    apply lookup_insert_Some in Hd as [[_ <-]|[_ Hd]];
      [|by rewrite lookup_empty in Hd].
    rewrite lookup_insert_eq in Hm. by injection Hm as <-.
  - by vm_compute.
  - exists s1, s2, meta, record. split; [exact H1|]. split; [exact H2|].
    split; [exact H3|]. split; [exact H4|exact H5].
Defined.

(** X24.  [createParentDirs] looks for an entry, not for a directory:
    for a path whose parent is a regular file it fails with
    InvalidArgument in the [Mkdir] of the path, although for that parent
    it returns no error. *)
Theorem createParentDirs_below_file s p x stack fuel nowGet nowMkdir file :
  normalizePath p = renderS (x :: stack) → Forall element (x :: stack) →
  (length (x :: stack) < fuel)%nat →
  valid s → root_ok s →
  (∀ sfx m, sfx `suffix_of` stack → sfx ≠ stack →
     entry s (renderS sfx) = Some m → Type_ m = TypeDirectory) →
  entry s (renderS stack) = Some file → Type_ file ≠ TypeDirectory →
  data s !! normalizePath p = None →
  ∃ s1,
    createParentDirs fuel s (Dir (normalizePath p)) nowGet nowMkdir
    = Some (s1, None)
    ∧ createParentDirs fuel s p nowGet nowMkdir
      = Some (s1, Some (ParentNotDirectory (Dir (normalizePath p))))
    ∧ MetaError_kind (ParentNotDirectory (Dir (normalizePath p)))
      = InvalidArgument.
Proof.
  intros Hp Hst Hfuel Hv Hroot Hdirs Hfile Hnd Hnone.
  pose proof (element_proper _ Hst) as Hpr.
  assert (x ≠ "") as Hx.
  { inversion Hpr as [|? ? (Hne & _) _]. done. }
  inversion Hst as [|? ? _ Hst']; subst.
  rewrite Hp in *. rewrite Dir_renderS by done.
  assert (renderS stack ≠ "/") as Hnr.
  { intros Heq. destruct Hroot as (r & Hr & Hrty). rewrite Heq in Hfile.
    congruence. }
  assert (∀ f, (length stack < f)%nat →
            ∃ s1, createParentDirs f s (renderS stack) nowGet nowMkdir
                  = Some (s1, None)
                  ∧ (∃ parentMeta m,
                       data s1 !! renderS stack = Some parentMeta
                       ∧ heap s1 !! parentMeta = Some m
                       ∧ Type_ m ≠ TypeDirectory)
                  ∧ data s1 !! renderS (x :: stack) = None) as Hparent.
  { intros f Hf.
    destruct (createParentDirs_ok stack s (renderS stack) f nowGet nowMkdir)
      as (s1 & Hres & Hv1 & HA & HD & HE & HC & HF);
      [by apply normalizePath_renderS|done..|].
    exists s1. split; [done|]. split.
    - apply entry_Some in Hfile as (parentMeta & Hpd & Hrecord).
      destruct (HE _ _ Hrecord) as (m & Hm & Hsame). exists parentMeta, m.
      split; [by apply HD|]. split; [done|].
      by rewrite (same_but_atime_Type _ _ Hsame).
    - rewrite HC; [done|]. intros sfx Hs Heq.
      by apply (renderS_ne_ancestor x stack sfx). }
  destruct fuel as [|f]; [simpl in Hfuel; lia|]. simpl in Hfuel.
  destruct (Hparent (S f)) as (s1 & H1 & _); [lia|].
  destruct (Hparent f) as (s1' & H1' & (parentMeta & m & Hpd & Hm & Hmty) & Hnone1);
    [lia|].
  assert (s1' = s1) as ->.
  { apply createParentDirs_fuel in H1'. congruence. }
  exists s1. split; [exact H1|]. split; [|done].
  rewrite createParentDirs_S. cbv zeta. rewrite Hp.
  destruct (String.eqb_spec (renderS (x :: stack)) "/") as [Heq|_].
  { by apply renderS_cons_not_root in Heq. }
  rewrite Dir_renderS by done.
  apply String.eqb_neq in Hnr. rewrite Hnr. simpl negb. cbv iota.
  rewrite H1'. unfold Get. rewrite normalizePath_renderS by done.
  rewrite Hnone1. unfold Mkdir. rewrite normalizePath_renderS by done.
  rewrite Dir_renderS by done. rewrite Hpd, Hm.
  by rewrite bool_decide_eq_true_2.
Qed.

Lemma createParentDirs_below_file_witness :
  let s := (Create (NewMemoryStore 0 0 0) "/f" 0x1a4 1).1 in
  ∃ s1,
    createParentDirs 3 s "/f" (λ _, 2) (λ _, 3) = Some (s1, None)
    ∧ createParentDirs 3 s "/f/g" (λ _, 2) (λ _, 3)
      = Some (s1, Some (ParentNotDirectory "/f")).
Proof.
  intros s.
  destruct (createParentDirs_below_file s "/f/g" "g" ["f"] 3 (λ _, 2) (λ _, 3)
              (createdFile 2 "f" 0x1a4 1))
    as (s1 & H1 & H2 & _).
  - by vm_compute.
  - repeat constructor; by vm_compute.
  - simpl. lia.
  - apply (exec_valid _ (CallCreate "/f" 0x1a4) 1), valid_new.
  - eexists. split; [by vm_compute|done].
  - intros sfx m Hs Hne Hm.
    apply suffix_cons_cases in Hs as [->|Hs%suffix_nil_inv]; [done|].
    subst sfx. vm_compute in Hm. by injection Hm as <-.
  - by vm_compute.
  - done.
  - by vm_compute.
  - exists s1. split; [exact H1|exact H2].
Defined.

(** ** The storage cache *)

(** X10.  Under a root directory given in cleaned form (absolute, or
    relative without [..]), a normalized key other than the root and
    free of null bytes is mapped to the root followed by the key; the
    location lies under the root, [pathToKey] maps it back to the key,
    and no other normalized key has the same location. *)
Theorem key_location_roundtrip cfg key :
  cleanedRoot cfg →
  let nk := normalizePath key in
  nk ≠ "/" → ContainsByte nk nul = false →
  keyToPath cfg (TrimPrefix nk "/") = Ok (location cfg nk)
  ∧ HasPrefix (location cfg nk) (RootDir cfg) = true
  ∧ pathToKey cfg (location cfg nk) = nk
  ∧ (∀ key', normalizePath key' ≠ "/" →
       location cfg (normalizePath key') = location cfg nk →
       normalizePath key' = nk).
Proof.
  intros Hroot nk Hne Hnul.
  destruct (keyToPath_cleaned cfg key Hroot Hne) as [_ Hpath].
  fold nk in Hpath. rewrite Hnul in Hpath.
  split; [done|]. split; [|split].
  - destruct (normalizePath_root_or_elem key) as [?|(x & stack & Hst & Hx)];
      [done|].
    unfold nk. rewrite Hx.
    by apply location_Join; [|apply element_proper].
  - by apply pathToKey_location.
  - intros key' Hne' Hloc.
    rewrite <- (pathToKey_location cfg key' Hroot Hne').
    rewrite Hloc. by apply pathToKey_location.
Qed.

Lemma key_location_roundtrip_witness :
  keyToPath DefaultStorageConfig "test/basic.txt" = Ok "data/meta/test/basic.txt"
  ∧ pathToKey DefaultStorageConfig "data/meta/test/basic.txt" = "/test/basic.txt".
Proof.
  assert (cleanedRoot DefaultStorageConfig) as Hroot.
  { right. exists ["data"; "meta"]. split; [done|]. split; [|done].
    repeat constructor; done. }
  destruct (key_location_roundtrip DefaultStorageConfig "/test/basic.txt" Hroot)
    as (H1 & _ & H2 & _); [by vm_compute..|].
  split; [exact H1|exact H2].
Defined.

Section StorageExtras.

Context {D : Type} `{!FileSystem D}.

(** X11.  Under a root directory in cleaned form [Save] never reports an
    escape: it fails for the empty key, for a key that normalizes to the
    root and for a key with a null byte left after normalization, and
    succeeds for every other key. *)
Theorem Save_cleaned_root (st : State D) key data :
  cleanedRoot (config (storage st)) →
  let nk := normalizePath key in
  Save st key data
  = if String.eqb key "" then (st, Some EmptyKey)
    else if String.eqb nk "/" then (st, Some RootKey)
    else if ContainsByte nk nul then (st, Some (InvalidKey InvalidCharacters))
    else (with_storage st (<[nk := data]> (cache (storage st)))
            (<[nk := true]> (dirty (storage st))), None).
Proof.
  intros Hroot nk. rewrite Save_eq. fold nk.
  destruct (String.eqb key ""); [done|].
  destruct (String.eqb_spec nk "/") as [|Hne]; [done|].
  destruct (keyToPath_cleaned _ key Hroot Hne) as [-> _]. done.
Qed.

(** X12.  Under a root directory written with a leading [./] (such as
    [./data]) the prefix check of [validatePath] can never succeed:
    every [Save] fails with InvalidArgument and stores nothing. *)
Theorem Save_dotted_root (st : State D) key data :
  dottedRoot (config (storage st)) →
  ∃ e, Save st key data = (st, Some e)
       ∧ StorageError_kind e = InvalidArgument.
Proof.
  intros Hroot. rewrite Save_eq.
  destruct (String.eqb key ""); [by eexists|].
  destruct (String.eqb_spec (normalizePath key) "/") as [|Hne]; [by eexists|].
  destruct (ContainsByte (normalizePath key) nul); [by eexists|].
  rewrite dotted_escapes by done. by eexists.
Qed.

(** X13.  Saves compose: after two successful saves, the key saved last
    loads the bytes saved last, and a key saved first loads its own
    bytes unless the second save went to the same normalized key. *)
Theorem Save_Save_Load (st : State D) k1 d1 k2 d2 st1 st2 :
  Save st k1 d1 = (st1, None) → Save st1 k2 d2 = (st2, None) →
  Load st2 k2 = (st2, Ok d2)
  ∧ (normalizePath k1 = normalizePath k2 → Load st2 k1 = (st2, Ok d2))
  ∧ (normalizePath k1 ≠ normalizePath k2 → Load st2 k1 = (st2, Ok d1)).
Proof.
  intros (-> & _)%Save_Ok_inv (-> & _)%Save_Ok_inv.
  unfold Load. simpl. split; [|split].
  - by rewrite lookup_insert_eq.
  - intros ->. by rewrite lookup_insert_eq.
  - intros Hne. by rewrite lookup_insert_ne, lookup_insert_eq.
Qed.

(** X14.  [Load] serves a cached key from the cache, without any host
    call or change of state.  For a key that is not cached: a key the
    mapping rejects is an InvalidArgument; a location the host reports
    missing is a NotFound; any other host error is passed on; and bytes
    read are returned and cached without a dirty flag, so that a second
    [Load] is served from the cache. *)
Theorem Load_spec (st : State D) key :
  let nk := normalizePath key in
  let fs := storage st in
  (∀ data, cache fs !! nk = Some data → Load st key = (st, Ok data))
  ∧ (cache fs !! nk = None →
     (∀ e, keyToPath (config fs) (TrimPrefix nk "/") = Err e →
        Load st key = (st, Err (InvalidKey e))
        ∧ StorageError_kind (InvalidKey e) = InvalidArgument)
     ∧ (∀ path d e, keyToPath (config fs) (TrimPrefix nk "/") = Ok path →
          os_ReadFile (disk st) path = (d, Err e) →
          Load st key
          = (with_disk st d,
             Err (if IsNotExist e then KeyNotFound nk else HostError e))
          ∧ StorageError_kind (KeyNotFound nk) = NotFound)
     ∧ (∀ path d data, keyToPath (config fs) (TrimPrefix nk "/") = Ok path →
          os_ReadFile (disk st) path = (d, Ok data) →
          let st' := with_storage (with_disk st d) (<[nk := data]> (cache fs))
                       (dirty fs) in
          Load st key = (st', Ok data)
          ∧ Load st' key = (st', Ok data))).
Proof.
  intros nk fs. unfold Load. fold nk. fold fs. split.
  - by intros data ->.
  - intros ->. split; [|split].
    + by intros e ->.
    + intros path d e -> ->. simpl. by destruct (IsNotExist e).
    + intros path d data -> ->. simpl.
      unfold DecompressData. rewrite lookup_insert_eq.
      by destruct (EnableCompression (config fs)).
Qed.

(** X15.  On a lawful host, a key is gone after a successful [Delete]:
    a [Load] of it fails with NotFound. *)
Theorem Delete_then_Load `{!LawfulFileSystem D} (st : State D) key st' :
  StorageDelete st key = (st', None) →
  ∃ st'', Load st' key = (st'', Err (KeyNotFound (normalizePath key)))
          ∧ StorageError_kind (KeyNotFound (normalizePath key)) = NotFound.
Proof.
  unfold StorageDelete.
  destruct (keyToPath _ _) as [path|e] eqn:Ek; [|done]. simpl.
  destruct (os_Remove (disk st) path) as [d r] eqn:Er.
  intros Hres.
  assert (st' = with_disk (with_storage st
                  (delete (normalizePath key) (cache (storage st)))
                  (<[normalizePath key := true]> (dirty (storage st)))) d
          ∧ (r = None ∨ ∃ e, r = Some e ∧ IsNotExist e = true))
    as [-> Hr].
  { destruct r as [e|].
    - destruct (IsNotExist e) eqn:Ee; simpl in Hres; [|done].
      injection Hres as <-. split; [done|]. right. by exists e.
    - injection Hres as <-. split; [done|]. by left. }
  destruct (read_after_remove _ _ _ _ Er Hr) as (e & He & Hne).
  unfold Load. simpl. rewrite lookup_delete_eq, Ek.
  unfold content in He.
  destruct (os_ReadFile d path) as [d' r'] eqn:Eread. simpl in He. subst r'.
  rewrite Hne. by eexists.
Qed.

(** X16.  The storage's [List] never fails; whatever the iteration
    order, it returns, each once, the cached keys that have the
    normalized prefix as a prefix of their bytes, so that for the prefix
    [/dir1] it also returns a key such as [/dir10/x]. *)
Theorem StorageList_spec (st : State D) order prefix :
  ranges (cache (storage st)) order →
  let np := normalizePath prefix in
  ∃ keys,
    StorageList st order prefix = Ok keys
    ∧ NoDup keys
    ∧ (∀ k, k ∈ keys ↔ is_Some (cache (storage st) !! k) ∧ HasPrefix k np = true)
    ∧ (∀ suffix, is_Some (cache (storage st) !! (np +:+ suffix)) →
         np +:+ suffix ∈ keys).
Proof.
  intros Horder np. unfold ranges in Horder.
  assert (∀ l acc, keysLoop np l acc
                   = acc ++ filter (λ k, HasPrefix k np = true) l.*1) as Hloop.
  { induction l as [|[k data] l IH]; intros acc; simpl.
    - by rewrite app_nil_r.
    - rewrite filter_cons. destruct (HasPrefix k np) eqn:E.
      + rewrite decide_True by done. by rewrite IH, <- app_assoc.
      + rewrite decide_False by done. by rewrite IH. }
  exists (filter (λ k, HasPrefix k np = true) order.*1).
  assert (∀ k, k ∈ filter (λ k, HasPrefix k np = true) order.*1
               ↔ is_Some (cache (storage st) !! k) ∧ HasPrefix k np = true)
    as Hin.
  { intros k. rewrite list_elem_of_filter, Horder. split.
    - intros [Hp ([k' data] & -> & Hk)%list_elem_of_fmap]. split; [|done].
      exists data. by apply elem_of_map_to_list.
    - intros [[data Hk] Hp]. split; [done|].
      apply list_elem_of_fmap. exists (k, data). split; [done|].
      by apply elem_of_map_to_list. }
  split; [unfold StorageList; by rewrite Hloop|]. split; [|split; [done|]].
  - apply NoDup_filter. rewrite Horder. apply NoDup_fst_map_to_list.
  - intros suffix Hk. apply Hin. split; [done|]. apply HasPrefix_app.
Qed.

(** X17.  On a lawful host, what [Sync] marks clean is on the host:
    when no two cached keys share a location, every cached key that was
    dirty before a [Sync] and is not dirty after it reads back from its
    location with the cached bytes, whether the [Sync] as a whole
    succeeded or stopped at an error. *)
Theorem Sync_durable `{!LawfulFileSystem D} (st : State D) order k data path :
  ranges (cache (storage st)) order →
  locations_distinct (storage st) →
  cache (storage st) !! k = Some data →
  isDirty (dirty (storage st)) k = true →
  isDirty (dirty (storage (Sync st order).1)) k = false →
  keyToPath (config (storage st)) (TrimPrefix k "/") = Ok path →
  content (disk (Sync st order).1) path = Ok data.
Proof.
  intros Horder Hdist Hk Hdirty Hclean Hpath. unfold ranges in Horder.
  pose proof (syncLoop_durable (config (storage st)) order
                (dirty (storage st)) (disk st)) as H.
  unfold Sync in *. destruct (syncLoop _ _ _ _) as [[dirty1 d1] r].
  simpl in *. apply (H) with (k := k); try done.
  - rewrite Horder. apply NoDup_fst_map_to_list.
  - intros k1 k2 d1' d2' p H1 H2. rewrite Horder in H1, H2.
    apply elem_of_map_to_list in H1, H2. by eapply Hdist.
  - rewrite Horder. by apply elem_of_map_to_list.
Qed.

(** X18.  [Sync] is safe to repeat: after a successful [Sync], another
    [Sync], in whatever order, succeeds without any host call and
    changes nothing. *)
Theorem Sync_twice (st : State D) order order' :
  ranges (cache (storage st)) order →
  ranges (cache (storage st)) order' →
  (Sync st order).2 = None →
  Sync (Sync st order).1 order' = ((Sync st order).1, None).
Proof.
  intros Horder Horder' Hok. unfold ranges in *.
  destruct (Sync st order) as [st1 r] eqn:E. simpl in *. subst r.
  unfold Sync in E.
  destruct (syncLoop _ _ _ _) as [[dirty1 d1] r] eqn:El.
  injection E as <- ->.
  apply syncLoop_success in El as [_ Hclean].
  unfold Sync. simpl. rewrite syncLoop_clean; [done|].
  apply Forall_forall. intros kv Hkv.
  rewrite Forall_forall in Hclean. apply Hclean.
  rewrite Horder. by rewrite Horder' in Hkv.
Qed.

(** X19.  In a session that starts on a root directory without files,
    whatever calls were made, a [Sync] never rejects a cached key: when
    it fails, the error is the host's, from making the directory or from
    writing the file. *)
Theorem Sync_errors_are_host_errors cfg (d : D) calls order e :
  let st := storageRun (newState cfg d) calls in
  ranges (cache (storage st)) order →
  (Sync st order).2 = Some e →
  (∃ dir e', e = FailedToCreateDirectory dir e')
  ∨ (∃ path e', e = FailedToWriteFile path e').
Proof.
  intros st Horder. unfold ranges in Horder.
  assert (cache_valid (storage st)) as Hv.
  { apply storageRun_cache_valid. by intros k data Hk. }
  pose proof (syncLoop_errors (config (storage st)) order
                (dirty (storage st)) (disk st) e) as H.
  unfold Sync. destruct (syncLoop _ _ _ _) as [[dirty1 d1] r]. simpl in *.
  apply H. intros k data Hin. apply (Hv k data).
  apply elem_of_map_to_list. by rewrite <- Horder.
Qed.

(** X20.  On a lawful host and under a root directory in cleaned form,
    the cache never disagrees with the host about a clean key: in a
    session that starts on a root directory without files, after any
    calls, every cached key that is not dirty has a location, and the
    host holds the cached bytes there. *)
Theorem clean_keys_on_host `{!LawfulFileSystem D} cfg (d : D) calls :
  cleanedRoot cfg → orders_ok (newState cfg d) calls →
  let st := storageRun (newState cfg d) calls in
  ∀ k data, cache (storage st) !! k = Some data →
    isDirty (dirty (storage st)) k = false →
    keyToPath cfg (TrimPrefix k "/") = Ok (location cfg k)
    ∧ content (disk st) (location cfg k) = Ok data.
Proof.
  intros Hroot Hord st k data Hk Hclean.
  destruct (storageRun_coherent (newState cfg d) calls) as [Hloc Hco];
    [done|done|by intros ? ? ?|by intros ? ? ?|].
  fold st in Hloc, Hco.
  assert (config (storage st) = cfg) as Hcfg by apply storageRun_config.
  destruct (Hloc k data Hk) as (_ & _ & Hpath). rewrite Hcfg in Hpath.
  split; [done|]. rewrite <- Hcfg. by apply Hco.
Qed.

(** X21.  On a lawful host and under a root directory in cleaned form,
    a successful [Sync] makes the whole cache durable: in a session
    that starts on a root directory without files, after a [Sync] that
    returned no error the host holds the bytes of every cached key at
    its location. *)
Theorem Sync_makes_cache_durable `{!LawfulFileSystem D} cfg (d : D) calls order :
  cleanedRoot cfg → orders_ok (newState cfg d) calls →
  let st := storageRun (newState cfg d) calls in
  ranges (cache (storage st)) order →
  (Sync st order).2 = None →
  ∀ k data, cache (storage st) !! k = Some data →
    content (disk (Sync st order).1) (location cfg k) = Ok data.
Proof.
  intros Hroot Hord st Horder Hok k data Hk.
  destruct (storageRun_coherent (newState cfg d) calls) as [Hloc Hco];
    [done|done|by intros ? ? ?|by intros ? ? ?|].
  fold st in Hloc, Hco.
  assert (config (storage st) = cfg) as Hcfg by apply storageRun_config.
  destruct (Sync_coherent st order) as [_ Hco']; [by rewrite Hcfg|done..|].
  unfold coherent in Hco'.
  assert (cache (storage (Sync st order).1) = cache (storage st)
          ∧ config (storage (Sync st order).1) = config (storage st)
          ∧ isDirty (dirty (storage (Sync st order).1)) k = false)
    as (Hc & Hg & Hclean).
  { unfold Sync in *.
    destruct (syncLoop _ _ _ _) as [[dirty1 d1] r] eqn:E. simpl in *.
    subst r. apply syncLoop_success in E as [_ Hall].
    split; [done|]. split; [done|].
    rewrite Forall_forall in Hall. apply (Hall (k, data)).
    unfold ranges in Horder. rewrite Horder. by apply elem_of_map_to_list. }
  rewrite <- Hcfg, <- Hg. apply Hco'; [by rewrite Hc|done].
Qed.

End StorageExtras.

Lemma Save_cleaned_root_witness :
  (Save freshState "dir1\file.txt" hello).2 = None
  ∧ (Save freshState nulKey hello).2 = Some (InvalidKey InvalidCharacters).
Proof.
  assert (cleanedRoot (config (storage freshState))) as Hroot.
  { right. exists ["data"; "meta"]. split; [done|]. split; [|done].
    repeat constructor; done. }
  split.
  - by rewrite (Save_cleaned_root freshState "dir1\file.txt" hello Hroot).
  - by rewrite (Save_cleaned_root freshState nulKey hello Hroot).
Defined.

Lemma Save_dotted_root_witness :
  ∃ e, Save (newState dottedConfig (∅ : gmap string bytes)) "/x" hello
       = (newState dottedConfig ∅, Some e)
       ∧ StorageError_kind e = InvalidArgument.
Proof.
  apply (Save_dotted_root (newState dottedConfig (∅ : gmap string bytes))).
  exists ["data"]. split; [done|]. split; [|done]. repeat constructor; done.
Defined.

Lemma Save_Save_Load_witness :
  let st1 := (Save freshState "/a" hello).1 in
  let st2 := (Save st1 "/b" []).1 in
  Load st2 "/b" = (st2, Ok []) ∧ Load st2 "/a" = (st2, Ok hello).
Proof.
  intros st1 st2.
  destruct (Save_Save_Load freshState "/a" hello "/b" [] st1 st2)
    as (H1 & _ & H2); [by vm_compute..|].
  split; [exact H1|]. apply H2. by vm_compute.
Defined.

Lemma Delete_then_Load_witness :
  let st' := (StorageDelete freshState "/x").1 in
  ∃ st'', Load st' "/x" = (st'', Err (KeyNotFound "/x"))
          ∧ StorageError_kind (KeyNotFound "/x") = NotFound.
Proof.
  intros st'. apply (Delete_then_Load freshState "/x" st'). by vm_compute.
Defined.

Lemma StorageList_spec_witness :
  let st := (Save (Save freshState "/dir1/a" hello).1 "/dir10/x" hello).1 in
  ∃ keys, StorageList st (map_to_list (cache (storage st))) "/dir1" = Ok keys
          ∧ "/dir10/x" ∈ keys.
Proof.
  intros st.
  assert (ranges (cache (storage st)) (map_to_list (cache (storage st))))
    as Hr by (by unfold ranges).
  destruct (StorageList_spec st _ "/dir1" Hr) as (keys & H1 & _ & _ & H2).
  exists keys. split; [exact H1|]. apply (H2 "0/x").
  exists hello. by vm_compute.
Defined.

Lemma Sync_durable_witness :
  let st := (Save freshState "/x" hello).1 in
  content (disk (Sync st (map_to_list (cache (storage st)))).1) "data/meta/x"
  = Ok hello.
Proof.
  intros st.
  assert (ranges (cache (storage st)) (map_to_list (cache (storage st))))
    as Hr by (by unfold ranges).
  assert (cache (storage st) = {["/x" := hello]}) as Hc by (by vm_compute).
  apply (Sync_durable st _ "/x" hello "data/meta/x" Hr).
  - intros k1 k2 d1 d2 path H1 H2 _ _. rewrite Hc in H1, H2.
    apply lookup_singleton_Some in H1 as [<- _].
    by apply lookup_singleton_Some in H2 as [<- _].
  - by vm_compute.
  - by vm_compute.
  - by vm_compute.
  - by vm_compute.
Defined.

Lemma Sync_twice_witness :
  let st := (Save freshState "/x" hello).1 in
  let order := map_to_list (cache (storage st)) in
  Sync (Sync st order).1 order = ((Sync st order).1, None).
Proof.
  intros st order.
  assert (ranges (cache (storage st)) order) as Hr by (by unfold ranges).
  apply (Sync_twice st order order Hr Hr). by vm_compute.
Defined.

Lemma Sync_errors_are_host_errors_witness :
  let st := storageRun (newState DefaultStorageConfig ()) [CallSave "/x" hello] in
  (Sync st (map_to_list (cache (storage st)))).2
  = Some (FailedToWriteFile "data/meta/x" ENOSPC)
  ∧ ((∃ dir e', FailedToWriteFile "data/meta/x" ENOSPC
                = FailedToCreateDirectory dir e')
     ∨ (∃ path e', FailedToWriteFile "data/meta/x" ENOSPC
                   = FailedToWriteFile path e')).
Proof.
  intros st.
  assert ((Sync st (map_to_list (cache (storage st)))).2
          = Some (FailedToWriteFile "data/meta/x" ENOSPC)) as Hfail
    by (by vm_compute).
  split; [exact Hfail|].
  apply (Sync_errors_are_host_errors DefaultStorageConfig ()
           [CallSave "/x" hello] (map_to_list (cache (storage st))));
    [by unfold ranges|exact Hfail].
Defined.

Lemma clean_keys_on_host_witness :
  let calls := [CallSave "/x" hello; CallSync [("/x", hello)]; CallSave "/y" []] in
  let st := storageRun freshState calls in
  cache (storage st) !! "/x" = Some hello
  ∧ content (disk st) "data/meta/x" = Ok hello.
Proof.
  intros calls st.
  assert (cleanedRoot DefaultStorageConfig) as Hroot.
  { right. exists ["data"; "meta"]. split; [done|]. split; [|done].
    repeat constructor; done. }
  assert (orders_ok freshState calls) as Hord.
  { split; [done|]. split; [|done]. unfold ranges.
    assert (map_to_list (cache (storage (storageExec freshState
                                          (CallSave "/x" hello))))
            = [("/x", hello)]) as -> by (by vm_compute).
    reflexivity. }
  split; [by vm_compute|].
  apply (clean_keys_on_host DefaultStorageConfig ∅ calls Hroot Hord "/x" hello);
    by vm_compute.
Defined.

Lemma Sync_makes_cache_durable_witness :
  let st := storageRun freshState [CallSave "/x" hello; CallSave "/y" []] in
  let order := map_to_list (cache (storage st)) in
  content (disk (Sync st order).1) "data/meta/x" = Ok hello
  ∧ content (disk (Sync st order).1) "data/meta/y" = Ok [].
Proof.
  intros st order.
  assert (cleanedRoot DefaultStorageConfig) as Hroot.
  { right. exists ["data"; "meta"]. split; [done|]. split; [|done].
    repeat constructor; done. }
  assert (orders_ok freshState [CallSave "/x" hello; CallSave "/y" []]) as Hord.
  { by repeat split. }
  assert (ranges (cache (storage st)) order) as Hr by (by unfold ranges).
  assert ((Sync st order).2 = None) as Hok by (by vm_compute).
  split.
  - apply (Sync_makes_cache_durable DefaultStorageConfig ∅ _ order
             Hroot Hord Hr Hok "/x" hello). by vm_compute.
  - apply (Sync_makes_cache_durable DefaultStorageConfig ∅ _ order
             Hroot Hord Hr Hok "/y" []). by vm_compute.
Defined.
